(** * Laplacian-Pyramid: a shallow embedding of [filtering.py]

    The NumPy buffers of the program are modelled as records holding an
    element type, a shape and the samples in row-major order.  Floating-point
    samples are idealised as real numbers (rounding is not modelled); 8-bit
    unsigned samples are integers in [0, 255] with wrap-around arithmetic.
    Python exceptions are values of [result]. *)

From Stdlib Require Import Ascii String.
From Stdlib Require Import Reals.Reals Lra Lia ZArith List Bool Arith PeanoNat.
Import ListNotations.

Open Scope string_scope.
Open Scope list_scope.
Open Scope R_scope.

(** ** Exceptions *)

Inductive error : Type :=
| IndexError
| ValueError
| AssertionError
| UFuncTypeError
| OverflowError
| ZeroDivisionError.

Inductive result (A : Type) : Type :=
| Ok (a : A)
| Raise (e : error).

Arguments Ok {A} a.
Arguments Raise {A} e.

Definition bind {A B : Type} (m : result A) (k : A -> result B) : result B :=
  match m with
  | Ok a => k a
  | Raise e => Raise e
  end.

Notation "x <- m ;; k" := (bind m (fun x => k))
  (at level 61, m at next level, right associativity).

(** ** Shapes and multi-indices *)

Definition numel (sh : list nat) : nat := fold_right Nat.mul 1%nat sh.

(** Row-major offset of a multi-index. *)
Fixpoint ravel (shape idx : list nat) : nat :=
  match shape, idx with
  | _ :: s, i :: js => (i * numel s + ravel s js)%nat
  | _, _ => 0%nat
  end.

(** Multi-index of a row-major offset. *)
Fixpoint unravel (shape : list nat) (k : nat) : list nat :=
  match shape with
  | [] => []
  | _ :: s => (k / numel s)%nat :: unravel s (k mod numel s)
  end.

Fixpoint in_range (shape idx : list nat) : bool :=
  match shape, idx with
  | [], [] => true
  | d :: s, i :: js => (i <? d)%nat && in_range s js
  | _, _ => false
  end.

(** ** Buffers *)

Inductive dtype : Type := uint8 | float32 | float64.

Definition dtype_eqb (a b : dtype) : bool :=
  match a, b with
  | uint8, uint8 | float32, float32 | float64, float64 => true
  | _, _ => false
  end.

Record ndarray : Type := mk_ndarray {
  dt : dtype;
  shape : list nat;
  data : list R
}.

Definition ndim (a : ndarray) : nat := length (shape a).

Definition wf (a : ndarray) : Prop := length (data a) = numel (shape a).

(** Sample at a multi-index (the caller checks the bounds). *)
Definition get (a : ndarray) (idx : list nat) : R :=
  nth (ravel (shape a) idx) (data a) 0.

(** Buffer of a given shape filled from a function of the multi-index. *)
Definition build (d : dtype) (sh : list nat) (f : list nat -> R) : ndarray :=
  mk_ndarray d sh (map (fun k => f (unravel sh k)) (seq 0 (numel sh))).

(** ** Element types

    [cast d x] is the value stored when [x] is written into a buffer of type
    [d]: floats keep the value, [uint8] truncates toward zero and wraps. *)

Definition Rtrunc (x : R) : Z :=
  if Rle_dec 0 x then Int_part x else (- Int_part (- x))%Z.

Definition cast (d : dtype) (x : R) : R :=
  match d with
  | uint8 => IZR (Rtrunc x mod 256)
  | _ => x
  end.

(** Result type of a binary operation on two buffers. *)
Definition promote (a b : dtype) : dtype :=
  match a, b with
  | uint8, uint8 => uint8
  | float64, _ | _, float64 => float64
  | _, _ => float32
  end.

Definition is_float (d : dtype) : bool :=
  match d with uint8 => false | _ => true end.

(** A Python number: an [int] or a [float]. *)
Inductive pyscalar : Type :=
| PyInt (z : Z)
| PyFloat (x : R).

Definition scalar_value (s : pyscalar) : R :=
  match s with PyInt z => IZR z | PyFloat x => x end.

(** ** NumPy primitives *)

Definition zeros (d : dtype) (sh : list nat) : ndarray :=
  build d sh (fun _ => 0).

(** [np.zeros_like(a, dtype=d)] *)
Definition zeros_like (a : ndarray) (d : dtype) : ndarray := zeros d (shape a).

(** [a.astype(d)] *)
Definition astype (a : ndarray) (d : dtype) : ndarray :=
  mk_ndarray d (shape a) (map (cast d) (data a)).

(** [np.sum(a)] *)
Definition np_sum (a : ndarray) : R := fold_right Rplus 0 (data a).

Fixpoint sub_index (idx before : list nat) : list nat :=
  match idx, before with
  | i :: js, b :: bs => (i - b)%nat :: sub_index js bs
  | _, _ => []
  end.

Fixpoint add_index (idx off : list nat) : list nat :=
  match idx, off with
  | i :: js, b :: bs => (b + i)%nat :: add_index js bs
  | _, _ => []
  end.

Fixpoint all_leb (before idx : list nat) : bool :=
  match before, idx with
  | b :: bs, i :: js => (b <=? i)%nat && all_leb bs js
  | _, _ => true
  end.

Definition pad_shape (sh : list nat) (pads : list (nat * nat)) : list nat :=
  map (fun dp => (fst (snd dp) + fst dp + snd (snd dp))%nat) (combine sh pads).

(** [np.pad(a, pads, mode='constant')]: one (before, after) pair per axis. *)
Definition np_pad (a : ndarray) (pads : list (nat * nat)) : ndarray :=
  let before := map fst pads in
  build (dt a) (pad_shape (shape a) pads)
    (fun idx =>
       if all_leb before idx && in_range (shape a) (sub_index idx before)
       then get a (sub_index idx before) else 0).

(** Length of the slice [start:stop] of an axis of length [dim]. *)
Definition slice_len (start stop dim : nat) : nat :=
  (Nat.min stop dim - Nat.min start dim)%nat.

(** [a[h:h+m, w:w+n]] on a rank-2 buffer. *)
Definition window2 (a : ndarray) (h m w n : nat) : ndarray :=
  build (dt a)
    [slice_len h (h + m) (nth 0 (shape a) 0%nat);
     slice_len w (w + n) (nth 1 (shape a) 0%nat)]
    (fun idx => get a (add_index idx [h; w])).

(** [a[h:h+m, w:w+n, c]] on a rank-3 buffer. *)
Definition window3 (a : ndarray) (h m w n c : nat) : result ndarray :=
  if (c <? nth 2 (shape a) 0%nat)%nat then
    Ok (build (dt a)
          [slice_len h (h + m) (nth 0 (shape a) 0%nat);
           slice_len w (w + n) (nth 1 (shape a) 0%nat)]
          (fun idx => get a (add_index idx [h; w] ++ [c])))
  else Raise IndexError.

(** Broadcasting of two shapes, on the reversed shapes. *)
Fixpoint broadcast_rev (r1 r2 : list nat) : option (list nat) :=
  match r1, r2 with
  | [], r => Some r
  | r, [] => Some r
  | a :: r1', b :: r2' =>
      if (a =? b)%nat then option_map (cons a) (broadcast_rev r1' r2')
      else if (a =? 1)%nat then option_map (cons b) (broadcast_rev r1' r2')
      else if (b =? 1)%nat then option_map (cons a) (broadcast_rev r1' r2')
      else None
  end.

Definition broadcast_shapes (s1 s2 : list nat) : option (list nat) :=
  option_map (@rev nat) (broadcast_rev (rev s1) (rev s2)).

Fixpoint clamp_index (sh idx : list nat) : list nat :=
  match sh, idx with
  | d :: s, i :: js => (if (d =? 1)%nat then 0%nat else i) :: clamp_index s js
  | _, _ => []
  end.

(** Index into an operand of shape [sh] for an index of the broadcast result. *)
Definition bindex (sh idx : list nat) : list nat :=
  clamp_index sh (skipn (length idx - length sh) idx).

(** Element-wise [a op b] into a fresh buffer. *)
Definition binop (f : R -> R -> R) (a b : ndarray) : result ndarray :=
  match broadcast_shapes (shape a) (shape b) with
  | None => Raise ValueError
  | Some sh =>
      let d := promote (dt a) (dt b) in
      Ok (build d sh (fun idx =>
            cast d (f (get a (bindex (shape a) idx))
                      (get b (bindex (shape b) idx)))))
  end.

(** In-place [a op= b]: the result keeps the shape and type of [a]. *)
Definition inplace_binop (f : R -> R -> R) (a b : ndarray) : result ndarray :=
  match broadcast_shapes (shape a) (shape b) with
  | None => Raise ValueError
  | Some sh =>
      if list_eq_dec Nat.eq_dec sh (shape a) then
        if is_float (dt b) && negb (is_float (dt a)) then Raise UFuncTypeError
        else Ok (build (dt a) (shape a) (fun idx =>
                   cast (dt a) (f (get a idx) (get b (bindex (shape b) idx)))))
      else Raise ValueError
  end.

(** Result type of an operation between a buffer and a Python number. *)
Definition scalar_dtype (d : dtype) (s : pyscalar) : dtype :=
  match d, s with
  | uint8, PyFloat _ => float64
  | _, _ => d
  end.

(** A Python [int] combined with an 8-bit buffer must itself fit in 8 bits. *)
Definition scalar_fits (d : dtype) (s : pyscalar) : bool :=
  match d, s with
  | uint8, PyInt z => (0 <=? z)%Z && (z <=? 255)%Z
  | _, _ => true
  end.

(** [a op s] for a Python number [s], into a fresh buffer. *)
Definition scalar_op (f : R -> R -> R) (a : ndarray) (s : pyscalar)
  : result ndarray :=
  if scalar_fits (dt a) s then
    let d := scalar_dtype (dt a) s in
    Ok (mk_ndarray d (shape a)
          (map (fun x => cast d (f x (scalar_value s))) (data a)))
  else Raise OverflowError.

(** In-place [a op= s] for a Python number [s]. *)
Definition inplace_scalar_op (f : R -> R -> R) (a : ndarray) (s : pyscalar)
  : result ndarray :=
  match dt a, s with
  | uint8, PyFloat _ => Raise UFuncTypeError
  | _, _ =>
      if scalar_fits (dt a) s then
        Ok (mk_ndarray (dt a) (shape a)
              (map (fun x => cast (dt a) (f x (scalar_value s))) (data a)))
      else Raise OverflowError
  end.

Fixpoint list_set {A : Type} (k : nat) (v : A) (l : list A) : list A :=
  match l, k with
  | [], _ => []
  | _ :: t, O => v :: t
  | x :: t, S k' => x :: list_set k' v t
  end.

(** Item assignment [a[idx] = v]. *)
Definition set_item (a : ndarray) (idx : list nat) (v : R) : result ndarray :=
  if in_range (shape a) idx then
    Ok (mk_ndarray (dt a) (shape a)
          (list_set (ravel (shape a) idx) (cast (dt a) v) (data a)))
  else Raise IndexError.

(** [for i in l: s = body(i, s)], stopping at the first exception. *)
Fixpoint for_each {S : Type} (l : list nat) (body : nat -> S -> result S)
  (s : S) : result S :=
  match l with
  | [] => Ok s
  | i :: l' => s' <- body i s ;; for_each l' body s'
  end.

(** [range(n)] *)
Definition range (n : nat) : list nat := seq 0 n.

(** ** The correlation engine ([filtering.py], lines 5-71) *)

Definition cross_correlation_2d (img kernel : ndarray) : result ndarray :=
  let out_img := zeros_like img float64 in
  match shape img with
  | [img_h; img_w] =>
      match shape kernel with
      | [full_m; full_n] =>
          let half_m := (full_m / 2)%nat in
          let half_n := (full_n / 2)%nat in
          let img_pad := np_pad img [(half_m, half_m); (half_n, half_n)] in
          for_each (range img_h) (fun h =>
            for_each (range img_w) (fun w out =>
              p <- binop Rmult kernel (window2 img_pad h full_m w full_n) ;;
              set_item out [h; w] (np_sum p)))
            out_img
      | _ => Raise ValueError
      end
  | [img_h; img_w; _] =>
      match shape kernel with
      | [full_m; full_n] =>
          let half_m := (full_m / 2)%nat in
          let half_n := (full_n / 2)%nat in
          let img_pad :=
            np_pad img [(half_m, half_m); (half_n, half_n); (0, 0)%nat] in
          for_each (range img_h) (fun h =>
            for_each (range img_w) (fun w out =>
              x0 <- window3 img_pad h full_m w full_n 0 ;;
              p0 <- binop Rmult kernel x0 ;;
              out <- set_item out [h; w; 0%nat] (np_sum p0) ;;
              x1 <- window3 img_pad h full_m w full_n 1 ;;
              p1 <- binop Rmult kernel x1 ;;
              out <- set_item out [h; w; 1%nat] (np_sum p1) ;;
              x2 <- window3 img_pad h full_m w full_n 2 ;;
              p2 <- binop Rmult kernel x2 ;;
              set_item out [h; w; 2%nat] (np_sum p2)))
            out_img
      | _ => Raise ValueError
      end
  | _ => Ok out_img
  end.

(** [kernel[::-1, ::-1]] *)
Definition flip2 (kernel : ndarray) : result ndarray :=
  match shape kernel with
  | m :: n :: _ =>
      Ok (build (dt kernel) (shape kernel) (fun idx =>
            match idx with
            | i :: j :: r => get kernel ((m - 1 - i) :: (n - 1 - j) :: r)%nat
            | _ => 0
            end))
  | _ => Raise IndexError
  end.

Definition convolve_2d (img kernel : ndarray) : result ndarray :=
  kernel <- flip2 kernel ;;
  cross_correlation_2d img kernel.

(** ** Kernel builders (lines 73-103) *)

(** The unnormalised entry written at [filter[y, x]]. *)
Definition gaussian_entry (sigma : R) (half_height half_width y x : nat) : R :=
  (1 / (2 * PI * sigma)) *
  exp (- ((INR x - INR half_width) ^ 2 + (INR y - INR half_height) ^ 2)
       / (2 * sigma ^ 2)).

Definition gaussian_blur_kernel_2d (sigma : R) (height width : nat)
  : result ndarray :=
  let half_height := (height / 2)%nat in
  let half_width := (width / 2)%nat in
  let filter := zeros float64 [height; width] in
  filter <- for_each (range height) (fun y =>
              for_each (range width) (fun x filter =>
                if Req_dec_T sigma 0 then Raise ZeroDivisionError
                else set_item filter [y; x]
                       (gaussian_entry sigma half_height half_width y x)))
              filter ;;
  scalar_op Rdiv filter (PyFloat (np_sum filter)).

(** ** Filter operators (lines 106-127 and 156-157) *)

Definition low_pass (img : ndarray) (sigma : R) (size : nat) : result ndarray :=
  k <- gaussian_blur_kernel_2d sigma size size ;;
  convolve_2d img k.

Definition high_pass (img : ndarray) (sigma : R) (size : nat) : result ndarray :=
  k <- gaussian_blur_kernel_2d sigma size size ;;
  c <- convolve_2d img k ;;
  binop Rminus img c.

(** [kernel.T] *)
Definition transpose (a : ndarray) : ndarray :=
  build (dt a) (rev (shape a)) (fun idx => get a (rev idx)).

Definition separable_filter (img kernel1d : ndarray) : result ndarray :=
  r <- cross_correlation_2d img kernel1d ;;
  cross_correlation_2d r (transpose kernel1d).

(** ** Hybrid images (lines 129-153) *)

Definition lower_ascii (c : ascii) : ascii :=
  let n := nat_of_ascii c in
  if (65 <=? n)%nat && (n <=? 90)%nat then ascii_of_nat (n + 32) else c.

Fixpoint lower (s : string) : string :=
  match s with
  | EmptyString => EmptyString
  | String c s' => String (lower_ascii c) (lower s')
  end.

(** [a.clip(lo, hi)] *)
Definition np_clip (a : ndarray) (lo hi : R) : ndarray :=
  mk_ndarray (dt a) (shape a) (map (fun x => Rmin (Rmax x lo) hi) (data a)).

(** Lines 136-138: the pair of images handed to the filters. *)
Definition normalize_inputs (img1 img2 : ndarray) : result (ndarray * ndarray) :=
  if dtype_eqb (dt img1) uint8 then
    img1 <- scalar_op Rdiv (astype img1 float32) (PyFloat 255) ;;
    img2 <- scalar_op Rdiv (astype img2 float32) (PyFloat 255) ;;
    Ok (img1, img2)
  else Ok (img1, img2).

(** Lines 140-148: one image through the filter its mode selects. *)
Definition apply_filter (high_low : string) (img : ndarray) (sigma : R)
  (size : nat) : result ndarray :=
  if String.eqb high_low "low" then low_pass img sigma size
  else high_pass img sigma size.

Definition create_hybrid_image (img1 img2 : ndarray) (sigma1 : R) (size1 : nat)
  (high_low1 : string) (sigma2 : R) (size2 : nat) (high_low2 : string)
  (mixin_ratio : R) : result ndarray :=
  let high_low1 := lower high_low1 in
  let high_low2 := lower high_low2 in
  imgs <- normalize_inputs img1 img2 ;;
  img1 <- apply_filter high_low1 (fst imgs) sigma1 size1 ;;
  img2 <- apply_filter high_low2 (snd imgs) sigma2 size2 ;;
  img1 <- inplace_scalar_op Rmult img1 (PyFloat (2 * (1 - mixin_ratio))) ;;
  img2 <- inplace_scalar_op Rmult img2 (PyFloat (2 * mixin_ratio)) ;;
  hybrid_img <- binop Rplus img1 img2 ;;
  scaled <- scalar_op Rmult hybrid_img (PyInt 255) ;;
  Ok (astype (np_clip scaled 0 255) uint8).

(** ** The Laplacian pyramid (lines 159-234) *)

(** [l[i]] on a Python list, for [i >= 0]. *)
Definition list_get {A : Type} (l : list A) (i : nat) : result A :=
  match nth_error l i with
  | Some a => Ok a
  | None => Raise IndexError
  end.

(** [a[::2, ::2, :]] *)
Definition decimate (a : ndarray) : result ndarray :=
  match shape a with
  | h :: w :: c :: r =>
      Ok (build (dt a) (((h + 1) / 2) :: ((w + 1) / 2) :: c :: r)%nat
            (fun idx =>
               match idx with
               | i :: j :: k => get a ((2 * i) :: (2 * j) :: k)%nat
               | _ => 0
               end))
  | _ => Raise IndexError
  end.

(** Leading axes of length 1 are dropped from the source of an assignment
    while it has more axes than the target. *)
Fixpoint strip_ones (sh : list nat) (rank : nat) : list nat :=
  match sh with
  | 1%nat :: s => if (rank <? length sh)%nat then strip_ones s rank else sh
  | _ => sh
  end.

Definition reshape (a : ndarray) (sh : list nat) : ndarray :=
  mk_ndarray (dt a) sh (data a).

(** [up[io::2, jo::2, :] = src] on a rank-3 buffer [up]. *)
Definition assign_stride2 (up : ndarray) (io jo : nat) (src : ndarray)
  : result ndarray :=
  let tsh := [((nth 0 (shape up) 0 - io + 1) / 2)%nat;
              ((nth 1 (shape up) 0 - jo + 1) / 2)%nat;
              nth 2 (shape up) 0%nat] in
  let ssh := strip_ones (shape src) 3 in
  match broadcast_shapes tsh ssh with
  | None => Raise ValueError
  | Some sh =>
      if list_eq_dec Nat.eq_dec sh tsh then
        Ok (build (dt up) (shape up) (fun idx =>
              match idx with
              | [y; x; c] =>
                  if ((y mod 2 =? io) && (x mod 2 =? jo))%nat then
                    cast (dt up)
                      (get (reshape src ssh)
                         (bindex ssh [(y / 2)%nat; (x / 2)%nat; c]))
                  else get up idx
              | _ => get up idx
              end))
      else Raise ValueError
  end.

(** Nearest-neighbour upsampling (lines 187-190, again at 216-219 and
    228-231): a zero buffer of three channels filled at the four offsets. *)
Definition upsample (currImg : ndarray) (d : dtype) : result ndarray :=
  match shape currImg with
  | H :: W :: _ =>
      let upImg := zeros d [(2 * H)%nat; (2 * W)%nat; 3%nat] in
      upImg <- assign_stride2 upImg 0 0 currImg ;;
      upImg <- assign_stride2 upImg 0 1 currImg ;;
      upImg <- assign_stride2 upImg 1 0 currImg ;;
      assign_stride2 upImg 1 1 currImg
  | _ => Raise ValueError
  end.

Definition blur_1d : ndarray :=
  mk_ndarray float64 [1; 5]%nat [0.0625; 0.25; 0.375; 0.25; 0.0625].

(** [range(1, levels)] and [range(levels-1, 0, -1)] *)
Definition range_up (levels : nat) : list nat := seq 1 (levels - 1).
Definition range_down (levels : nat) : list nat := rev (seq 1 (levels - 1)).

(** [levels] is a natural number; [levels - 1] at 0 is 0, where Python's
    [gau_pyr[-1]] is the same single element. *)
Definition construct_laplacian (img : ndarray) (levels : nat)
  : result (list ndarray) :=
  match shape img with
  | h :: w :: _ =>
      let f := (2 ^ (levels - 1))%nat in
      if ((h mod f =? 0) && (w mod f =? 0))%nat then
        gau_pyr <- for_each (range_up levels) (fun currLev gau_pyr =>
                     prev <- list_get gau_pyr (currLev - 1) ;;
                     blurImg <- separable_filter prev blur_1d ;;
                     blurImg <- decimate blurImg ;;
                     Ok (gau_pyr ++ [blurImg]))
                     [img] ;;
        top <- list_get gau_pyr (levels - 1) ;;
        for_each (range_down levels) (fun currLev lap_pyr =>
          currImg <- list_get gau_pyr currLev ;;
          upImg <- upsample currImg (dt img) ;;
          prev <- list_get gau_pyr (currLev - 1) ;;
          d <- binop Rminus prev upImg ;;
          Ok (d :: lap_pyr))
          [top]
      else Raise AssertionError
  | _ => Raise ValueError
  end.

(** Lines 214-220 (and 226-232): upsample each level into the finer one. *)
Definition accumulate (copy_pyr : list ndarray) : result (list ndarray) :=
  for_each (range_down (length copy_pyr)) (fun currLev copy_pyr =>
    currImg <- list_get copy_pyr currLev ;;
    first <- list_get copy_pyr 0 ;;
    upImg <- upsample currImg (dt first) ;;
    prev <- list_get copy_pyr (currLev - 1) ;;
    prev <- inplace_binop Rplus prev upImg ;;
    Ok (list_set (currLev - 1) prev copy_pyr))
    copy_pyr.

(** Here the deep copy is the identity: buffers are values.  The store
    model below tracks which buffer is which. *)
Definition reconstruct_laplacian (pyr : list ndarray)
  (weights : option (list pyscalar)) : result ndarray :=
  let copy_pyr := pyr in
  let levels := length copy_pyr in
  last <- list_get copy_pyr (levels - 1) ;;
  match shape last with
  | finalH :: finalW :: _ =>
      copy_pyr <-
        match weights with
        | None => accumulate copy_pyr
        | Some weights =>
            copy_pyr <- for_each (range levels) (fun lev copy_pyr =>
                          a <- list_get copy_pyr lev ;;
                          w <- list_get weights lev ;;
                          a <- inplace_scalar_op Rmult a w ;;
                          Ok (list_set lev a copy_pyr))
                          copy_pyr ;;
            accumulate copy_pyr
        end ;;
      list_get copy_pyr 0
  | _ => Raise ValueError
  end.

(** ** The contract of the correlation engine, in the specification's words

    These two definitions follow the specification, not the code: the image
    behind a border of zeros, and the sum of products of the unflipped kernel
    with the window placed at an output pixel. *)

Definition sum_over (l : list nat) (f : nat -> R) : R :=
  fold_right (fun i acc => f i + acc) 0 l.

(** Sample [(y, x)] of [img] behind [pm] rows and [pn] columns of zeros on
    each side; [chan] is [[]] for one channel and [[c]] for channel [c]. *)
Definition padded_sample (img : ndarray) (pm pn y x : nat) (chan : list nat)
  : R :=
  if ((pm <=? y) && (y <? pm + nth 0 (shape img) 0) &&
      (pn <=? x) && (x <? pn + nth 1 (shape img) 0))%nat
  then get img ((y - pm) :: (x - pn) :: chan)%nat
  else 0.

Definition correlation_spec (img kernel : ndarray) (h w : nat)
  (chan : list nat) : R :=
  let m := nth 0 (shape kernel) 0%nat in
  let n := nth 1 (shape kernel) 0%nat in
  sum_over (range m) (fun i =>
    sum_over (range n) (fun j =>
      get kernel [i; j] *
      padded_sample img (m / 2) (n / 2) (h + i) (w + j) chan)).

(** The outer product of a single-row kernel with itself (a definition of
    the specification, not of the code): the exact products of the taps,
    whatever the element type. *)
Definition outer (kernel1d : ndarray) : ndarray :=
  let n := nth 1 (shape kernel1d) 0%nat in
  build (dt kernel1d) [n; n]
    (fun idx => get kernel1d [0%nat; nth 0 idx 0%nat] *
                get kernel1d [0%nat; nth 1 idx 0%nat]).

(** The sum of the unnormalised entries of the Gaussian kernel. *)
Definition gaussian_total (sigma : R) (height width : nat) : R :=
  sum_over (range height) (fun y =>
    sum_over (range width) (fun x =>
      gaussian_entry sigma (height / 2) (width / 2) y x)).

(** The images on which the loops of [cross_correlation_2d] do not run off
    the channel axis: every rank but 3, three channels or more, or no pixel. *)
Definition correlates (img : ndarray) : bool :=
  match shape img with
  | [H; W; C] => (3 <=? C)%nat || (H =? 0)%nat || (W =? 0)%nat
  | _ => true
  end.

(** An image of 8-bit samples, and an image scaled to the unit range (the
    words of the specification for step 1 of the hybrid composer). *)
Definition uint8_valid (a : ndarray) : Prop :=
  dt a = uint8 /\
  Forall (fun x => exists z, x = IZR z /\ (0 <= z <= 255)%Z) (data a).

Definition normalized (a : ndarray) : ndarray :=
  mk_ndarray float32 (shape a) (map (fun x => x / 255) (data a)).

(** The samples of a buffer fit its element type: an 8-bit buffer holds
    integers of 0..255 (a float buffer holds any real). *)
Definition samples_valid (a : ndarray) : Prop :=
  dt a = uint8 ->
  Forall (fun x => exists z, x = IZR z /\ (0 <= z <= 255)%Z) (data a).

(** ** The pyramid over a store of buffers

    To tell one buffer from another, the two pyramid functions are also
    modelled over a store: a location is an index into the list of live
    buffers, a Python list of arrays is a list of locations, an in-place
    operation overwrites the buffer at its location, and every array a NumPy
    call returns is allocated at a new location.  A strided view
    ([blurImg[::2, ::2, :]]) of a buffer allocated by the function itself is
    given a location of its own: the functions take no view of a caller's
    buffer. *)

Definition loc : Type := nat.
Definition store : Type := list ndarray.
Definition M (A : Type) : Type := store -> result (A * store).

Definition ret {A : Type} (a : A) : M A := fun s => Ok (a, s).

Definition bindM {A B : Type} (m : M A) (k : A -> M B) : M B :=
  fun s => match m s with
           | Ok (a, s') => k a s'
           | Raise e => Raise e
           end.

Notation "x <~ m ;; k" := (bindM m (fun x => k))
  (at level 61, m at next level, right associativity).

Definition lift {A : Type} (r : result A) : M A :=
  fun s => match r with
           | Ok a => Ok (a, s)
           | Raise e => Raise e
           end.

Definition alloc (a : ndarray) : M loc :=
  fun s => Ok (length s, s ++ [a]).

(** Locations come from [alloc] or from the caller and are always live; the
    default is never read. *)
Definition load (l : loc) : M ndarray :=
  fun s => Ok (nth l s (zeros float64 []), s).

Definition write (l : loc) (a : ndarray) : M unit :=
  fun s => Ok (tt, list_set l a s).

Definition for_each_M {X : Type} (l : list nat) (body : nat -> X -> M X)
  (x : X) : M X :=
  fun s => for_each l (fun i xs => body i (fst xs) (snd xs)) (x, s).

Definition construct_laplacian_st (img : loc) (levels : nat) : M (list loc) :=
  a <~ load img ;;
  match shape a with
  | h :: w :: _ =>
      let f := (2 ^ (levels - 1))%nat in
      if ((h mod f =? 0) && (w mod f =? 0))%nat then
        gau_pyr <~ for_each_M (range_up levels) (fun currLev gau_pyr =>
                     p <~ lift (list_get gau_pyr (currLev - 1)) ;;
                     prev <~ load p ;;
                     blurImg <~ lift (separable_filter prev blur_1d) ;;
                     _ <~ alloc blurImg ;;
                     blurImg <~ lift (decimate blurImg) ;;
                     b <~ alloc blurImg ;;
                     ret (gau_pyr ++ [b]))
                     [img] ;;
        top <~ lift (list_get gau_pyr (levels - 1)) ;;
        for_each_M (range_down levels) (fun currLev lap_pyr =>
          c <~ lift (list_get gau_pyr currLev) ;;
          currImg <~ load c ;;
          upImg <~ lift (upsample currImg (dt a)) ;;
          _ <~ alloc upImg ;;
          p <~ lift (list_get gau_pyr (currLev - 1)) ;;
          prev <~ load p ;;
          d <~ lift (binop Rminus prev upImg) ;;
          dl <~ alloc d ;;
          ret (dl :: lap_pyr))
          [top]
      else lift (Raise AssertionError)
  | _ => lift (Raise ValueError)
  end.

Fixpoint memo_find (l : loc) (memo : list (loc * loc)) : option loc :=
  match memo with
  | [] => None
  | (k, v) :: rest => if (k =? l)%nat then Some v else memo_find l rest
  end.

(** [copy.deepcopy(pyr)]: one new buffer per distinct buffer of the list; a
    buffer that occurs twice is copied once (the memo of [deepcopy]). *)
Fixpoint deepcopy (pyr : list loc) (memo : list (loc * loc)) : M (list loc) :=
  match pyr with
  | [] => ret []
  | l :: rest =>
      match memo_find l memo with
      | Some l' =>
          rest' <~ deepcopy rest memo ;;
          ret (l' :: rest')
      | None =>
          a <~ load l ;;
          l' <~ alloc a ;;
          rest' <~ deepcopy rest ((l, l') :: memo) ;;
          ret (l' :: rest')
      end
  end.

Definition accumulate_st (copy_pyr : list loc) : M (list loc) :=
  for_each_M (range_down (length copy_pyr)) (fun currLev copy_pyr =>
    c <~ lift (list_get copy_pyr currLev) ;;
    currImg <~ load c ;;
    f <~ lift (list_get copy_pyr 0) ;;
    first <~ load f ;;
    upImg <~ lift (upsample currImg (dt first)) ;;
    _ <~ alloc upImg ;;
    p <~ lift (list_get copy_pyr (currLev - 1)) ;;
    prev <~ load p ;;
    prev <~ lift (inplace_binop Rplus prev upImg) ;;
    _ <~ write p prev ;;
    ret copy_pyr)
    copy_pyr.

Definition reconstruct_laplacian_st (pyr : list loc)
  (weights : option (list pyscalar)) : M loc :=
  copy_pyr <~ deepcopy pyr [] ;;
  let levels := length copy_pyr in
  l <~ lift (list_get copy_pyr (levels - 1)) ;;
  last <~ load l ;;
  match shape last with
  | finalH :: finalW :: _ =>
      copy_pyr <~
        match weights with
        | None => accumulate_st copy_pyr
        | Some weights =>
            copy_pyr <~ for_each_M (range levels) (fun lev copy_pyr =>
                          l <~ lift (list_get copy_pyr lev) ;;
                          a <~ load l ;;
                          w <~ lift (list_get weights lev) ;;
                          a <~ lift (inplace_scalar_op Rmult a w) ;;
                          _ <~ write l a ;;
                          ret copy_pyr)
                          copy_pyr ;;
            accumulate_st copy_pyr
        end ;;
      lift (list_get copy_pyr 0)
  | _ => lift (Raise ValueError)
  end.

(** The first [n] buffers of the store are as they were, and none was
    dropped. *)
Definition keeps (n : nat) (s s' : store) : Prop :=
  firstn n s' = firstn n s /\ (length s <= length s')%nat.

(** ** The shape of a pyramid on a three-channel image

    For an image of [2^(L-1) * H0] rows and [2^(L-1) * W0] columns, level
    [k] of the Gaussian pyramid has the sides halved [k] times. *)

Definition level_shape (L H0 W0 k : nat) : list nat :=
  [2 ^ (L - 1 - k) * H0; 2 ^ (L - 1 - k) * W0; 3]%nat.

(** The first [i] levels of the Gaussian pyramid of [img]. *)
Definition gauss_levels (img : ndarray) (L H0 W0 i : nat) (G : list ndarray)
  : Prop :=
  length G = i /\
  nth_error G 0 = Some img /\
  forall k g, nth_error G k = Some g ->
    wf g /\ samples_valid g /\ shape g = level_shape L H0 W0 k /\
    ((1 <= k)%nat -> dt g = float64).

(** Level [k] of [lap] is level [k] of [G] minus the upsampled level [k+1],
    for every [k] below [j - 1]. *)
Definition lap_levels (d : dtype) (G lap : list ndarray) (j : nat) : Prop :=
  forall k, (k + 1 < j)%nat ->
    exists g g' u l,
      nth_error G k = Some g /\ nth_error G (Datatypes.S k) = Some g' /\
      nth_error lap k = Some l /\
      upsample g' d = Ok u /\ binop Rminus g u = Ok l.

(** The buffers a list of locations stands for. *)
Definition read (s : store) (l : loc) : ndarray := nth l s (zeros float64 []).
Definition contents (s : store) (ls : list loc) : list ndarray :=
  map (read s) ls.

(** A run over the store agrees with a run over values: it raises the same
    exception, or returns a state related to the returned value. *)
Definition agrees {X Y : Type} (R : X -> Y -> store -> Prop)
  (r : result X) (m : result (Y * store)) : Prop :=
  match r with
  | Ok x => exists y s', m = Ok (y, s') /\ R x y s'
  | Raise e => m = Raise e
  end.

(** ** Auxiliary notions for the proofs *)

(** The two exceptions the correlation can raise. *)
Definition index_or_value (e : error) : Prop :=
  e = IndexError \/ e = ValueError.

(** Equality of multi-indices. *)
Fixpoint index_eqb (a b : list nat) : bool :=
  match a, b with
  | [], [] => true
  | x :: a', y :: b' => (x =? y)%nat && index_eqb a' b'
  | _, _ => false
  end.

(** * Properties *)

(** ** Index arithmetic *)

Lemma in_range_length sh idx : in_range sh idx = true -> length idx = length sh.
Proof.
  revert idx; induction sh as [|d s IH]; intros [|i js] H; simpl in *;
    try discriminate; auto.
  apply andb_true_iff in H as [_ H]. f_equal; auto.
Qed.

Lemma ravel_lt sh idx : in_range sh idx = true -> (ravel sh idx < numel sh)%nat.
Proof.
  revert idx; induction sh as [|d s IH]; intros [|i js] H; simpl in *;
    try discriminate; try lia.
  apply andb_true_iff in H as [Hi H]. apply Nat.ltb_lt in Hi.
  specialize (IH _ H). nia.
Qed.

Lemma unravel_ravel sh idx :
  in_range sh idx = true -> unravel sh (ravel sh idx) = idx.
Proof.
  revert idx; induction sh as [|d s IH]; intros [|i js] H; simpl in *;
    try discriminate; auto.
  apply andb_true_iff in H as [Hi H].
  pose proof (ravel_lt _ _ H) as Hlt.
  assert (Hs : numel s <> 0%nat) by lia.
  f_equal.
  - rewrite Nat.div_add_l by assumption.
    rewrite Nat.div_small by assumption. lia.
  - rewrite Nat.add_comm, Nat.Div0.mod_add, Nat.mod_small by assumption.
    auto.
Qed.

Lemma in_range_unravel sh k :
  (k < numel sh)%nat -> in_range sh (unravel sh k) = true.
Proof.
  revert k; induction sh as [|d s IH]; intros k H; simpl in *; auto.
  assert (Hs : numel s <> 0%nat) by nia.
  apply andb_true_iff; split.
  - apply Nat.ltb_lt. apply Nat.Div0.div_lt_upper_bound. lia.
  - apply IH. apply Nat.mod_upper_bound; assumption.
Qed.

Lemma ravel_unravel sh k : (k < numel sh)%nat -> ravel sh (unravel sh k) = k.
Proof.
  revert k; induction sh as [|d s IH]; intros k H; simpl in *; try lia.
  assert (Hs : numel s <> 0%nat) by nia.
  rewrite IH by (apply Nat.mod_upper_bound; assumption).
  pose proof (Nat.div_mod_eq k (numel s)). lia.
Qed.

Lemma wf_build d sh f : wf (build d sh f).
Proof. unfold wf, build; simpl. now rewrite length_map, length_seq. Qed.

Lemma get_build d sh f idx :
  in_range sh idx = true -> get (build d sh f) idx = f idx.
Proof.
  intros H. unfold get, build; simpl.
  pose proof (ravel_lt _ _ H) as Hlt.
  rewrite nth_indep with (d' := f (unravel sh 0))
    by (now rewrite length_map, length_seq).
  rewrite (map_nth (fun k => f (unravel sh k))).
  rewrite seq_nth by assumption. simpl.
  now rewrite unravel_ravel.
Qed.

(** Two well-formed buffers of one shape with equal samples are equal. *)
Lemma ndarray_ext a b :
  wf a -> wf b -> dt a = dt b -> shape a = shape b ->
  (forall idx, in_range (shape a) idx = true -> get a idx = get b idx) ->
  a = b.
Proof.
  destruct a as [da sa xa], b as [db sb xb]; unfold wf, get; simpl.
  intros Ha Hb -> <- H. f_equal.
  apply nth_ext with (d := 0) (d' := 0); [congruence|].
  intros k Hk. rewrite Ha in Hk.
  specialize (H (unravel sa k) (in_range_unravel _ _ Hk)).
  now rewrite ravel_unravel in H.
Qed.

(** ** Which exceptions an operation can raise *)

Lemma bind_raise {A B} (m : result A) (k : A -> result B) e :
  bind m k = Raise e ->
  m = Raise e \/ exists a, m = Ok a /\ k a = Raise e.
Proof.
  destruct m as [a|e']; simpl; intros H.
  - right. exists a. split; [reflexivity | assumption].
  - left. congruence.
Qed.

Lemma bind_ok {A B} (m : result A) (k : A -> result B) b :
  bind m k = Ok b -> exists a, m = Ok a /\ k a = Ok b.
Proof.
  destruct m as [a|e']; simpl; intros H; [|discriminate].
  exists a. split; [reflexivity | assumption].
Qed.

Lemma for_each_raise {S} (P : error -> Prop) l (body : nat -> S -> result S) :
  (forall i s e, body i s = Raise e -> P e) ->
  forall s e, for_each l body s = Raise e -> P e.
Proof.
  intros Hb. induction l as [|i l IH]; simpl; intros s e H; [discriminate|].
  apply bind_raise in H as [H | (s' & _ & H)]; eauto.
Qed.

Lemma set_item_raise a idx v e : set_item a idx v = Raise e -> e = IndexError.
Proof. unfold set_item. destruct in_range; congruence. Qed.

Lemma window3_raise a h m w n c e :
  window3 a h m w n c = Raise e -> e = IndexError.
Proof. unfold window3. destruct Nat.ltb; congruence. Qed.

Lemma binop_raise f a b e : binop f a b = Raise e -> e = ValueError.
Proof. unfold binop. destruct broadcast_shapes; congruence. Qed.

Lemma list_get_raise {A} (l : list A) i e :
  list_get l i = Raise e -> e = IndexError.
Proof. unfold list_get. destruct nth_error; congruence. Qed.

Lemma decimate_raise a e : decimate a = Raise e -> e = IndexError.
Proof.
  unfold decimate. destruct (shape a) as [|h [|w [|c r]]]; congruence.
Qed.

Lemma assign_stride2_raise up io jo src e :
  assign_stride2 up io jo src = Raise e -> e = ValueError.
Proof.
  unfold assign_stride2. destruct broadcast_shapes; [|congruence].
  destruct list_eq_dec; congruence.
Qed.

Lemma upsample_raise a d e : upsample a d = Raise e -> e = ValueError.
Proof.
  unfold upsample. destruct (shape a) as [|H [|W r]]; try congruence.
  intros H0.
  repeat (apply bind_raise in H0 as [H0 | (? & _ & H0)];
          [now apply assign_stride2_raise in H0|]).
  now apply assign_stride2_raise in H0.
Qed.

Lemma cross_correlation_2d_raise img kernel e :
  cross_correlation_2d img kernel = Raise e -> index_or_value e.
Proof.
  unfold cross_correlation_2d.
  destruct (shape img) as [|h [|w [|c [|c' r]]]]; try discriminate;
    destruct (shape kernel) as [|m [|n [|n' r']]];
    try (intros H; injection H as <-; now right).
  - apply (for_each_raise index_or_value). intros i.
    apply (for_each_raise index_or_value). intros j s' e1 H.
    apply bind_raise in H as [H | (? & _ & H)];
      [apply binop_raise in H; now right
      | apply set_item_raise in H; now left].
  - apply (for_each_raise index_or_value). intros i.
    apply (for_each_raise index_or_value). intros j s' e1 H.
    repeat (apply bind_raise in H as [H | (? & _ & H)];
            [first [apply binop_raise in H; now right
                   | apply set_item_raise in H; now left
                   | apply window3_raise in H; now left]|]).
    apply set_item_raise in H; now left.
Qed.

Lemma separable_filter_raise img k e :
  separable_filter img k = Raise e -> index_or_value e.
Proof.
  unfold separable_filter. intros H.
  apply bind_raise in H as [H | (? & _ & H)];
    eapply cross_correlation_2d_raise; eauto.
Qed.

Lemma construct_laplacian_raise img levels e :
  construct_laplacian img levels = Raise e ->
  e = AssertionError ->
  match shape img with
  | h :: w :: _ =>
      ((h mod 2 ^ (levels - 1) =? 0) && (w mod 2 ^ (levels - 1) =? 0))%nat
      = false
  | _ => False
  end.
Proof.
  unfold construct_laplacian.
  destruct (shape img) as [|h [|w r]]; try congruence.
  destruct (_ && _)%bool; [|reflexivity].
  intros H He. exfalso. subst e.
  apply bind_raise in H as [H | (gau & _ & H)].
  - eapply (for_each_raise (fun e => e <> AssertionError)) in H;
      [now apply H|]. clear H.
    intros i s e H.
    apply bind_raise in H as [H | (? & _ & H)];
      [apply list_get_raise in H; congruence|].
    apply bind_raise in H as [H | (? & _ & H)];
      [apply separable_filter_raise in H; destruct H; congruence|].
    apply bind_raise in H as [H | (? & _ & H)];
      [apply decimate_raise in H; congruence | discriminate].
  - apply bind_raise in H as [H | (top & _ & H)];
      [apply list_get_raise in H; congruence|].
    eapply (for_each_raise (fun e => e <> AssertionError)) in H;
      [now apply H|]. clear H.
    intros i s e H.
    apply bind_raise in H as [H | (? & _ & H)];
      [apply list_get_raise in H; congruence|].
    apply bind_raise in H as [H | (? & _ & H)];
      [apply upsample_raise in H; congruence|].
    apply bind_raise in H as [H | (? & _ & H)];
      [apply list_get_raise in H; congruence|].
    apply bind_raise in H as [H | (? & _ & H)];
      [apply binop_raise in H; congruence | discriminate].
Qed.

(** ** The divisibility precondition *)

(** C6: for an image of height [h] and width [w] and a positive number of
    levels, [construct_laplacian] raises the assertion failure exactly when
    [h] or [w] is not divisible by [2^(levels-1)]; the check is the first
    thing the function does after reading the shape, and when both are
    divisible no assertion failure is raised by anything that follows. *)
Theorem construct_laplacian_assertion img levels h w r :
  shape img = h :: w :: r ->
  (1 <= levels)%nat ->
  construct_laplacian img levels = Raise AssertionError <->
  (h mod 2 ^ (levels - 1) <> 0 \/ w mod 2 ^ (levels - 1) <> 0)%nat.
Proof.
  intros Hs Hl. split.
  - intros H. pose proof (construct_laplacian_raise _ _ _ H eq_refl) as H0.
    rewrite Hs in H0. apply andb_false_iff in H0.
    destruct H0 as [H0 | H0]; apply Nat.eqb_neq in H0; auto.
  - intros H. unfold construct_laplacian. rewrite Hs.
    replace (_ && _)%bool with false; [reflexivity|].
    symmetry. apply andb_false_iff.
    destruct H as [H | H]; apply Nat.eqb_neq in H; auto.
Qed.

Lemma construct_laplacian_assertion_witness :
  construct_laplacian (zeros float64 [3; 2; 3]%nat) 2 = Raise AssertionError <->
  (3 mod 2 ^ (2 - 1) <> 0 \/ 2 mod 2 ^ (2 - 1) <> 0)%nat.
Proof.
  apply (construct_laplacian_assertion _ 2 3 2 [3]%nat); [reflexivity | lia].
Defined.

(** ** Inputs of other ranks *)

Lemma map_const_seq {A} (x : A) n s : map (fun _ => x) (seq s n) = repeat x n.
Proof. revert s; induction n; intros s; simpl; f_equal; auto. Qed.

(** C10: for an input whose rank is neither 2 nor 3, [cross_correlation_2d]
    raises nothing and returns a float64 buffer of the input's shape whose
    samples are all zero, whatever the kernel. *)
Theorem cross_correlation_2d_other_rank img kernel :
  ndim img <> 2%nat -> ndim img <> 3%nat ->
  cross_correlation_2d img kernel =
  Ok (mk_ndarray float64 (shape img) (repeat 0 (numel (shape img)))).
Proof.
  unfold ndim, cross_correlation_2d, zeros_like, zeros, build.
  intros H2 H3. rewrite map_const_seq.
  destruct (shape img) as [|h [|w [|c [|c' r]]]]; simpl in *;
    congruence.
Qed.

Lemma cross_correlation_2d_other_rank_witness :
  cross_correlation_2d (mk_ndarray uint8 [2]%nat [7; 9])
                       (mk_ndarray float64 [1; 1]%nat [1]) =
  Ok (mk_ndarray float64 [2]%nat [0; 0]).
Proof.
  apply (cross_correlation_2d_other_rank
           (mk_ndarray uint8 [2]%nat [7; 9])); unfold ndim; simpl; lia.
Defined.

(** ** Broadcasting of equal shapes *)

Lemma broadcast_rev_same r : broadcast_rev r r = Some r.
Proof.
  induction r as [|a r IH]; simpl; [reflexivity|].
  now rewrite Nat.eqb_refl, IH.
Qed.

Lemma broadcast_shapes_same s : broadcast_shapes s s = Some s.
Proof.
  unfold broadcast_shapes. rewrite broadcast_rev_same. simpl.
  now rewrite rev_involutive.
Qed.

Lemma clamp_index_same sh idx :
  in_range sh idx = true -> clamp_index sh idx = idx.
Proof.
  revert idx; induction sh as [|d s IH]; intros [|i js] H; simpl in *;
    try discriminate; auto.
  apply andb_true_iff in H as [Hi H]. apply Nat.ltb_lt in Hi.
  rewrite IH by assumption.
  destruct (Nat.eqb_spec d 1); [f_equal; lia | reflexivity].
Qed.

Lemma bindex_same sh idx : in_range sh idx = true -> bindex sh idx = idx.
Proof.
  intros H. unfold bindex.
  rewrite (in_range_length _ _ H), Nat.sub_diag. simpl.
  now apply clamp_index_same.
Qed.

Lemma binop_same_shape f a b :
  shape a = shape b ->
  binop f a b =
  Ok (build (promote (dt a) (dt b)) (shape a) (fun idx =>
        cast (promote (dt a) (dt b))
          (f (get a (bindex (shape a) idx)) (get b (bindex (shape b) idx))))).
Proof.
  intros H. unfold binop. now rewrite <- H, broadcast_shapes_same.
Qed.

(** ** Item assignment *)

Lemma length_list_set {A} k (v : A) l : length (list_set k v l) = length l.
Proof.
  revert k; induction l as [|x l IH]; intros [|k]; simpl; auto.
Qed.

Lemma nth_list_set {A} k k' (v d : A) l :
  (k < length l)%nat ->
  nth k' (list_set k v l) d = if (k =? k')%nat then v else nth k' l d.
Proof.
  revert k k'; induction l as [|x l IH]; intros [|k] [|k'] H; simpl in *;
    try lia; auto.
  apply IH. lia.
Qed.

Lemma ravel_inj sh idx idx' :
  in_range sh idx = true -> in_range sh idx' = true ->
  ravel sh idx = ravel sh idx' -> idx = idx'.
Proof.
  intros H H' E.
  rewrite <- (unravel_ravel _ _ H), <- (unravel_ravel _ _ H'). now f_equal.
Qed.

Lemma index_eqb_spec a b : reflect (a = b) (index_eqb a b).
Proof.
  revert b; induction a as [|x a IH]; intros [|y b]; simpl;
    try (constructor; congruence).
  destruct (Nat.eqb_spec x y); simpl; [|constructor; congruence].
  destruct (IH b); constructor; congruence.
Qed.

Lemma set_item_ok a idx v :
  in_range (shape a) idx = true ->
  set_item a idx v =
  Ok (mk_ndarray (dt a) (shape a)
        (list_set (ravel (shape a) idx) (cast (dt a) v) (data a))).
Proof. intros H. unfold set_item. now rewrite H. Qed.

Lemma get_set_item a idx v a' idx' :
  wf a -> set_item a idx v = Ok a' -> in_range (shape a) idx' = true ->
  get a' idx' = if index_eqb idx idx' then cast (dt a) v else get a idx'.
Proof.
  unfold set_item, wf. intros Hw H H'.
  destruct (in_range (shape a) idx) eqn:Hi; [|discriminate].
  injection H as <-. unfold get; simpl.
  rewrite nth_list_set by (rewrite Hw; now apply ravel_lt).
  destruct (index_eqb_spec idx idx') as [->|Hne].
  - now rewrite Nat.eqb_refl.
  - destruct (Nat.eqb_spec (ravel (shape a) idx) (ravel (shape a) idx'));
      [|reflexivity].
    exfalso. apply Hne. eapply ravel_inj; eauto.
Qed.

Lemma set_item_frame a idx v a' :
  wf a -> set_item a idx v = Ok a' ->
  wf a' /\ dt a' = dt a /\ shape a' = shape a.
Proof.
  unfold set_item, wf. intros Hw H.
  destruct (in_range (shape a) idx); [|discriminate].
  injection H as <-. simpl. now rewrite length_list_set.
Qed.

(** ** Loops *)

Lemma for_each_seq_inv {S} (I : nat -> S -> Prop)
  (body : nat -> S -> result S) n :
  forall a s0,
    I a s0 ->
    (forall i s, (a <= i < a + n)%nat -> I i s ->
                 exists s', body i s = Ok s' /\ I (Datatypes.S i) s') ->
    exists s', for_each (seq a n) body s0 = Ok s' /\ I (a + n)%nat s'.
Proof.
  induction n as [|n IH]; intros a s0 H0 Hb; simpl.
  - exists s0. rewrite Nat.add_0_r. auto.
  - destruct (Hb a s0) as (s1 & E1 & H1); [lia | assumption |].
    rewrite E1; simpl.
    destruct (IH (Datatypes.S a) s1 H1) as (s' & E & H').
    + intros i s Hi. apply Hb. lia.
    + exists s'. split; [assumption|].
      now replace (a + Datatypes.S n)%nat with (Datatypes.S a + n)%nat by lia.
Qed.

Lemma for_each_range_inv {S} (I : nat -> S -> Prop)
  (body : nat -> S -> result S) n s0 :
  I 0%nat s0 ->
  (forall i s, (i < n)%nat -> I i s ->
               exists s', body i s = Ok s' /\ I (Datatypes.S i) s') ->
  exists s', for_each (range n) body s0 = Ok s' /\ I n s'.
Proof.
  intros H0 Hb.
  destruct (for_each_seq_inv I body n 0 s0 H0) as (s' & E & H'); eauto.
  intros i s Hi. apply Hb. lia.
Qed.

Lemma for_each_preserve {S} (P : S -> Prop) l (body : nat -> S -> result S) :
  (forall i s s', P s -> body i s = Ok s' -> P s') ->
  forall s s', P s -> for_each l body s = Ok s' -> P s'.
Proof.
  intros Hb. induction l as [|i l IH]; simpl; intros s s' Hs H.
  - now injection H as <-.
  - apply bind_ok in H as (s1 & E1 & H). eauto.
Qed.

(** ** Sums over buffers *)

Lemma sum_over_ext l f g :
  (forall i, In i l -> f i = g i) -> sum_over l f = sum_over l g.
Proof.
  induction l as [|i l IH]; simpl; intros H; [reflexivity|].
  rewrite H by now left. f_equal. apply IH. intros; apply H; now right.
Qed.

Lemma sum_map_app (g : nat -> R) l1 l2 :
  fold_right Rplus 0 (map g (l1 ++ l2)) =
  fold_right Rplus 0 (map g l1) + fold_right Rplus 0 (map g l2).
Proof.
  induction l1 as [|x l1 IH]; simpl; [lra|]. rewrite IH. lra.
Qed.

Lemma seq_shift_map a n : seq a n = map (fun k => (a + k)%nat) (seq 0 n).
Proof.
  revert a; induction n as [|n IH]; intros a; simpl; [reflexivity|].
  rewrite Nat.add_0_r. f_equal.
  rewrite (IH (Datatypes.S a)), (IH 1%nat), map_map.
  apply map_ext. intros; lia.
Qed.

Lemma sum_chunks (f : list nat -> R) s dim :
  forall a,
    fold_right Rplus 0
      (map (fun k => f (unravel (dim :: s) k))
           (seq (a * numel s) (dim * numel s))) =
    sum_over (seq a dim) (fun i =>
      fold_right Rplus 0
        (map (fun k => f (i :: unravel s k)) (seq 0 (numel s)))).
Proof.
  induction dim as [|dim IH]; intros a; [reflexivity|].
  replace (Datatypes.S dim * numel s)%nat
    with (numel s + dim * numel s)%nat by lia.
  rewrite seq_app, sum_map_app.
  replace (a * numel s + numel s)%nat with (Datatypes.S a * numel s)%nat by lia.
  change (unravel (Datatypes.S dim :: s)) with (unravel (dim :: s)).
  rewrite IH. simpl sum_over. f_equal.
  rewrite (seq_shift_map (a * numel s)), map_map. f_equal.
  apply map_ext_in. intros k Hk. apply in_seq in Hk. simpl.
  assert (Hs : numel s <> 0%nat) by lia.
  rewrite Nat.div_add_l, Nat.div_small, Nat.add_0_r by lia.
  now rewrite Nat.add_comm, Nat.Div0.mod_add, Nat.mod_small by lia.
Qed.

Lemma np_sum_build_cons d dim s f :
  np_sum (build d (dim :: s) f) =
  sum_over (range dim) (fun i => np_sum (build d s (fun idx => f (i :: idx)))).
Proof.
  unfold np_sum, build, range; simpl data.
  change (numel (dim :: s)) with (dim * numel s)%nat.
  apply (sum_chunks f s dim 0).
Qed.

Lemma np_sum_build_nil d f : np_sum (build d [] f) = f [].
Proof. unfold np_sum, build; simpl. lra. Qed.

Lemma np_sum_build2 d m n f :
  np_sum (build d [m; n] f) =
  sum_over (range m) (fun i => sum_over (range n) (fun j => f [i; j])).
Proof.
  rewrite np_sum_build_cons. apply sum_over_ext. intros i _.
  rewrite np_sum_build_cons. apply sum_over_ext. intros j _.
  apply np_sum_build_nil.
Qed.

(** ** The padded image and its windows *)

Lemma get_np_pad2 img H W pm pn y x :
  shape img = [H; W] ->
  (y < pm + H + pm)%nat -> (x < pn + W + pn)%nat ->
  get (np_pad img [(pm, pm); (pn, pn)]) [y; x] = padded_sample img pm pn y x [].
Proof.
  intros Hs Hy Hx. unfold np_pad, padded_sample. rewrite Hs.
  rewrite get_build.
  2:{ simpl. apply andb_true_iff; split; [now apply Nat.ltb_lt|].
      apply andb_true_iff; split; [now apply Nat.ltb_lt | reflexivity]. }
  simpl.
  destruct (Nat.leb_spec pm y), (Nat.leb_spec pn x),
    (Nat.ltb_spec (y - pm) H), (Nat.ltb_spec (x - pn) W),
    (Nat.ltb_spec y (pm + H)), (Nat.ltb_spec x (pn + W));
    simpl; try reflexivity; lia.
Qed.

Lemma get_np_pad3 img H W C pm pn y x c :
  shape img = [H; W; C] ->
  (y < pm + H + pm)%nat -> (x < pn + W + pn)%nat -> (c < C)%nat ->
  get (np_pad img [(pm, pm); (pn, pn); (0, 0)%nat]) [y; x; c] =
  padded_sample img pm pn y x [c].
Proof.
  intros Hs Hy Hx Hc. unfold np_pad, padded_sample. rewrite Hs.
  rewrite get_build.
  2:{ simpl. rewrite Nat.add_0_r.
      repeat (apply andb_true_iff; split; [now apply Nat.ltb_lt|]).
      reflexivity. }
  simpl. rewrite Nat.sub_0_r.
  destruct (Nat.leb_spec pm y), (Nat.leb_spec pn x),
    (Nat.ltb_spec (y - pm) H), (Nat.ltb_spec (x - pn) W),
    (Nat.ltb_spec y (pm + H)), (Nat.ltb_spec x (pn + W)),
    (Nat.ltb_spec c C);
    simpl; try reflexivity; lia.
Qed.

Lemma slice_len_full start len dim :
  (start + len <= dim)%nat -> slice_len start (start + len) dim = len.
Proof. unfold slice_len. lia. Qed.

Lemma half_bound m : (m <= m / 2 + 1 + m / 2)%nat.
Proof. pose proof (Nat.div_mod_eq m 2). pose proof (Nat.mod_upper_bound m 2). lia. Qed.

Lemma in_range2 m n i j :
  (i < m)%nat -> (j < n)%nat -> in_range [m; n] [i; j] = true.
Proof.
  intros Hi Hj. simpl.
  apply Nat.ltb_lt in Hi, Hj. now rewrite Hi, Hj.
Qed.

Lemma in_range3 m n k i j c :
  (i < m)%nat -> (j < n)%nat -> (c < k)%nat ->
  in_range [m; n; k] [i; j; c] = true.
Proof.
  intros Hi Hj Hc. simpl.
  apply Nat.ltb_lt in Hi, Hj, Hc. now rewrite Hi, Hj, Hc.
Qed.

Lemma cast_float d x : d <> uint8 -> cast d x = x.
Proof. destruct d; simpl; congruence. Qed.

Lemma window2_full a Hp Wp h m w n :
  shape a = [Hp; Wp] -> (h + m <= Hp)%nat -> (w + n <= Wp)%nat ->
  window2 a h m w n =
  build (dt a) [m; n] (fun idx => get a (add_index idx [h; w])).
Proof.
  intros Hs Hh Hw. unfold window2. rewrite Hs. cbn [nth].
  now rewrite !slice_len_full by assumption.
Qed.

Lemma window3_full a Hp Wp C h m w n c :
  shape a = [Hp; Wp; C] -> (h + m <= Hp)%nat -> (w + n <= Wp)%nat ->
  (c < C)%nat ->
  window3 a h m w n c =
  Ok (build (dt a) [m; n] (fun idx => get a (add_index idx [h; w] ++ [c]))).
Proof.
  intros Hs Hh Hw Hc. unfold window3. rewrite Hs. cbn [nth].
  apply Nat.ltb_lt in Hc. rewrite Hc.
  now rewrite !slice_len_full by assumption.
Qed.

Lemma shape_np_pad2 img H W pm pn :
  shape img = [H; W] ->
  shape (np_pad img [(pm, pm); (pn, pn)]) = [pm + H + pm; pn + W + pn]%nat.
Proof. intros Hs. unfold np_pad, build, pad_shape. now rewrite Hs. Qed.

Lemma shape_np_pad3 img H W C pm pn :
  shape img = [H; W; C] ->
  shape (np_pad img [(pm, pm); (pn, pn); (0, 0)%nat]) =
  [pm + H + pm; pn + W + pn; C]%nat.
Proof.
  intros Hs. unfold np_pad, build, pad_shape. rewrite Hs.
  cbn [shape combine map fst snd]. now rewrite Nat.add_0_r.
Qed.

(** The value stored at one output pixel of a rank-2 image. *)
Lemma correlate_pixel2 img kernel H W m n h w :
  shape img = [H; W] -> shape kernel = [m; n] ->
  promote (dt kernel) (dt img) <> uint8 ->
  (h < H)%nat -> (w < W)%nat ->
  exists p,
    binop Rmult kernel
      (window2 (np_pad img [(m / 2, m / 2); (n / 2, n / 2)]%nat) h m w n)
    = Ok p /\
    np_sum p = correlation_spec img kernel h w [].
Proof.
  intros Hs Hk Hd Hh Hw.
  pose proof (half_bound m) as Hm. pose proof (half_bound n) as Hn.
  rewrite (window2_full _ _ _ _ _ _ _ (shape_np_pad2 _ _ _ _ _ Hs))
    by lia.
  rewrite binop_same_shape by (rewrite Hk; reflexivity).
  eexists; split; [reflexivity|].
  rewrite Hk, np_sum_build2. unfold correlation_spec. rewrite Hk. cbn [nth].
  apply sum_over_ext. intros i Hi. apply sum_over_ext. intros j Hj.
  apply in_seq in Hi, Hj. cbn [shape build dt].
  rewrite bindex_same by (apply in_range2; lia).
  rewrite cast_float by assumption. f_equal.
  rewrite get_build by (apply in_range2; lia).
  cbn [add_index].
  apply (get_np_pad2 img H W); [assumption | lia | lia].
Qed.

(** The value stored at one channel of an output pixel of a rank-3 image. *)
Lemma correlate_pixel3 img kernel H W C m n h w c :
  shape img = [H; W; C] -> shape kernel = [m; n] ->
  promote (dt kernel) (dt img) <> uint8 ->
  (h < H)%nat -> (w < W)%nat -> (c < C)%nat ->
  exists x p,
    window3 (np_pad img [(m / 2, m / 2); (n / 2, n / 2); (0, 0)]%nat)
      h m w n c = Ok x /\
    binop Rmult kernel x = Ok p /\
    np_sum p = correlation_spec img kernel h w [c].
Proof.
  intros Hs Hk Hd Hh Hw Hc.
  pose proof (half_bound m) as Hm. pose proof (half_bound n) as Hn.
  rewrite (window3_full _ _ _ _ _ _ _ _ _ (shape_np_pad3 _ _ _ _ _ _ Hs))
    by lia.
  eexists; eexists; split; [reflexivity|].
  rewrite binop_same_shape by (rewrite Hk; reflexivity).
  split; [reflexivity|].
  rewrite Hk, np_sum_build2. unfold correlation_spec. rewrite Hk. cbn [nth].
  apply sum_over_ext. intros i Hi. apply sum_over_ext. intros j Hj.
  apply in_seq in Hi, Hj. cbn [shape build dt].
  rewrite bindex_same by (apply in_range2; lia).
  rewrite cast_float by assumption. f_equal.
  rewrite get_build by (apply in_range2; lia).
  cbn [add_index app].
  apply (get_np_pad3 img H W C); [assumption | lia | lia | assumption].
Qed.

(** ** The loops of [cross_correlation_2d] *)

Lemma wf_zeros d sh : wf (zeros d sh).
Proof. apply wf_build. Qed.

Lemma cross_correlation_2d_rank2 img kernel H W m n :
  shape img = [H; W] -> shape kernel = [m; n] ->
  promote (dt kernel) (dt img) <> uint8 ->
  exists out,
    cross_correlation_2d img kernel = Ok out /\
    wf out /\ dt out = float64 /\ shape out = [H; W] /\
    forall h w, (h < H)%nat -> (w < W)%nat ->
                get out [h; w] = correlation_spec img kernel h w [].
Proof.
  intros Hs Hk Hd. unfold cross_correlation_2d. rewrite Hs, Hk.
  set (V := fun h w => correlation_spec img kernel h w []).
  set (frame := fun out => wf out /\ dt out = float64 /\ shape out = [H; W]).
  destruct (for_each_range_inv
    (fun h out => frame out /\
       forall y x, (y < h)%nat -> (x < W)%nat -> get out [y; x] = V y x)
    (fun h =>
       for_each (range W) (fun w out =>
         p <- binop Rmult kernel
                (window2 (np_pad img [(m / 2, m / 2); (n / 2, n / 2)]%nat)
                   h m w n) ;;
         set_item out [h; w] (np_sum p)))
    H (zeros_like img float64)) as (out & E & (Hf & Hv)).
  - split; [|intros; lia].
    unfold frame, zeros_like. rewrite Hs.
    split; [apply wf_zeros | split; reflexivity].
  - intros h out0 Hh (Hf0 & Hv0).
    destruct (for_each_range_inv
      (fun w out => frame out /\
         (forall y x, (y < h)%nat -> (x < W)%nat -> get out [y; x] = V y x) /\
         (forall x, (x < w)%nat -> get out [h; x] = V h x))
      (fun w out =>
         p <- binop Rmult kernel
                (window2 (np_pad img [(m / 2, m / 2); (n / 2, n / 2)]%nat)
                   h m w n) ;;
         set_item out [h; w] (np_sum p))
      W out0) as (out1 & E1 & (Hf1 & Hv1 & Hr1)).
    + split; [assumption | split; [assumption | intros; lia]].
    + intros w out Hw ((Hwf & Hdt & Hsh) & Hv & Hr).
      destruct (correlate_pixel2 img kernel H W m n h w Hs Hk Hd Hh Hw)
        as (p & Ep & Hp).
      rewrite Ep. cbn [bind].
      assert (Hin : in_range (shape out) [h; w] = true)
        by (rewrite Hsh; apply in_range2; assumption).
      rewrite (set_item_ok _ _ _ Hin).
      eexists; split; [reflexivity|].
      pose proof (set_item_ok _ _ (np_sum p) Hin) as Eset.
      destruct (set_item_frame _ _ _ _ Hwf Eset) as (Hwf' & Hdt' & Hsh').
      split; [split; [assumption | split; congruence]|].
      split.
      * intros y x Hy Hx.
        rewrite (get_set_item _ _ _ _ [y; x] Hwf Eset)
          by (rewrite Hsh; apply in_range2; lia).
        cbn [index_eqb]. destruct (Nat.eqb_spec h y); [lia|]. cbn [andb].
        now apply Hv.
      * intros x Hx.
        rewrite (get_set_item _ _ _ _ [h; x] Hwf Eset)
          by (rewrite Hsh; apply in_range2; lia).
        cbn [index_eqb]. rewrite Nat.eqb_refl.
        destruct (Nat.eqb_spec w x) as [<-|Hne]; cbn [andb].
        -- rewrite Hdt. exact Hp.
        -- apply Hr. lia.
    + exists out1. split; [exact E1|]. split; [assumption|].
      intros y x Hy Hx.
      destruct (Nat.eq_dec y h) as [->|Hne]; [now apply Hr1|].
      apply Hv1; [lia | assumption].
  - exists out. split; [exact E|].
    destruct Hf as (Hwf & Hdt & Hsh). repeat split; auto.
Qed.

Lemma set_item_get3 out H W C h w c v :
  wf out -> shape out = [H; W; C] ->
  (h < H)%nat -> (w < W)%nat -> (c < C)%nat ->
  exists out',
    set_item out [h; w; c] v = Ok out' /\
    wf out' /\ dt out' = dt out /\ shape out' = [H; W; C] /\
    forall idx, in_range [H; W; C] idx = true ->
      get out' idx =
      if index_eqb [h; w; c] idx then cast (dt out) v else get out idx.
Proof.
  intros Hwf Hsh Hh Hw Hc.
  assert (Hin : in_range (shape out) [h; w; c] = true)
    by (rewrite Hsh; apply in_range3; assumption).
  pose proof (set_item_ok _ _ v Hin) as E.
  destruct (set_item_frame _ _ _ _ Hwf E) as (Hwf' & Hdt' & Hsh').
  eexists; split; [exact E|].
  repeat split; try congruence.
  intros idx Hi. apply (get_set_item _ _ _ _ idx Hwf E). now rewrite Hsh.
Qed.

Lemma get_zeros d sh idx : in_range sh idx = true -> get (zeros d sh) idx = 0.
Proof. intros H. unfold zeros. now rewrite get_build. Qed.

Lemma cross_correlation_2d_rank3 img kernel H W C m n :
  shape img = [H; W; C] -> shape kernel = [m; n] ->
  promote (dt kernel) (dt img) <> uint8 ->
  (3 <= C)%nat ->
  exists out,
    cross_correlation_2d img kernel = Ok out /\
    wf out /\ dt out = float64 /\ shape out = [H; W; C] /\
    (forall h w c, (h < H)%nat -> (w < W)%nat -> (c < 3)%nat ->
                   get out [h; w; c] = correlation_spec img kernel h w [c]) /\
    (forall h w c, (h < H)%nat -> (w < W)%nat -> (3 <= c < C)%nat ->
                   get out [h; w; c] = 0).
Proof.
  intros Hs Hk Hd HC. unfold cross_correlation_2d. rewrite Hs, Hk.
  set (V := fun h w c => correlation_spec img kernel h w [c]).
  set (frame := fun out =>
         wf out /\ dt out = float64 /\ shape out = [H; W; C] /\
         forall y x c, (y < H)%nat -> (x < W)%nat -> (3 <= c < C)%nat ->
                       get out [y; x; c] = 0).
  set (pad := np_pad img [(m / 2, m / 2); (n / 2, n / 2); (0, 0)]%nat).
  set (body := fun (h w : nat) (out : ndarray) =>
         x0 <- window3 pad h m w n 0 ;;
         p0 <- binop Rmult kernel x0 ;;
         out <- set_item out [h; w; 0%nat] (np_sum p0) ;;
         x1 <- window3 pad h m w n 1 ;;
         p1 <- binop Rmult kernel x1 ;;
         out <- set_item out [h; w; 1%nat] (np_sum p1) ;;
         x2 <- window3 pad h m w n 2 ;;
         p2 <- binop Rmult kernel x2 ;;
         set_item out [h; w; 2%nat] (np_sum p2)).
  destruct (for_each_range_inv
    (fun h out => frame out /\
       forall y x c, (y < h)%nat -> (x < W)%nat -> (c < 3)%nat ->
                     get out [y; x; c] = V y x c)
    (fun h => for_each (range W) (body h))
    H (zeros_like img float64)) as (out & E & (Hf & Hv)).
  - split; [|intros; lia].
    unfold frame, zeros_like. rewrite Hs.
    split; [apply wf_zeros | split; [reflexivity | split; [reflexivity|]]].
    intros y x c Hy Hx Hc. apply get_zeros. apply in_range3; lia.
  - intros h out0 Hh (Hf0 & Hv0).
    destruct (for_each_range_inv
      (fun w out => frame out /\
         (forall y x c, (y < h)%nat -> (x < W)%nat -> (c < 3)%nat ->
                        get out [y; x; c] = V y x c) /\
         (forall x c, (x < w)%nat -> (c < 3)%nat ->
                      get out [h; x; c] = V h x c))
      (body h) W out0) as (out1 & E1 & (Hf1 & Hv1 & Hr1)).
    + split; [assumption | split; [assumption | intros; lia]].
    + intros w out Hw ((Hwf & Hdt & Hsh & Hz) & Hv & Hr). unfold body.
      destruct (correlate_pixel3 img kernel H W C m n h w 0 Hs Hk Hd Hh Hw)
        as (x0 & p0 & Ex0 & Ep0 & Hp0); [lia|].
      destruct (correlate_pixel3 img kernel H W C m n h w 1 Hs Hk Hd Hh Hw)
        as (x1 & p1 & Ex1 & Ep1 & Hp1); [lia|].
      destruct (correlate_pixel3 img kernel H W C m n h w 2 Hs Hk Hd Hh Hw)
        as (x2 & p2 & Ex2 & Ep2 & Hp2); [lia|].
      fold pad in Ex0, Ex1, Ex2.
      destruct (set_item_get3 out H W C h w 0 (np_sum p0) Hwf Hsh Hh Hw)
        as (o0 & E0 & Hwf0 & Hdt0 & Hsh0 & G0); [lia|].
      destruct (set_item_get3 o0 H W C h w 1 (np_sum p1) Hwf0 Hsh0 Hh Hw)
        as (o1 & E1' & Hwf1 & Hdt1 & Hsh1 & G1); [lia|].
      destruct (set_item_get3 o1 H W C h w 2 (np_sum p2) Hwf1 Hsh1 Hh Hw)
        as (o2 & E2 & Hwf2 & Hdt2 & Hsh2 & G2); [lia|].
      rewrite Ex0; cbn [bind]. rewrite Ep0; cbn [bind]. rewrite E0; cbn [bind].
      rewrite Ex1; cbn [bind]. rewrite Ep1; cbn [bind]. rewrite E1'; cbn [bind].
      rewrite Ex2; cbn [bind]. rewrite Ep2; cbn [bind]. rewrite E2.
      eexists; split; [reflexivity|].
      assert (Hd0 : dt o0 = float64) by congruence.
      assert (Hd1 : dt o1 = float64) by congruence.
      split; [split; [assumption | split; [congruence | split; [assumption|]]]|].
      * intros y x c Hy Hx Hc.
        rewrite G2, G1, G0 by (apply in_range3; lia).
        cbn [index_eqb].
        destruct c as [|[|[|c]]]; try lia.
        cbn [Nat.eqb]. rewrite !andb_false_r. apply Hz; lia.
      * split.
        -- intros y x c Hy Hx Hc.
           rewrite G2, G1, G0 by (apply in_range3; lia).
           cbn [index_eqb]. destruct (Nat.eqb_spec h y); [lia|]. cbn [andb].
           now apply Hv.
        -- intros x c Hx Hc.
           rewrite G2, G1, G0 by (apply in_range3; lia).
           cbn [index_eqb]. rewrite Nat.eqb_refl. cbn [andb].
           destruct (Nat.eqb_spec w x) as [<-|Hne]; cbn [andb].
           ++ rewrite Hdt, Hd0, Hd1. cbn [cast].
              destruct c as [|[|[|c]]]; cbn [Nat.eqb andb];
                try assumption; lia.
           ++ apply Hr; [lia | assumption].
    + exists out1. split; [exact E1|]. split; [assumption|].
      intros y x c Hy Hx Hc.
      destruct (Nat.eq_dec y h) as [->|Hne]; [now apply Hr1|].
      apply Hv1; [lia | assumption | assumption].
  - exists out. split; [exact E|].
    destruct Hf as (Hwf & Hdt & Hsh & Hz). repeat split; auto.
Qed.

(** ** Integer samples *)

Lemma Int_part_IZR z : Int_part (IZR z) = z.
Proof. symmetry. apply Int_part_spec. lra. Qed.

Lemma Rtrunc_IZR z : Rtrunc (IZR z) = z.
Proof.
  unfold Rtrunc. destruct (Rle_dec 0 (IZR z)).
  - apply Int_part_IZR.
  - rewrite <- opp_IZR, Int_part_IZR. lia.
Qed.

Lemma cast_uint8_IZR z : cast uint8 (IZR z) = IZR (z mod 256).
Proof. simpl. now rewrite Rtrunc_IZR. Qed.

(** ** The contract of [cross_correlation_2d] *)

(** C2 (amended): for a rank-2 image, or a rank-3 image of exactly three
    channels, and an m-by-n kernel (in particular one of odd height and
    width) that is not an 8-bit kernel applied to an 8-bit image,
    [cross_correlation_2d] returns a float64 buffer of the shape of the
    input in which every sample, channel by channel, is the sum of the
    products of the unflipped kernel with the window of the image behind
    [m/2] rows and [n/2] columns of zeros. *)
Theorem cross_correlation_2d_spec img kernel m n :
  shape kernel = [m; n] ->
  promote (dt kernel) (dt img) <> uint8 ->
  ndim img = 2%nat \/ (ndim img = 3%nat /\ nth 2 (shape img) 0%nat = 3%nat) ->
  exists out,
    cross_correlation_2d img kernel = Ok out /\
    dt out = float64 /\ shape out = shape img /\
    forall h w chan,
      in_range (shape img) (h :: w :: chan) = true ->
      get out (h :: w :: chan) = correlation_spec img kernel h w chan.
Proof.
  intros Hk Hd Hr. unfold ndim in Hr.
  destruct (shape img) as [|H [|W [|C [|C' r]]]] eqn:Hs;
    simpl in Hr; try (exfalso; lia).
  - destruct (cross_correlation_2d_rank2 img kernel H W m n Hs Hk Hd)
      as (out & E & _ & Hdt & Hsh & Hv).
    exists out. repeat split; try assumption.
    intros h w [|c chan] Hin; simpl in Hin;
      [|rewrite !andb_false_r in Hin; discriminate].
    apply andb_true_iff in Hin as [Hh Hin].
    apply andb_true_iff in Hin as [Hw _].
    apply Nat.ltb_lt in Hh, Hw. now apply Hv.
  - destruct Hr as [Hr | [_ Hr]]; [lia|]. subst C.
    destruct (cross_correlation_2d_rank3 img kernel H W 3 m n Hs Hk Hd)
      as (out & E & _ & Hdt & Hsh & Hv & _); [lia|].
    exists out. repeat split; try assumption.
    intros h w [|c [|c' chan]] Hin; simpl in Hin;
      try (rewrite !andb_false_r in Hin; discriminate).
    apply andb_true_iff in Hin as [Hh Hin].
    apply andb_true_iff in Hin as [Hw Hin].
    apply andb_true_iff in Hin as [Hc _].
    apply Nat.ltb_lt in Hh, Hw, Hc. now apply Hv.
Qed.

Lemma cross_correlation_2d_spec_witness :
  exists out,
    cross_correlation_2d (mk_ndarray uint8 [1; 1; 3]%nat [10; 20; 30])
                         (mk_ndarray float64 [1; 1]%nat [2]) = Ok out /\
    dt out = float64 /\ shape out = [1; 1; 3]%nat /\
    forall h w chan,
      in_range [1; 1; 3]%nat (h :: w :: chan) = true ->
      get out (h :: w :: chan) =
      correlation_spec (mk_ndarray uint8 [1; 1; 3]%nat [10; 20; 30])
                       (mk_ndarray float64 [1; 1]%nat [2]) h w chan.
Proof.
  apply (cross_correlation_2d_spec
           (mk_ndarray uint8 [1; 1; 3]%nat [10; 20; 30])
           (mk_ndarray float64 [1; 1]%nat [2]) 1 1).
  - reflexivity.
  - simpl. discriminate.
  - right. split; reflexivity.
Defined.

(** C2 as stated fails on rank-3 images that do not have three channels (a
    single channel raises [IndexError]; a fourth channel is left at zero) and
    when kernel and image are both 8-bit (the products wrap modulo 256). *)
Lemma cross_correlation_2d_counterexample :
  cross_correlation_2d (mk_ndarray float64 [1; 1; 1]%nat [5])
                       (mk_ndarray float64 [1; 1]%nat [1]) = Raise IndexError /\
  (exists out,
     cross_correlation_2d (mk_ndarray float64 [1; 1; 4]%nat [1; 2; 3; 4])
                          (mk_ndarray float64 [1; 1]%nat [1]) = Ok out /\
     get out [0; 0; 3]%nat <>
     correlation_spec (mk_ndarray float64 [1; 1; 4]%nat [1; 2; 3; 4])
                      (mk_ndarray float64 [1; 1]%nat [1]) 0 0 [3%nat]) /\
  (exists out,
     cross_correlation_2d (mk_ndarray uint8 [1; 1]%nat [200])
                          (mk_ndarray uint8 [1; 1]%nat [2]) = Ok out /\
     get out [0; 0]%nat <>
     correlation_spec (mk_ndarray uint8 [1; 1]%nat [200])
                      (mk_ndarray uint8 [1; 1]%nat [2]) 0 0 []).
Proof.
  split; [vm_compute; reflexivity|]. split.
  - eexists. split; [cbv -[Rmult Rplus IZR]; reflexivity|].
    cbv -[Rmult Rplus IZR]. lra.
  - eexists. split; [cbv -[Rmult Rplus IZR cast]; reflexivity|].
    cbv -[Rmult Rplus IZR cast].
    rewrite <- mult_IZR, cast_uint8_IZR. cbv -[Rmult Rplus IZR]. lra.
Qed.

(** The kernel is not flipped: the tap of weight 100 meets the pixel to the
    right. *)
Example cross_correlation_2d_not_flipped :
  exists out,
    cross_correlation_2d (mk_ndarray float64 [1; 3]%nat [1; 2; 4])
                         (mk_ndarray float64 [1; 3]%nat [1; 10; 100]) = Ok out /\
    data out = [210; 421; 42].
Proof.
  eexists. split; [cbv -[Rmult Rplus IZR]; reflexivity|].
  cbv -[Rmult Rplus IZR]. repeat f_equal; lra.
Qed.

(** ** Two passes of a single-row kernel *)

Lemma sum_over_scal c l f :
  c * sum_over l f = sum_over l (fun i => c * f i).
Proof. induction l as [|i l IH]; simpl; [lra|]. rewrite <- IH. lra. Qed.

Lemma sum_over_zero l f : (forall i, In i l -> f i = 0) -> sum_over l f = 0.
Proof.
  induction l as [|i l IH]; simpl; intros H; [reflexivity|].
  rewrite H by now left. rewrite IH; [lra|]. intros; apply H; now right.
Qed.

Lemma sum_over_range1 f : sum_over (range 1) f = f 0%nat.
Proof. unfold sum_over, range; simpl. lra. Qed.

Lemma shape_transpose2 k m n : shape k = [m; n] -> shape (transpose k) = [n; m].
Proof. intros H. unfold transpose, build. now rewrite H. Qed.

Lemma get_transpose2 k m n i j :
  shape k = [m; n] -> (i < n)%nat -> (j < m)%nat ->
  get (transpose k) [i; j] = get k [j; i].
Proof.
  intros H Hi Hj. unfold transpose. rewrite H.
  now rewrite get_build by (apply in_range2; assumption).
Qed.

Lemma shape_outer k n : shape k = [1%nat; n] -> shape (outer k) = [n; n].
Proof. intros H. unfold outer, build. now rewrite H. Qed.

Lemma get_outer k n i j :
  shape k = [1%nat; n] -> (i < n)%nat -> (j < n)%nat ->
  get (outer k) [i; j] = get k [0%nat; i] * get k [0%nat; j].
Proof.
  intros H Hi Hj. unfold outer. rewrite H. cbn [nth].
  now rewrite get_build by (apply in_range2; assumption).
Qed.

Lemma separable_pointwise img r k n H W tl tl' h w chan :
  shape k = [1%nat; n] ->
  shape img = H :: W :: tl -> shape r = H :: W :: tl' ->
  (forall y, (y < H)%nat ->
             get r (y :: w :: chan) = correlation_spec img k y w chan) ->
  (h < H)%nat -> (w < W)%nat ->
  correlation_spec r (transpose k) h w chan =
  correlation_spec img (outer k) h w chan.
Proof.
  intros Hk Hs Hr Hv Hh Hw. unfold correlation_spec.
  rewrite (shape_transpose2 _ _ _ Hk), (shape_outer _ _ Hk). cbn [nth].
  apply sum_over_ext. intros i Hi. apply in_seq in Hi.
  change (1 / 2)%nat with 0%nat. rewrite sum_over_range1.
  rewrite (get_transpose2 k 1 n) by (assumption || lia).
  rewrite Nat.add_0_r.
  unfold padded_sample at 1. rewrite Hr. cbn [nth].
  destruct (Nat.leb_spec (n / 2) (h + i)) as [H1|H1];
    destruct (Nat.ltb_spec (h + i) (n / 2 + H)) as [H2|H2]; cbn [andb];
    try (rewrite Rmult_0_r; symmetry; apply sum_over_zero; intros j _;
         unfold padded_sample; rewrite Hs; cbn [nth];
         destruct (Nat.leb_spec (n / 2) (h + i));
         destruct (Nat.ltb_spec (h + i) (n / 2 + H)); cbn [andb];
         try lia; apply Rmult_0_r).
  destruct (Nat.ltb_spec w (0 + W)) as [H3|H3]; [|lia]. cbn [andb Nat.leb].
  rewrite Nat.sub_0_r, Hv by lia.
  unfold correlation_spec. rewrite Hk. cbn [nth].
  change (1 / 2)%nat with 0%nat. rewrite sum_over_range1, sum_over_scal.
  apply sum_over_ext. intros j Hj. apply in_seq in Hj.
  rewrite (get_outer k n) by (assumption || lia).
  rewrite Rmult_assoc. f_equal. f_equal.
  unfold padded_sample. rewrite Hs. cbn [nth].
  rewrite Nat.add_0_r, Nat.sub_0_r.
  destruct (Nat.leb_spec (n / 2) (h + i)); [|lia].
  destruct (Nat.ltb_spec (h + i) (n / 2 + H)); [|lia].
  destruct (Nat.ltb_spec (h + i - n / 2) (0 + H)); [|lia].
  reflexivity.
Qed.

Lemma promote_float64_r d : promote d float64 <> uint8.
Proof. destruct d; discriminate. Qed.

Lemma separable_rank2 img k n H W :
  shape img = [H; W] -> shape k = [1%nat; n] ->
  promote (dt k) (dt img) <> uint8 ->
  separable_filter img k = cross_correlation_2d img (outer k).
Proof.
  intros Hs Hk Hd. unfold separable_filter.
  destruct (cross_correlation_2d_rank2 img k H W 1 n Hs Hk Hd)
    as (r & Er & Hwr & Hdr & Hsr & Hvr).
  destruct (cross_correlation_2d_rank2 r (transpose k) H W n 1 Hsr
              (shape_transpose2 _ _ _ Hk))
    as (o1 & E1 & Hw1 & Hd1 & Hs1 & Hv1).
  { rewrite Hdr. apply promote_float64_r. }
  destruct (cross_correlation_2d_rank2 img (outer k) H W n n Hs
              (shape_outer _ _ Hk) Hd)
    as (o2 & E2 & Hw2 & Hd2 & Hs2 & Hv2).
  rewrite Er; cbn [bind]. rewrite E1, E2. f_equal.
  apply ndarray_ext; try congruence.
  rewrite Hs1. intros [|h [|w [|c chan]]] Hin; simpl in Hin;
    try discriminate; try (rewrite !andb_false_r in Hin; discriminate).
  apply andb_true_iff in Hin as [Hh Hin].
  apply andb_true_iff in Hin as [Hw _].
  apply Nat.ltb_lt in Hh, Hw.
  rewrite Hv1, Hv2 by assumption.
  apply (separable_pointwise img r k n H W [] []); auto.
Qed.

Lemma separable_rank3 img k n H W C :
  shape img = [H; W; C] -> shape k = [1%nat; n] ->
  promote (dt k) (dt img) <> uint8 ->
  (3 <= C)%nat ->
  separable_filter img k = cross_correlation_2d img (outer k).
Proof.
  intros Hs Hk Hd HC. unfold separable_filter.
  destruct (cross_correlation_2d_rank3 img k H W C 1 n Hs Hk Hd HC)
    as (r & Er & Hwr & Hdr & Hsr & Hvr & Hzr).
  destruct (cross_correlation_2d_rank3 r (transpose k) H W C n 1 Hsr
              (shape_transpose2 _ _ _ Hk))
    as (o1 & E1 & Hw1 & Hd1 & Hs1 & Hv1 & Hz1); [|assumption|].
  { rewrite Hdr. apply promote_float64_r. }
  destruct (cross_correlation_2d_rank3 img (outer k) H W C n n Hs
              (shape_outer _ _ Hk) Hd HC)
    as (o2 & E2 & Hw2 & Hd2 & Hs2 & Hv2 & Hz2).
  rewrite Er; cbn [bind]. rewrite E1, E2. f_equal.
  apply ndarray_ext; try congruence.
  rewrite Hs1. intros [|h [|w [|c [|c' chan]]]] Hin; simpl in Hin;
    try discriminate; try (rewrite !andb_false_r in Hin; discriminate).
  apply andb_true_iff in Hin as [Hh Hin].
  apply andb_true_iff in Hin as [Hw Hin].
  apply andb_true_iff in Hin as [Hc _].
  apply Nat.ltb_lt in Hh, Hw, Hc.
  destruct (Nat.lt_ge_cases c 3) as [Hc3|Hc3].
  - rewrite Hv1, Hv2 by assumption.
    apply (separable_pointwise img r k n H W [C] [C]); auto.
  - rewrite Hz1, Hz2 by lia. reflexivity.
Qed.

(** ** Images the correlation loops do not fill *)

Lemma cross_correlation_2d_no_loop img kernel :
  ndim img <> 2%nat -> ndim img <> 3%nat ->
  cross_correlation_2d img kernel = Ok (zeros_like img float64).
Proof.
  unfold ndim, cross_correlation_2d. intros H2 H3.
  destruct (shape img) as [|h [|w [|c [|c' r]]]]; simpl in *; congruence.
Qed.

Lemma for_each_skip {S} l (body : nat -> S -> result S) s :
  (forall i s', body i s' = Ok s') -> for_each l body s = Ok s.
Proof.
  intros Hb. induction l as [|i l IH]; simpl; [reflexivity|].
  now rewrite Hb.
Qed.

Lemma cross_correlation_2d_empty3 img kernel H W C m n :
  shape img = [H; W; C] -> shape kernel = [m; n] ->
  H = 0%nat \/ W = 0%nat ->
  cross_correlation_2d img kernel = Ok (zeros_like img float64).
Proof.
  intros Hs Hk [-> | ->]; unfold cross_correlation_2d; rewrite Hs, Hk.
  - reflexivity.
  - apply for_each_skip. intros; reflexivity.
Qed.

Lemma window3_out_of_range a Hp Wp C h m w n c :
  shape a = [Hp; Wp; C] -> (C <= c)%nat ->
  window3 a h m w n c = Raise IndexError.
Proof.
  intros Hs Hc. unfold window3. rewrite Hs. cbn [nth].
  destruct (Nat.ltb_spec c C); [lia | reflexivity].
Qed.

Lemma cross_correlation_2d_few_channels img kernel H W C m n :
  shape img = [Datatypes.S H; Datatypes.S W; C] -> shape kernel = [m; n] ->
  (C < 3)%nat ->
  cross_correlation_2d img kernel = Raise IndexError.
Proof.
  intros Hs Hk HC. unfold cross_correlation_2d. rewrite Hs, Hk.
  pose proof (half_bound m) as Hm. pose proof (half_bound n) as Hn.
  pose proof (shape_np_pad3 img _ _ _ (m / 2) (n / 2) Hs) as Hp.
  set (pad := np_pad _ _) in *.
  assert (Hwf : wf (zeros_like img float64)) by apply wf_zeros.
  assert (Hsh : shape (zeros_like img float64)
                = [Datatypes.S H; Datatypes.S W; C])
    by (unfold zeros_like, zeros, build; now rewrite Hs).
  unfold range. cbn [seq for_each].
  assert (Hwin : forall c, (c < C)%nat ->
            exists p, (x <- window3 pad 0 m 0 n c ;; binop Rmult kernel x)
                      = Ok p).
  { intros c Hc.
    rewrite (window3_full pad _ _ _ 0 m 0 n c Hp) by lia. cbn [bind].
    rewrite binop_same_shape by (rewrite Hk; reflexivity). eauto. }
  destruct C as [|[|[|C]]]; try lia.
  - now rewrite (window3_out_of_range pad _ _ _ 0 m 0 n 0 Hp) by lia.
  - destruct (Hwin 0%nat) as (p0 & E0); [lia|].
    apply bind_ok in E0 as (x0 & Ex0 & Ep0).
    rewrite Ex0; cbn [bind]. rewrite Ep0; cbn [bind].
    destruct (set_item_get3 _ _ _ _ 0 0 0 (np_sum p0) Hwf Hsh)
      as (o0 & Es0 & _); try lia.
    rewrite Es0; cbn [bind].
    now rewrite (window3_out_of_range pad _ _ _ 0 m 0 n 1 Hp) by lia.
  - destruct (Hwin 0%nat) as (p0 & E0); [lia|].
    apply bind_ok in E0 as (x0 & Ex0 & Ep0).
    rewrite Ex0; cbn [bind]. rewrite Ep0; cbn [bind].
    destruct (set_item_get3 _ _ _ _ 0 0 0 (np_sum p0) Hwf Hsh)
      as (o0 & Es0 & Hwf0 & _ & Hsh0 & _); try lia.
    rewrite Es0; cbn [bind].
    destruct (Hwin 1%nat) as (p1 & E1); [lia|].
    apply bind_ok in E1 as (x1 & Ex1 & Ep1).
    rewrite Ex1; cbn [bind]. rewrite Ep1; cbn [bind].
    destruct (set_item_get3 _ _ _ _ 0 0 1 (np_sum p1) Hwf0 Hsh0)
      as (o1 & Es1 & _); try lia.
    rewrite Es1; cbn [bind].
    now rewrite (window3_out_of_range pad _ _ _ 0 m 0 n 2 Hp) by lia.
Qed.

(** C3 (amended): for every image and every single-row kernel of [n] taps (in
    particular an odd number) that is not an 8-bit kernel applied to an
    8-bit image, the two passes of [separable_filter] give exactly what
    [cross_correlation_2d] gives with the outer product of the kernel with
    itself: the same buffer, or the same exception on an image the
    correlation rejects. *)
Theorem separable_filter_outer img k n :
  shape k = [1%nat; n] ->
  promote (dt k) (dt img) <> uint8 ->
  separable_filter img k = cross_correlation_2d img (outer k).
Proof.
  intros Hk Hd.
  pose proof (shape_transpose2 _ _ _ Hk) as HkT.
  pose proof (shape_outer _ _ Hk) as Hko.
  destruct (shape img) as [|H [|W [|C [|C' r]]]] eqn:Hs.
  1,2,5: unfold separable_filter;
    rewrite !cross_correlation_2d_no_loop
      by (unfold ndim; try rewrite Hs; simpl; lia);
    cbn [bind];
    rewrite cross_correlation_2d_no_loop
      by (unfold ndim, zeros_like, zeros, build; cbn [shape];
          rewrite Hs; simpl; lia);
    reflexivity.
  - now apply (separable_rank2 img k n H W).
  - destruct (Nat.lt_ge_cases C 3) as [HC|HC];
      [|now apply (separable_rank3 img k n H W C)].
    destruct H as [|H].
    { unfold separable_filter.
      rewrite (cross_correlation_2d_empty3 img k 0 W C 1 n Hs Hk)
        by now left.
      rewrite (cross_correlation_2d_empty3 img (outer k) 0 W C n n Hs Hko)
        by now left.
      cbn [bind].
      rewrite (cross_correlation_2d_empty3 _ _ 0 W C n 1);
        [reflexivity | | assumption | now left].
      unfold zeros_like, zeros, build; cbn [shape]. assumption. }
    destruct W as [|W].
    { unfold separable_filter.
      rewrite (cross_correlation_2d_empty3 img k _ 0 C 1 n Hs Hk)
        by now right.
      rewrite (cross_correlation_2d_empty3 img (outer k) _ 0 C n n Hs Hko)
        by now right.
      cbn [bind].
      rewrite (cross_correlation_2d_empty3 _ _ (Datatypes.S H) 0 C n 1);
        [reflexivity | | assumption | now right].
      unfold zeros_like, zeros, build; cbn [shape]. assumption. }
    unfold separable_filter.
    rewrite (cross_correlation_2d_few_channels img k H W C 1 n Hs Hk HC).
    rewrite (cross_correlation_2d_few_channels img (outer k) H W C n n
               Hs Hko HC).
    reflexivity.
Qed.

Lemma separable_filter_outer_witness :
  separable_filter (mk_ndarray float64 [1; 2]%nat [3; 4])
                   (mk_ndarray float64 [1; 3]%nat [1; 2; 1]) =
  cross_correlation_2d (mk_ndarray float64 [1; 2]%nat [3; 4])
                       (outer (mk_ndarray float64 [1; 3]%nat [1; 2; 1])).
Proof.
  apply (separable_filter_outer (mk_ndarray float64 [1; 2]%nat [3; 4])
           (mk_ndarray float64 [1; 3]%nat [1; 2; 1]) 3).
  - reflexivity.
  - simpl. discriminate.
Defined.

(** C3 as stated fails when kernel and image are both 8-bit: each pass wraps
    its products modulo 256, so the two passes and the single pass differ. *)
Lemma separable_filter_counterexample :
  separable_filter (mk_ndarray uint8 [1; 1]%nat [200])
                   (mk_ndarray uint8 [1; 1]%nat [2]) <>
  cross_correlation_2d (mk_ndarray uint8 [1; 1]%nat [200])
                       (outer (mk_ndarray uint8 [1; 1]%nat [2])).
Proof.
  assert (E1 : separable_filter (mk_ndarray uint8 [1; 1]%nat [200])
                 (mk_ndarray uint8 [1; 1]%nat [2]) =
               Ok (mk_ndarray float64 [1; 1]%nat [288])).
  { cbv -[Rmult Rplus IZR cast].
    rewrite <- mult_IZR, cast_uint8_IZR. cbv -[Rmult Rplus IZR].
    do 3 f_equal. lra. }
  assert (E2 : cross_correlation_2d (mk_ndarray uint8 [1; 1]%nat [200])
                 (outer (mk_ndarray uint8 [1; 1]%nat [2])) =
               Ok (mk_ndarray float64 [1; 1]%nat [32])).
  { cbv -[Rmult Rplus IZR cast].
    rewrite <- !mult_IZR, cast_uint8_IZR. cbv -[Rmult Rplus IZR].
    do 3 f_equal. lra. }
  rewrite E1, E2. intros H. injection H as H. lra.
Qed.

(** ** Filling a rank-2 buffer pixel by pixel *)

Lemma fill2 (V : nat -> nat -> R) H W (body : nat -> nat -> ndarray -> result ndarray)
  out0 :
  wf out0 -> shape out0 = [H; W] ->
  (forall h w out, (h < H)%nat -> (w < W)%nat ->
     body h w out = set_item out [h; w] (V h w)) ->
  exists out,
    for_each (range H) (fun h => for_each (range W) (body h)) out0 = Ok out /\
    wf out /\ dt out = dt out0 /\ shape out = [H; W] /\
    forall h w, (h < H)%nat -> (w < W)%nat ->
                get out [h; w] = cast (dt out0) (V h w).
Proof.
  intros Hwf0 Hsh0 Hbody.
  set (frame := fun out => wf out /\ dt out = dt out0 /\ shape out = [H; W]).
  set (U := fun h w => cast (dt out0) (V h w)).
  destruct (for_each_range_inv
    (fun h out => frame out /\
       forall y x, (y < h)%nat -> (x < W)%nat -> get out [y; x] = U y x)
    (fun h => for_each (range W) (body h)) H out0) as (out & E & (Hf & Hv)).
  - split; [|intros; lia]. repeat split; assumption.
  - intros h out1 Hh (Hf1 & Hv1).
    destruct (for_each_range_inv
      (fun w out => frame out /\
         (forall y x, (y < h)%nat -> (x < W)%nat -> get out [y; x] = U y x) /\
         (forall x, (x < w)%nat -> get out [h; x] = U h x))
      (body h) W out1) as (out2 & E2 & (Hf2 & Hv2 & Hr2)).
    + split; [assumption | split; [assumption | intros; lia]].
    + intros w out Hw ((Hwf & Hdt & Hsh) & Hv & Hr).
      rewrite Hbody by assumption.
      assert (Hin : in_range (shape out) [h; w] = true)
        by (rewrite Hsh; apply in_range2; assumption).
      pose proof (set_item_ok _ _ (V h w) Hin) as Eset.
      destruct (set_item_frame _ _ _ _ Hwf Eset) as (Hwf' & Hdt' & Hsh').
      rewrite Eset. eexists; split; [reflexivity|].
      split; [split; [assumption | split; congruence]|].
      split.
      * intros y x Hy Hx.
        rewrite (get_set_item _ _ _ _ [y; x] Hwf Eset)
          by (rewrite Hsh; apply in_range2; lia).
        cbn [index_eqb]. destruct (Nat.eqb_spec h y); [lia|]. cbn [andb].
        now apply Hv.
      * intros x Hx.
        rewrite (get_set_item _ _ _ _ [h; x] Hwf Eset)
          by (rewrite Hsh; apply in_range2; lia).
        cbn [index_eqb]. rewrite Nat.eqb_refl.
        destruct (Nat.eqb_spec w x) as [<-|Hne]; cbn [andb].
        -- now rewrite Hdt.
        -- apply Hr. lia.
    + exists out2. split; [exact E2|]. split; [assumption|].
      intros y x Hy Hx.
      destruct (Nat.eq_dec y h) as [->|Hne]; [now apply Hr2|].
      apply Hv2; [lia | assumption].
  - exists out. split; [exact E|].
    destruct Hf as (Hwf & Hdt & Hsh). repeat split; auto.
Qed.

Lemma ndarray_as_build a : wf a -> a = build (dt a) (shape a) (get a).
Proof.
  intros Hw. apply ndarray_ext; try reflexivity; try assumption.
  - apply wf_build.
  - intros idx Hi. now rewrite get_build.
Qed.

Lemma np_sum_rank2 a H W :
  wf a -> shape a = [H; W] ->
  np_sum a = sum_over (range H) (fun i => sum_over (range W) (fun j => get a [i; j])).
Proof.
  intros Hw Hs. rewrite (ndarray_as_build a Hw) at 1. rewrite Hs.
  apply np_sum_build2.
Qed.

Lemma sum_map_div (s : R) l :
  fold_right Rplus 0 (map (fun x => x / s) l) = fold_right Rplus 0 l / s.
Proof. induction l as [|x l IH]; simpl; [lra|]. rewrite IH. lra. Qed.

Lemma nth_map_div (s : R) l k :
  nth k (map (fun x => x / s) l) 0 = nth k l 0 / s.
Proof.
  revert k; induction l as [|x l IH]; intros [|k]; simpl; auto; lra.
Qed.

Lemma sum_over_pos l f :
  l <> [] -> (forall i, In i l -> 0 < f i) -> 0 < sum_over l f.
Proof.
  destruct l as [|i l]; [congruence|]. intros _.
  revert i; induction l as [|j l IH]; intros i H; simpl.
  - specialize (H i (or_introl eq_refl)). lra.
  - assert (0 < f i) by (apply H; now left).
    assert (0 < sum_over (j :: l) f) by (apply IH; intros; apply H; now right).
    simpl in *. lra.
Qed.

(** ** The Gaussian kernel *)

Lemma gaussian_entry_pos sigma hh hw y x :
  0 < sigma -> 0 < gaussian_entry sigma hh hw y x.
Proof.
  intros Hs. unfold gaussian_entry.
  apply Rmult_lt_0_compat; [|apply exp_pos].
  apply Rdiv_lt_0_compat; [lra|].
  pose proof PI_RGT_0. nra.
Qed.

Lemma gaussian_total_pos sigma height width :
  0 < sigma -> (0 < height)%nat -> (0 < width)%nat ->
  0 < gaussian_total sigma height width.
Proof.
  intros Hs Hh Hw. unfold gaussian_total, range.
  apply sum_over_pos; [destruct height; [lia | discriminate]|].
  intros y _. apply sum_over_pos; [destruct width; [lia | discriminate]|].
  intros x _. now apply gaussian_entry_pos.
Qed.



(** ** When the correlation returns *)

Lemma wf_zeros_like img d : wf (zeros_like img d).
Proof. apply wf_zeros. Qed.

Lemma cross_correlation_2d_ok img kernel m n :
  shape kernel = [m; n] ->
  promote (dt kernel) (dt img) <> uint8 ->
  correlates img = true ->
  exists out,
    cross_correlation_2d img kernel = Ok out /\
    wf out /\ dt out = float64 /\ shape out = shape img.
Proof.
  intros Hk Hd Hc. unfold correlates in Hc.
  destruct (shape img) as [|H [|W [|C [|C' r]]]] eqn:Hs.
  1,2,5: rewrite cross_correlation_2d_no_loop
      by (unfold ndim; rewrite Hs; simpl; lia);
    eexists; split; [reflexivity|];
    split; [apply wf_zeros_like|]; split; [reflexivity|];
    unfold zeros_like, zeros, build; cbn [shape]; now rewrite Hs.
  - destruct (cross_correlation_2d_rank2 img kernel H W m n Hs Hk Hd)
      as (out & E & Hw & Hdt & Hsh & _).
    exists out. auto.
  - destruct (Nat.leb_spec 3 C) as [HC|HC].
    + destruct (cross_correlation_2d_rank3 img kernel H W C m n Hs Hk Hd HC)
        as (out & E & Hw & Hdt & Hsh & _).
      exists out. auto.
    + cbn [orb] in Hc.
      rewrite (cross_correlation_2d_empty3 img kernel H W C m n Hs Hk).
      * eexists; split; [reflexivity|].
        split; [apply wf_zeros_like|]. split; [reflexivity|].
        unfold zeros_like, zeros, build; cbn [shape]; now rewrite Hs.
      * apply orb_true_iff in Hc as [Hc | Hc]; apply Nat.eqb_eq in Hc; auto.
Qed.

Lemma cross_correlation_2d_rejects img kernel m n :
  shape kernel = [m; n] ->
  correlates img = false ->
  cross_correlation_2d img kernel = Raise IndexError.
Proof.
  intros Hk Hc. unfold correlates in Hc.
  destruct (shape img) as [|H [|W [|C [|C' r]]]] eqn:Hs; try discriminate.
  apply orb_false_iff in Hc as [Hc HW].
  apply orb_false_iff in Hc as [HC HH].
  apply Nat.leb_gt in HC. apply Nat.eqb_neq in HH, HW.
  destruct H as [|H]; [congruence|]. destruct W as [|W]; [congruence|].
  now apply (cross_correlation_2d_few_channels img kernel H W C m n).
Qed.

Lemma gaussian_blur_kernel_2d_ok sigma height width :
  sigma <> 0 ->
  exists k,
    gaussian_blur_kernel_2d sigma height width = Ok k /\
    dt k = float64 /\ shape k = [height; width].
Proof.
  intros Hs. unfold gaussian_blur_kernel_2d.
  destruct (fill2
    (fun y x => gaussian_entry sigma (height / 2) (width / 2) y x)
    height width
    (fun y x filter =>
       if Req_dec_T sigma 0 then Raise ZeroDivisionError
       else set_item filter [y; x]
              (gaussian_entry sigma (height / 2) (width / 2) y x))
    (zeros float64 [height; width]))
    as (filter & E & Hwf & Hdt & Hsh & Hv).
  { apply wf_zeros. }
  { reflexivity. }
  { intros y x out _ _. destruct (Req_dec_T sigma 0); [lra | reflexivity]. }
  rewrite E. cbn [bind]. unfold scalar_op. rewrite Hdt.
  cbn [dt zeros build scalar_fits scalar_dtype].
  eexists; split; [reflexivity|]. cbn [dt shape]. auto.
Qed.

Lemma flip2_ok k m n :
  shape k = [m; n] ->
  exists k', flip2 k = Ok k' /\ dt k' = dt k /\ shape k' = [m; n].
Proof.
  intros Hk. unfold flip2. rewrite Hk.
  eexists; split; [reflexivity|]. split; reflexivity.
Qed.

Lemma convolve_gaussian_ok img sigma size :
  sigma <> 0 -> correlates img = true ->
  exists k c,
    gaussian_blur_kernel_2d sigma size size = Ok k /\
    convolve_2d img k = Ok c /\
    wf c /\ dt c = float64 /\ shape c = shape img.
Proof.
  intros Hs Hc.
  destruct (gaussian_blur_kernel_2d_ok sigma size size Hs)
    as (k & Ek & Hdk & Hsk).
  destruct (flip2_ok k size size Hsk) as (k' & Ef & Hdk' & Hsk').
  destruct (cross_correlation_2d_ok img k' size size Hsk') as
    (c & Ec & Hwc & Hdc & Hsc); [|assumption|].
  { rewrite Hdk', Hdk. destruct (dt img); discriminate. }
  exists k, c. split; [assumption|]. unfold convolve_2d.
  rewrite Ef. cbn [bind]. auto.
Qed.

(** ** Low pass plus high pass *)

Lemma promote_float64 d : promote d float64 = float64.
Proof. destruct d; reflexivity. Qed.

Lemma data_by_get a :
  wf a -> data a = map (fun k => get a (unravel (shape a) k)) (seq 0 (numel (shape a))).
Proof. intros Hw. now rewrite (ndarray_as_build a Hw) at 1. Qed.

Lemma cross_correlation_2d_shape img kernel out :
  cross_correlation_2d img kernel = Ok out ->
  wf out /\ dt out = float64 /\ shape out = shape img.
Proof.
  set (P := fun a => wf a /\ dt a = float64 /\ shape a = shape img).
  assert (H0 : P (zeros_like img float64)).
  { split; [apply wf_zeros|]. split; reflexivity. }
  assert (Hset : forall a idx v a', P a -> set_item a idx v = Ok a' -> P a').
  { intros a idx v a' (Hw & Hd & Hs) E.
    destruct (set_item_frame _ _ _ _ Hw E) as (Hw' & Hd' & Hs').
    split; [assumption|]. split; congruence. }
  unfold cross_correlation_2d.
  destruct (shape img) as [|h [|w [|c [|c' r]]]] eqn:Hsh;
    try (intros H; injection H as <-; exact H0);
    destruct (shape kernel) as [|m [|n [|n' r']]]; try discriminate.
  - apply (for_each_preserve P); [|exact H0].
    intros i s s' Hs. apply (for_each_preserve P); [|assumption].
    intros j a a' Ha H.
    apply bind_ok in H as (p & _ & H). eauto.
  - apply (for_each_preserve P); [|exact H0].
    intros i s s' Hs. apply (for_each_preserve P); [|assumption].
    intros j a a' Ha H.
    apply bind_ok in H as (x0 & _ & H). apply bind_ok in H as (p0 & _ & H).
    apply bind_ok in H as (o0 & E0 & H).
    apply bind_ok in H as (x1 & _ & H). apply bind_ok in H as (p1 & _ & H).
    apply bind_ok in H as (o1 & E1 & H).
    apply bind_ok in H as (x2 & _ & H). apply bind_ok in H as (p2 & _ & H).
    eauto.
Qed.

Lemma convolve_2d_shape img kernel out :
  convolve_2d img kernel = Ok out ->
  wf out /\ dt out = float64 /\ shape out = shape img.
Proof.
  unfold convolve_2d. intros H. apply bind_ok in H as (k & _ & H).
  now apply cross_correlation_2d_shape in H.
Qed.



Lemma gaussian_blur_kernel_2d_sigma_zero height width :
  gaussian_blur_kernel_2d 0 (Datatypes.S height) (Datatypes.S width) =
  Raise ZeroDivisionError.
Proof.
  unfold gaussian_blur_kernel_2d, range. cbn [seq for_each].
  destruct (Req_dec_T 0 0); [reflexivity | congruence].
Qed.


(** ** Normalisation in the hybrid composer *)

Lemma scale_to_unit a :
  scalar_op Rdiv (astype a float32) (PyFloat 255) = Ok (normalized a).
Proof.
  unfold scalar_op, astype, normalized. cbn [dt scalar_fits scalar_dtype shape data].
  rewrite map_map. reflexivity.
Qed.

Lemma normalized_unit_range a :
  uint8_valid a -> Forall (fun x => 0 <= x <= 1) (data (normalized a)).
Proof.
  intros [_ H]. unfold normalized. cbn [data].
  induction H as [|x l (z & -> & Hz) _ IH]; simpl; constructor; auto.
  assert (0 <= IZR z <= 255) by (split; apply IZR_le; lia). lra.
Qed.

(** C8 (amended): when the first image has 8-bit samples, both images are
    converted to float32 and divided by 255 before the filters run: the
    result of [create_hybrid_image] is the one it gives on the two scaled
    images, and a scaled 8-bit image has all its samples in [0, 1].  The
    type of the second image is never inspected. *)
Theorem create_hybrid_image_normalizes img1 img2 sigma1 size1 high_low1
  sigma2 size2 high_low2 mixin_ratio :
  dt img1 = uint8 ->
  normalize_inputs img1 img2 = Ok (normalized img1, normalized img2) /\
  create_hybrid_image img1 img2 sigma1 size1 high_low1 sigma2 size2 high_low2
    mixin_ratio =
  create_hybrid_image (normalized img1) (normalized img2) sigma1 size1
    high_low1 sigma2 size2 high_low2 mixin_ratio /\
  (uint8_valid img1 -> Forall (fun x => 0 <= x <= 1) (data (normalized img1))) /\
  (uint8_valid img2 -> Forall (fun x => 0 <= x <= 1) (data (normalized img2))).
Proof.
  intros Hd.
  assert (E : normalize_inputs img1 img2 = Ok (normalized img1, normalized img2)).
  { unfold normalize_inputs. rewrite Hd. cbn [dtype_eqb].
    now rewrite !scale_to_unit. }
  split; [exact E|]. split.
  - unfold create_hybrid_image. rewrite E. reflexivity.
  - split; apply normalized_unit_range.
Qed.

Lemma create_hybrid_image_normalizes_witness :
  normalize_inputs (mk_ndarray uint8 [1; 1]%nat [255])
                   (mk_ndarray uint8 [1; 1]%nat [51]) =
  Ok (normalized (mk_ndarray uint8 [1; 1]%nat [255]),
      normalized (mk_ndarray uint8 [1; 1]%nat [51])) /\
  create_hybrid_image (mk_ndarray uint8 [1; 1]%nat [255])
    (mk_ndarray uint8 [1; 1]%nat [51]) 1 3 "low" 1 3 "high" (1 / 2) =
  create_hybrid_image (normalized (mk_ndarray uint8 [1; 1]%nat [255]))
    (normalized (mk_ndarray uint8 [1; 1]%nat [51])) 1 3 "low" 1 3 "high" (1 / 2) /\
  (uint8_valid (mk_ndarray uint8 [1; 1]%nat [255]) ->
   Forall (fun x => 0 <= x <= 1)
     (data (normalized (mk_ndarray uint8 [1; 1]%nat [255])))) /\
  (uint8_valid (mk_ndarray uint8 [1; 1]%nat [51]) ->
   Forall (fun x => 0 <= x <= 1)
     (data (normalized (mk_ndarray uint8 [1; 1]%nat [51])))).
Proof.
  apply (create_hybrid_image_normalizes
           (mk_ndarray uint8 [1; 1]%nat [255])
           (mk_ndarray uint8 [1; 1]%nat [51])).
  reflexivity.
Defined.

(** C8 as stated fails when only the second image is 8-bit: the test reads
    the type of the first image alone, and the second image reaches its
    filter with its samples still in 0..255. *)
Lemma create_hybrid_image_counterexample :
  uint8_valid (mk_ndarray uint8 [1; 1]%nat [255]) /\
  normalize_inputs (mk_ndarray float64 [1; 1]%nat [1 / 2])
                   (mk_ndarray uint8 [1; 1]%nat [255]) =
  Ok (mk_ndarray float64 [1; 1]%nat [1 / 2],
      mk_ndarray uint8 [1; 1]%nat [255]) /\
  ~ Forall (fun x => 0 <= x <= 1) (data (mk_ndarray uint8 [1; 1]%nat [255])).
Proof.
  split; [|split].
  - split; [reflexivity|]. constructor; [|constructor].
    exists 255%Z. split; [reflexivity | lia].
  - reflexivity.
  - intros H. inversion H as [|x l Hx _]; subst. lra.
Qed.

(** ** The pyramid on an image without a channel axis *)

Lemma decimate_rank2 a H W : shape a = [H; W] -> decimate a = Raise IndexError.
Proof. intros Hs. unfold decimate. now rewrite Hs. Qed.

(** C1, at a failing input: on a 2-by-2 image without a channel axis, which
    the docstring of [construct_laplacian] admits (dimensions HxW[xC]) and
    whose sides are divisible by [2^(2-1)], the construction with two levels
    passes the assertion and then raises [IndexError] at
    [blurImg[::2, ::2, :]], so there is no pyramid to reconstruct from. *)
Theorem construct_laplacian_grayscale_fails :
  construct_laplacian (mk_ndarray float64 [2; 2]%nat [1; 2; 3; 4]) 2 =
  Raise IndexError.
Proof.
  unfold construct_laplacian. cbn [shape]. 
  change ((2 mod 2 ^ (2 - 1) =? 0) && (2 mod 2 ^ (2 - 1) =? 0))%nat with true.
  cbv iota. unfold range_up. cbn [Nat.sub seq for_each list_get nth_error bind].
  destruct (cross_correlation_2d_ok
              (mk_ndarray float64 [2; 2]%nat [1; 2; 3; 4]) blur_1d 1 5)
    as (r & Er & _ & _ & Hsr); [reflexivity | discriminate | reflexivity |].
  destruct (cross_correlation_2d_ok r (transpose blur_1d) 5 1)
    as (r' & Er' & _ & _ & Hsr');
    [reflexivity | destruct (dt r); discriminate
    | unfold correlates; now rewrite Hsr |].
  unfold separable_filter. rewrite Er. cbn [bind]. rewrite Er'. cbn [bind].
  cbn [shape] in Hsr.
  rewrite (decimate_rank2 r' 2 2) by congruence. reflexivity.
Qed.

(** ** Properties kept by loops *)

Lemma set_item_dt a idx v a' : set_item a idx v = Ok a' -> dt a' = dt a.
Proof.
  unfold set_item. destruct in_range; [|discriminate].
  now intros H; injection H as <-.
Qed.

Lemma cross_correlation_2d_dt img kernel out :
  cross_correlation_2d img kernel = Ok out -> dt out = float64.
Proof.
  unfold cross_correlation_2d.
  destruct (shape img) as [|h [|w [|c [|c' r]]]];
    try (intros H; injection H as <-; reflexivity);
    destruct (shape kernel) as [|m [|n [|n' r']]]; try discriminate.
  - apply (for_each_preserve (fun a => dt a = float64)); [|reflexivity].
    intros i s s' Hs.
    apply (for_each_preserve (fun a => dt a = float64)); [|assumption].
    clear. intros j s s' Hs H.
    apply bind_ok in H as (p & _ & H).
    apply set_item_dt in H. congruence.
  - apply (for_each_preserve (fun a => dt a = float64)); [|reflexivity].
    intros i s s' Hs.
    apply (for_each_preserve (fun a => dt a = float64)); [|assumption].
    clear. intros j s s' Hs H.
    apply bind_ok in H as (x0 & _ & H). apply bind_ok in H as (p0 & _ & H).
    apply bind_ok in H as (o0 & E0 & H). apply set_item_dt in E0.
    apply bind_ok in H as (x1 & _ & H). apply bind_ok in H as (p1 & _ & H).
    apply bind_ok in H as (o1 & E1 & H). apply set_item_dt in E1.
    apply bind_ok in H as (x2 & _ & H). apply bind_ok in H as (p2 & _ & H).
    apply set_item_dt in H. congruence.
Qed.

Lemma separable_filter_dt img k out :
  separable_filter img k = Ok out -> dt out = float64.
Proof.
  unfold separable_filter. intros H. apply bind_ok in H as (r & _ & H).
  now apply cross_correlation_2d_dt in H.
Qed.

Lemma decimate_dt a b : decimate a = Ok b -> dt b = dt a.
Proof.
  unfold decimate. destruct (shape a) as [|h [|w [|c r]]]; try discriminate.
  now intros H; injection H as <-.
Qed.

(** ** Samples that fit their type *)

Lemma samples_valid_float a : dt a <> uint8 -> samples_valid a.
Proof. intros H H'. contradiction. Qed.

Lemma cast_uint8_byte x :
  exists z, cast uint8 x = IZR z /\ (0 <= z <= 255)%Z.
Proof.
  exists (Rtrunc x mod 256)%Z. split; [reflexivity|].
  pose proof (Z.mod_pos_bound (Rtrunc x) 256). lia.
Qed.

Lemma samples_valid_build_cast d sh f :
  samples_valid (build d sh (fun idx => cast d (f idx))).
Proof.
  intros Hd. cbn [dt build] in Hd. subst d. cbn [data build].
  apply Forall_forall. intros x Hx. apply in_map_iff in Hx as (k & <- & _).
  apply cast_uint8_byte.
Qed.

Lemma binop_valid f a b c : binop f a b = Ok c -> samples_valid c.
Proof.
  unfold binop. destruct broadcast_shapes; [|discriminate].
  intros H; injection H as <-. apply samples_valid_build_cast.
Qed.

Lemma list_get_ok {A} (l : list A) i a :
  list_get l i = Ok a -> nth_error l i = Some a.
Proof. unfold list_get. destruct nth_error; congruence. Qed.

Lemma list_get_nth {A} (l : list A) i a :
  nth_error l i = Some a -> list_get l i = Ok a.
Proof. unfold list_get. now intros ->. Qed.

Lemma list_get_in {A} (l : list A) i a : list_get l i = Ok a -> In a l.
Proof. intros H. apply list_get_ok in H. eapply nth_error_In; eauto. Qed.

Lemma construct_laplacian_valid img levels pyr :
  samples_valid img ->
  construct_laplacian img levels = Ok pyr ->
  Forall samples_valid pyr.
Proof.
  intros Hv. unfold construct_laplacian.
  destruct (shape img) as [|h [|w r]]; try discriminate.
  destruct (_ && _)%bool; [|discriminate].
  intros H. apply bind_ok in H as (gau & Eg & H).
  apply bind_ok in H as (top & Et & H).
  assert (Hg : Forall samples_valid gau).
  { revert Eg.
    apply (for_each_preserve (Forall samples_valid));
      [|constructor; [assumption | constructor]].
    intros i s s' Hs Hb.
    apply bind_ok in Hb as (prev & _ & Hb).
    apply bind_ok in Hb as (blur & Eb & Hb).
    apply bind_ok in Hb as (dec & Ed & Hb).
    injection Hb as <-.
    apply Forall_app. split; [assumption|]. constructor; [|constructor].
    apply samples_valid_float.
    rewrite (decimate_dt _ _ Ed), (separable_filter_dt _ _ _ Eb).
    discriminate. }
  revert H. apply (for_each_preserve (Forall samples_valid)).
  - intros i s s' Hs Hb.
    apply bind_ok in Hb as (cur & _ & Hb).
    apply bind_ok in Hb as (up & _ & Hb).
    apply bind_ok in Hb as (prev & _ & Hb).
    apply bind_ok in Hb as (d & Ed & Hb).
    injection Hb as <-. constructor; [|assumption].
    eapply binop_valid; eauto.
  - constructor; [|constructor].
    eapply Forall_forall; [exact Hg|]. eapply list_get_in; eauto.
Qed.

(** ** Weights that are all the integer 1 *)

Lemma ndarray_eta a : mk_ndarray (dt a) (shape a) (data a) = a.
Proof. now destruct a. Qed.

Lemma map_id_in {A} (f : A -> A) l :
  (forall x, In x l -> f x = x) -> map f l = l.
Proof.
  induction l as [|x l IH]; simpl; intros H; [reflexivity|].
  rewrite H by now left. f_equal. apply IH. intros; apply H; now right.
Qed.

Lemma inplace_mul_one a :
  samples_valid a -> inplace_scalar_op Rmult a (PyInt 1) = Ok a.
Proof.
  intros Hv. unfold inplace_scalar_op, samples_valid in *.
  assert (Hm : map (fun x => cast (dt a) (x * scalar_value (PyInt 1))) (data a)
               = data a).
  { apply map_id_in. intros x Hx. cbn [scalar_value]. rewrite Rmult_1_r.
    destruct (dt a) eqn:Hd; try reflexivity.
    specialize (Hv eq_refl). rewrite Forall_forall in Hv.
    destruct (Hv x Hx) as (z & -> & Hz).
    rewrite cast_uint8_IZR, Z.mod_small by lia. reflexivity. }
  assert (Hf : scalar_fits (dt a) (PyInt 1) = true)
    by (destruct (dt a); reflexivity).
  destruct (dt a) eqn:Hd; rewrite Hf, Hm, <- Hd; f_equal; apply ndarray_eta.
Qed.

Lemma list_set_same {A} (l : list A) i a :
  nth_error l i = Some a -> list_set i a l = l.
Proof.
  revert i; induction l as [|x l IH]; intros [|i] H; simpl in *;
    try discriminate.
  - now injection H as ->.
  - f_equal. auto.
Qed.

Lemma unit_weights_loop pyr :
  Forall samples_valid pyr ->
  for_each (range (length pyr)) (fun lev copy_pyr =>
    a <- list_get copy_pyr lev ;;
    w <- list_get (repeat (PyInt 1) (length pyr)) lev ;;
    a <- inplace_scalar_op Rmult a w ;;
    Ok (list_set lev a copy_pyr)) pyr = Ok pyr.
Proof.
  intros Hv.
  destruct (for_each_range_inv (fun _ c => c = pyr)
    (fun lev copy_pyr =>
       a <- list_get copy_pyr lev ;;
       w <- list_get (repeat (PyInt 1) (length pyr)) lev ;;
       a <- inplace_scalar_op Rmult a w ;;
       Ok (list_set lev a copy_pyr))
    (length pyr) pyr eq_refl) as (c & E & ->); [|exact E].
  intros i s Hi ->.
  destruct (nth_error pyr i) as [a|] eqn:Ha;
    [|apply nth_error_None in Ha; lia].
  rewrite (list_get_nth _ _ _ Ha). cbn [bind].
  rewrite (list_get_nth _ i (PyInt 1)) by (now apply nth_error_repeat).
  cbn [bind]. rewrite inplace_mul_one.
  - cbn [bind]. rewrite (list_set_same _ _ _ Ha). eauto.
  - rewrite Forall_forall in Hv. apply Hv. eapply nth_error_In; eauto.
Qed.

(** C9: for every pyramid that [construct_laplacian] returns (for an image
    whose samples fit its element type), reconstruction with the weights
    [[1] * levels], [levels] being the length of the pyramid, gives exactly
    what reconstruction without weights gives. *)
Theorem reconstruct_laplacian_unit_weights img levels pyr :
  samples_valid img ->
  construct_laplacian img levels = Ok pyr ->
  reconstruct_laplacian pyr (Some (repeat (PyInt 1) (length pyr))) =
  reconstruct_laplacian pyr None.
Proof.
  intros Hv Hc.
  pose proof (construct_laplacian_valid img levels pyr Hv Hc) as Hp.
  unfold reconstruct_laplacian.
  destruct (list_get pyr (length pyr - 1)) as [last|e]; [|reflexivity].
  cbn [bind]. destruct (shape last) as [|fh [|fw r]]; try reflexivity.
  rewrite (unit_weights_loop pyr Hp). reflexivity.
Qed.

(** ** Steps over the store *)

Lemma bindM_ok {A B} (m : M A) (k : A -> M B) s b s'' :
  bindM m k s = Ok (b, s'') ->
  exists a s', m s = Ok (a, s') /\ k a s' = Ok (b, s'').
Proof.
  unfold bindM. destruct (m s) as [[a s']|e]; [|discriminate]. eauto.
Qed.

Lemma lift_ok {A} (r : result A) s a s' :
  lift r s = Ok (a, s') -> r = Ok a /\ s' = s.
Proof.
  unfold lift. destruct r; [|discriminate].
  intros H; injection H as <- <-. auto.
Qed.

Lemma alloc_ok a s l s' :
  alloc a s = Ok (l, s') -> l = length s /\ s' = s ++ [a].
Proof. unfold alloc. intros H; injection H as <- <-. auto. Qed.

Lemma load_ok l s a s' : load l s = Ok (a, s') -> s' = s.
Proof. unfold load. intros H; injection H as _ <-. reflexivity. Qed.

Lemma write_ok l a s u s' : write l a s = Ok (u, s') -> s' = list_set l a s.
Proof. unfold write. intros H; injection H as _ <-. reflexivity. Qed.

Lemma ret_ok {A} (a : A) s b s' : ret a s = Ok (b, s') -> b = a /\ s' = s.
Proof. unfold ret. intros H; injection H as <- <-. auto. Qed.

Lemma for_each_M_preserve {X} (P : X -> store -> Prop) l
  (body : nat -> X -> M X) :
  (forall i x s x' s', P x s -> body i x s = Ok (x', s') -> P x' s') ->
  forall x s x' s', P x s -> for_each_M l body x s = Ok (x', s') -> P x' s'.
Proof.
  intros Hb x s x' s' H0 H. unfold for_each_M in H.
  apply (for_each_preserve (fun xs => P (fst xs) (snd xs)) l _) in H;
    [exact H | | exact H0].
  intros i [x1 s1] [x2 s2] H1 H2. simpl in *. eauto.
Qed.

Lemma keeps_refl n s : keeps n s s.
Proof. split; auto. Qed.

Lemma keeps_trans n s1 s2 s3 : keeps n s1 s2 -> keeps n s2 s3 -> keeps n s1 s3.
Proof. intros [E1 L1] [E2 L2]. split; [congruence | lia]. Qed.

Lemma keeps_alloc n s a : (n <= length s)%nat -> keeps n s (s ++ [a]).
Proof.
  intros H. split.
  - rewrite firstn_app. replace (n - length s)%nat with 0%nat by lia.
    simpl. apply app_nil_r.
  - rewrite length_app. lia.
Qed.

Lemma firstn_list_set {A} n l (a : A) s :
  (n <= l)%nat -> firstn n (list_set l a s) = firstn n s.
Proof.
  revert n l; induction s as [|x s IH]; intros [|n] [|l] H; simpl;
    try reflexivity; try lia.
  f_equal. apply IH. lia.
Qed.

Lemma keeps_write n s l a : (n <= l)%nat -> keeps n s (list_set l a s).
Proof.
  intros H. split; [now apply firstn_list_set|].
  now rewrite length_list_set.
Qed.

Lemma keeps_length n s0 s : (n <= length s0)%nat -> keeps n s0 s -> (n <= length s)%nat.
Proof. intros H [_ L]. lia. Qed.


(** One step of a run over the store, inverted. *)
Ltac step_M H :=
  match type of H with
  | bindM (lift _) _ _ = Ok _ =>
      let a := fresh "a" in let s := fresh "s" in
      let E := fresh "E" in let Es := fresh "Es" in
      apply bindM_ok in H as (a & s & E & H);
      apply lift_ok in E as (E & Es); subst s
  | bindM (load _) _ _ = Ok _ =>
      let a := fresh "a" in let s := fresh "s" in let E := fresh "E" in
      apply bindM_ok in H as (a & s & E & H);
      apply load_ok in E; subst s
  | bindM (alloc _) _ _ = Ok _ =>
      let a := fresh "l" in let s := fresh "s" in
      let E := fresh "E" in let Es := fresh "Es" in
      apply bindM_ok in H as (a & s & E & H);
      apply alloc_ok in E as (E & Es); subst s
  | bindM (write _ _) _ _ = Ok _ =>
      let a := fresh "u" in let s := fresh "s" in let E := fresh "E" in
      apply bindM_ok in H as (a & s & E & H);
      apply write_ok in E; subst s
  | ret _ _ = Ok _ =>
      let E := fresh "E" in let Es := fresh "Es" in
      apply ret_ok in H as (E & Es)
  end.

(** ** What the pyramid functions do to the caller's buffers *)

Lemma construct_laplacian_st_frame img levels s lap s' :
  construct_laplacian_st img levels s = Ok (lap, s') ->
  keeps (length s) s s' /\
  ((2 <= levels)%nat -> Forall (fun l => (length s <= l)%nat) lap) /\
  ((levels <= 1)%nat -> lap = [img] /\ s' = s).
Proof.
  unfold construct_laplacian_st. intros H. step_M H.
  destruct (shape a) as [|h [|w r]];
    try (apply lift_ok in H as [H _]; discriminate).
  destruct (_ && _)%bool; [|apply lift_ok in H as [H _]; discriminate].
  apply bindM_ok in H as (gau & s1 & Eg & H).
  set (n := length s) in *.
  assert (Hg : keeps n s s1 /\
               exists rest, gau = img :: rest /\
                            Forall (fun l => (n <= l)%nat) rest).
  { revert Eg.
    apply (for_each_M_preserve (fun x st =>
             keeps n s st /\
             exists rest, x = img :: rest /\
                          Forall (fun l => (n <= l)%nat) rest)).
    - intros i x st x' st' (Hk & rest & -> & Hr) Hb.
      repeat step_M Hb. subst x' st' l l0.
      pose proof (keeps_length n s st (Nat.le_refl _) Hk) as Hn.
      split.
      + eapply keeps_trans; [exact Hk|].
        eapply keeps_trans; apply keeps_alloc; [lia|].
        rewrite length_app; simpl; lia.
      + eexists. split; [apply app_comm_cons|].
        apply Forall_app. split; [assumption|].
        constructor; [|constructor]. rewrite length_app; simpl; lia.
    - split; [apply keeps_refl|]. exists []. split; [reflexivity | constructor]. }
  destruct Hg as (Hk1 & rest & -> & Hrest).
  apply bindM_ok in H as (top & s2 & E0 & H).
  apply lift_ok in E0 as (E0 & ->).
  assert (Hlap : keeps n s s' /\
            Forall (fun l => (n <= l)%nat \/ ((levels <= 1)%nat /\ l = img)) lap).
  { revert H.
    apply (for_each_M_preserve (fun x st =>
             keeps n s st /\
             Forall (fun l => (n <= l)%nat \/ ((levels <= 1)%nat /\ l = img)) x)).
    - intros i x st x' st' (Hk & Hx) Hb.
      repeat step_M Hb. subst x' st' l l0.
      pose proof (keeps_length n s st (Nat.le_refl _) Hk) as Hn.
      split.
      + eapply keeps_trans; [exact Hk|].
        eapply keeps_trans; apply keeps_alloc; [lia|].
        rewrite length_app; simpl; lia.
      + constructor; [|assumption]. left. rewrite length_app; simpl; lia.
    - split; [assumption|]. constructor; [|constructor].
      apply list_get_ok in E0.
      destruct (levels - 1)%nat as [|k] eqn:Hl; simpl in E0.
      + injection E0 as <-. right. split; [lia | reflexivity].
      + left. rewrite Forall_forall in Hrest. apply Hrest.
        eapply nth_error_In; eauto. }
  destruct Hlap as (Hk & Hl). split; [assumption|]. split.
  - intros H2. eapply Forall_impl; [|exact Hl].
    intros l [Hf | [Hc _]]; [assumption | lia].
  - intros H1. clear Hl Hk.
    unfold range_up, range_down in *.
    replace (levels - 1)%nat with 0%nat in * by lia.
    unfold for_each_M in *. simpl in Eg, H.
    injection Eg as <- <-. apply list_get_ok in E0. simpl in E0.
    injection E0 as <-. injection H as <- <-. auto.
Qed.

Lemma memo_find_fresh n l memo l' :
  Forall (fun kv => (n <= snd kv)%nat) memo ->
  memo_find l memo = Some l' -> (n <= l')%nat.
Proof.
  induction memo as [|[k v] memo IH]; simpl; intros Hm H; [discriminate|].
  inversion Hm as [|? ? Hv Hm']; subst.
  destruct (k =? l)%nat; [injection H as <-; exact Hv | auto].
Qed.

Lemma deepcopy_frame n pyr :
  forall memo s c s',
    (n <= length s)%nat ->
    Forall (fun kv => (n <= snd kv)%nat) memo ->
    deepcopy pyr memo s = Ok (c, s') ->
    keeps n s s' /\ Forall (fun l => (n <= l)%nat) c.
Proof.
  induction pyr as [|l pyr IH]; intros memo s c s' Hn Hm H; simpl in H.
  - apply ret_ok in H as (-> & ->). split; [apply keeps_refl | constructor].
  - destruct (memo_find l memo) as [l'|] eqn:Hf.
    + apply bindM_ok in H as (rest & s1 & Er & H).
      apply ret_ok in H as (-> & ->).
      destruct (IH _ _ _ _ Hn Hm Er) as (Hk & Hr).
      split; [assumption|]. constructor; [|assumption].
      eapply memo_find_fresh; eauto.
    + apply bindM_ok in H as (a & s1 & Ea & H). apply load_ok in Ea. subst s1.
      apply bindM_ok in H as (l' & s1 & El & H).
      apply alloc_ok in El as (-> & ->).
      apply bindM_ok in H as (rest & s2 & Er & H).
      apply ret_ok in H as (-> & ->).
      destruct (IH _ _ _ _
                  (Nat.le_trans _ _ _ Hn
                     (proj2 (keeps_alloc n s a Hn))) 
                  (Forall_cons (l, length s) Hn Hm) Er) as (Hk & Hr).
      split.
      * eapply keeps_trans; [apply keeps_alloc; assumption | exact Hk].
      * constructor; assumption.
Qed.

Lemma accumulate_st_frame s0 copy s c s' :
  keeps (length s0) s0 s ->
  Forall (fun l => (length s0 <= l)%nat) copy ->
  accumulate_st copy s = Ok (c, s') ->
  keeps (length s0) s0 s' /\ Forall (fun l => (length s0 <= l)%nat) c.
Proof.
  intros Hk Hc. unfold accumulate_st.
  apply (for_each_M_preserve (fun x st =>
           keeps (length s0) s0 st /\
           Forall (fun l => (length s0 <= l)%nat) x));
    [|split; assumption].
  clear. intros i x st x' st' (Hk & Hx) Hb.
  apply bindM_ok in Hb as (c & s1 & E & Hb). apply lift_ok in E as (Ec & ->).
  apply bindM_ok in Hb as (cur & s1 & E & Hb). apply load_ok in E. subst s1.
  apply bindM_ok in Hb as (f & s1 & E & Hb). apply lift_ok in E as (Ef & ->).
  apply bindM_ok in Hb as (first & s1 & E & Hb). apply load_ok in E. subst s1.
  apply bindM_ok in Hb as (up & s1 & E & Hb). apply lift_ok in E as (Eu & ->).
  apply bindM_ok in Hb as (lu & s1 & E & Hb). apply alloc_ok in E as (-> & ->).
  apply bindM_ok in Hb as (p & s1 & E & Hb). apply lift_ok in E as (Ep & ->).
  apply bindM_ok in Hb as (prev & s1 & E & Hb). apply load_ok in E. subst s1.
  apply bindM_ok in Hb as (prev' & s1 & E & Hb). apply lift_ok in E as (Ei & ->).
  apply bindM_ok in Hb as (u & s1 & E & Hb). apply write_ok in E. subst s1.
  apply ret_ok in Hb as (-> & ->).
  split; [|assumption].
  assert (Hp : (length s0 <= p)%nat).
  { rewrite Forall_forall in Hx. apply Hx. eapply list_get_in; eauto. }
  pose proof (proj2 Hk) as Hl.
  eapply keeps_trans; [exact Hk|].
  eapply keeps_trans; [apply keeps_alloc; exact Hl|].
  now apply keeps_write.
Qed.

Lemma weights_loop_frame s0 weights n copy s c s' :
  keeps (length s0) s0 s ->
  Forall (fun l => (length s0 <= l)%nat) copy ->
  for_each_M (range n) (fun lev copy_pyr =>
    l <~ lift (list_get copy_pyr lev) ;;
    a <~ load l ;;
    w <~ lift (list_get weights lev) ;;
    a <~ lift (inplace_scalar_op Rmult a w) ;;
    _ <~ write l a ;;
    ret copy_pyr) copy s = Ok (c, s') ->
  keeps (length s0) s0 s' /\ Forall (fun l => (length s0 <= l)%nat) c.
Proof.
  intros Hk Hc.
  apply (for_each_M_preserve (fun x st =>
           keeps (length s0) s0 st /\
           Forall (fun l => (length s0 <= l)%nat) x));
    [|split; assumption].
  clear. intros i x st x' st' (Hk & Hx) Hb.
  apply bindM_ok in Hb as (l & s1 & E & Hb). apply lift_ok in E as (El & ->).
  apply bindM_ok in Hb as (a & s1 & E & Hb). apply load_ok in E. subst s1.
  apply bindM_ok in Hb as (w & s1 & E & Hb). apply lift_ok in E as (Ew & ->).
  apply bindM_ok in Hb as (a' & s1 & E & Hb). apply lift_ok in E as (Ea & ->).
  apply bindM_ok in Hb as (u & s1 & E & Hb). apply write_ok in E. subst s1.
  apply ret_ok in Hb as (-> & ->).
  split; [|assumption].
  eapply keeps_trans; [exact Hk|]. apply keeps_write.
  rewrite Forall_forall in Hx. apply Hx. eapply list_get_in; eauto.
Qed.

Lemma reconstruct_laplacian_st_frame pyr weights s r s' :
  reconstruct_laplacian_st pyr weights s = Ok (r, s') ->
  keeps (length s) s s' /\ (length s <= r)%nat.
Proof.
  unfold reconstruct_laplacian_st. intros H.
  apply bindM_ok in H as (copy & s1 & Ec & H).
  destruct (deepcopy_frame (length s) pyr [] s copy s1 (Nat.le_refl _)
              (Forall_nil _) Ec) as (Hk1 & Hc1).
  apply bindM_ok in H as (l & s2 & E & H). apply lift_ok in E as (El & ->).
  apply bindM_ok in H as (last & s2 & E & H). apply load_ok in E. subst s2.
  destruct (shape last) as [|fh [|fw sh]];
    try (apply lift_ok in H as [H _]; discriminate).
  apply bindM_ok in H as (copy' & s2 & Ea & H).
  apply lift_ok in H as (Er & ->).
  assert (Hfin : keeps (length s) s s2 /\
                 Forall (fun l => (length s <= l)%nat) copy').
  { destruct weights as [weights|].
    - apply bindM_ok in Ea as (copy2 & s3 & Ew & Ea).
      destruct (weights_loop_frame s weights _ copy s1 copy2 s3 Hk1 Hc1 Ew)
        as (Hk2 & Hc2).
      exact (accumulate_st_frame s copy2 s3 copy' s2 Hk2 Hc2 Ea).
    - exact (accumulate_st_frame s copy s1 copy' s2 Hk1 Hc1 Ea). }
  destruct Hfin as (Hk & Hc). split; [assumption|].
  rewrite Forall_forall in Hc. apply Hc. eapply list_get_in; eauto.
Qed.

(** ** One level of the pyramid *)

Lemma separable_filter_ok img k n :
  shape k = [1%nat; n] ->
  promote (dt k) (dt img) <> uint8 ->
  correlates img = true ->
  exists out,
    separable_filter img k = Ok out /\
    wf out /\ dt out = float64 /\ shape out = shape img.
Proof.
  intros Hk Hd Hc. unfold separable_filter.
  destruct (cross_correlation_2d_ok img k 1 n Hk Hd Hc)
    as (r & Er & Hwr & Hdr & Hsr).
  destruct (cross_correlation_2d_ok r (transpose k) n 1
              (shape_transpose2 _ _ _ Hk))
    as (o & Eo & Hwo & Hdo & Hso).
  - rewrite Hdr. apply promote_float64_r.
  - unfold correlates in *. now rewrite Hsr.
  - rewrite Er. cbn [bind]. exists o. repeat split; congruence.
Qed.

Lemma strip_ones_rank3 h w c : strip_ones [h; w; c] 3 = [h; w; c].
Proof. destruct h as [|[|h]]; reflexivity. Qed.

Lemma stride_len h io : (io < 2)%nat -> ((2 * h - io + 1) / 2)%nat = h.
Proof.
  intros H.
  pose proof (Nat.div_mod_eq (2 * h - io + 1) 2).
  pose proof (Nat.mod_upper_bound (2 * h - io + 1) 2).
  lia.
Qed.

Lemma assign_stride2_ok up io jo src h w :
  shape up = [2 * h; 2 * w; 3]%nat -> shape src = [h; w; 3%nat] ->
  (io < 2)%nat -> (jo < 2)%nat ->
  exists up',
    assign_stride2 up io jo src = Ok up' /\
    wf up' /\ dt up' = dt up /\ shape up' = shape up.
Proof.
  intros Hu Hs Hio Hjo. unfold assign_stride2.
  rewrite Hu, Hs, strip_ones_rank3. cbn [nth].
  rewrite !stride_len by assumption.
  rewrite broadcast_shapes_same.
  destruct (list_eq_dec Nat.eq_dec [h; w; 3%nat] [h; w; 3%nat]);
    [|congruence].
  eexists; split; [reflexivity|].
  split; [apply wf_build|]. split; reflexivity.
Qed.

Lemma upsample_ok cur d h w :
  shape cur = [h; w; 3%nat] ->
  exists u,
    upsample cur d = Ok u /\
    wf u /\ dt u = d /\ shape u = [2 * h; 2 * w; 3]%nat.
Proof.
  intros Hs. unfold upsample. rewrite Hs.
  destruct (assign_stride2_ok (zeros d [2 * h; 2 * w; 3]%nat) 0 0 cur h w)
    as (u0 & E0 & _ & Hd0 & Hs0); [reflexivity | assumption | lia | lia |].
  change (shape u0 = [2 * h; 2 * w; 3]%nat) in Hs0.
  change (dt u0 = d) in Hd0.
  destruct (assign_stride2_ok u0 0 1 cur h w)
    as (u1 & E1 & _ & Hd1 & Hs1); [assumption | assumption | lia | lia |].
  destruct (assign_stride2_ok u1 1 0 cur h w)
    as (u2 & E2 & _ & Hd2 & Hs2); [congruence | assumption | lia | lia |].
  destruct (assign_stride2_ok u2 1 1 cur h w)
    as (u3 & E3 & Hw3 & Hd3 & Hs3); [congruence | assumption | lia | lia |].
  rewrite E0; cbn [bind]. rewrite E1; cbn [bind]. rewrite E2; cbn [bind].
  exists u3. split; [exact E3|]. split; [assumption|].
  split; congruence.
Qed.

Lemma reshape_same a : reshape a (shape a) = a.
Proof. now destruct a. Qed.

Lemma get_assign_stride2 up io jo src h w up' y x c :
  shape up = [2 * h; 2 * w; 3]%nat -> shape src = [h; w; 3%nat] ->
  (io < 2)%nat -> (jo < 2)%nat ->
  assign_stride2 up io jo src = Ok up' ->
  (y < 2 * h)%nat -> (x < 2 * w)%nat -> (c < 3)%nat ->
  get up' [y; x; c] =
  if ((y mod 2 =? io) && (x mod 2 =? jo))%nat
  then cast (dt up) (get src [(y / 2)%nat; (x / 2)%nat; c])
  else get up [y; x; c].
Proof.
  intros Hu Hs Hio Hjo E Hy Hx Hc.
  assert (Hy2 : (y / 2 < h)%nat) by (apply Nat.Div0.div_lt_upper_bound; lia).
  assert (Hx2 : (x / 2 < w)%nat) by (apply Nat.Div0.div_lt_upper_bound; lia).
  unfold assign_stride2 in E.
  rewrite Hu, Hs, strip_ones_rank3 in E. cbn [nth] in E.
  rewrite !stride_len in E by assumption.
  rewrite broadcast_shapes_same in E.
  destruct (list_eq_dec Nat.eq_dec [h; w; 3%nat] [h; w; 3%nat]);
    [|congruence].
  injection E as <-.
  rewrite get_build by (apply in_range3; assumption).
  destruct (_ && _)%bool; [|reflexivity].
  rewrite <- Hs, reshape_same, Hs.
  rewrite bindex_same; [reflexivity|].
  apply in_range3; assumption.
Qed.

(** Nearest-neighbour upsampling: output pixel [(y, x)] is source pixel
    [(y/2, x/2)], in each of the three channels. *)
Lemma get_upsample cur d h w u y x c :
  shape cur = [h; w; 3%nat] -> upsample cur d = Ok u ->
  (y < 2 * h)%nat -> (x < 2 * w)%nat -> (c < 3)%nat ->
  get u [y; x; c] = cast d (get cur [(y / 2)%nat; (x / 2)%nat; c]).
Proof.
  intros Hs E Hy Hx Hc. unfold upsample in E. rewrite Hs in E.
  apply bind_ok in E as (u0 & E0 & E).
  apply bind_ok in E as (u1 & E1 & E).
  apply bind_ok in E as (u2 & E2 & E).
  destruct (assign_stride2_ok (zeros d [2 * h; 2 * w; 3]%nat) 0 0 cur h w)
    as (u0' & E0' & _ & Hd0 & Hs0); [reflexivity | assumption | lia | lia |].
  assert (u0' = u0) by congruence. subst u0'.
  change (shape u0 = [2 * h; 2 * w; 3]%nat) in Hs0.
  change (dt u0 = d) in Hd0.
  destruct (assign_stride2_ok u0 0 1 cur h w)
    as (u1' & E1' & _ & Hd1 & Hs1); [assumption | assumption | lia | lia |].
  assert (u1' = u1) by congruence. subst u1'.
  destruct (assign_stride2_ok u1 1 0 cur h w)
    as (u2' & E2' & _ & Hd2 & Hs2); [congruence | assumption | lia | lia |].
  assert (u2' = u2) by congruence. subst u2'.
  rewrite (get_assign_stride2 u2 1 1 cur h w u y x c)
    by (congruence || assumption || lia).
  rewrite (get_assign_stride2 u1 1 0 cur h w u2 y x c)
    by (congruence || assumption || lia).
  rewrite (get_assign_stride2 u0 0 1 cur h w u1 y x c)
    by (congruence || assumption || lia).
  rewrite (get_assign_stride2 (zeros d [2 * h; 2 * w; 3]%nat) 0 0 cur h w
             u0 y x c)
    by (reflexivity || assumption || lia).
  rewrite Hd2, Hd1, Hd0. cbn [dt zeros build].
  pose proof (Nat.mod_upper_bound y 2). pose proof (Nat.mod_upper_bound x 2).
  destruct (y mod 2)%nat as [|[|?]]; destruct (x mod 2)%nat as [|[|?]];
    try lia; reflexivity.
Qed.

(** A single pixel is replicated into all four positions of a 2-by-2 block. *)
Example upsample_single_pixel :
  upsample (mk_ndarray float64 [1; 1; 3]%nat [1; 2; 3]) float64 =
  Ok (mk_ndarray float64 [2; 2; 3]%nat
        [1; 2; 3; 1; 2; 3; 1; 2; 3; 1; 2; 3]).
Proof. cbv -[Rmult Rplus IZR]. reflexivity. Qed.

Lemma get_in_data a idx :
  wf a -> in_range (shape a) idx = true -> In (get a idx) (data a).
Proof.
  intros Hw Hi. unfold get. apply nth_In. rewrite Hw. now apply ravel_lt.
Qed.

Lemma samples_valid_get a idx :
  wf a -> samples_valid a -> dt a = uint8 ->
  in_range (shape a) idx = true ->
  exists z, get a idx = IZR z /\ (0 <= z <= 255)%Z.
Proof.
  intros Hw Hv Hd Hi. specialize (Hv Hd). rewrite Forall_forall in Hv.
  apply Hv. now apply get_in_data.
Qed.

Lemma samples_valid_zeros d sh : samples_valid (zeros d sh).
Proof.
  intros _. unfold zeros, build; cbn [data].
  apply Forall_forall. intros x Hx. apply in_map_iff in Hx as (k & <- & _).
  exists 0%Z. split; [reflexivity | lia].
Qed.

Lemma assign_stride2_valid up io jo src up' :
  wf up -> samples_valid up ->
  assign_stride2 up io jo src = Ok up' -> samples_valid up'.
Proof.
  intros Hw Hv. unfold assign_stride2.
  destruct broadcast_shapes; [|discriminate].
  destruct list_eq_dec; [|discriminate].
  intros H; injection H as <-. intros Hd. cbn [dt build] in Hd.
  cbn [data build]. apply Forall_forall. intros x Hx.
  apply in_map_iff in Hx as (k & <- & Hk). apply in_seq in Hk.
  assert (Hin : in_range (shape up) (unravel (shape up) k) = true)
    by (apply in_range_unravel; lia).
  pose proof (samples_valid_get up _ Hw Hv Hd Hin) as Hold.
  destruct (unravel (shape up) k) as [|y [|x [|c [|c' r]]]]; try exact Hold.
  destruct (_ && _)%bool; [|exact Hold].
  rewrite Hd. apply cast_uint8_byte.
Qed.

Lemma assign_stride2_wf up io jo src up' :
  assign_stride2 up io jo src = Ok up' -> wf up'.
Proof.
  unfold assign_stride2.
  destruct broadcast_shapes; [|discriminate].
  destruct list_eq_dec; [|discriminate].
  intros H; injection H as <-. apply wf_build.
Qed.

Lemma upsample_valid cur d u : upsample cur d = Ok u -> samples_valid u.
Proof.
  unfold upsample. destruct (shape cur) as [|H [|W r]]; try discriminate.
  intros H0.
  apply bind_ok in H0 as (u0 & E0 & H0).
  apply bind_ok in H0 as (u1 & E1 & H0).
  apply bind_ok in H0 as (u2 & E2 & H0).
  pose proof (assign_stride2_valid _ _ _ _ _ (wf_zeros _ _)
                (samples_valid_zeros _ _) E0) as V0.
  pose proof (assign_stride2_valid _ _ _ _ _
                (assign_stride2_wf _ _ _ _ _ E0) V0 E1) as V1.
  pose proof (assign_stride2_valid _ _ _ _ _
                (assign_stride2_wf _ _ _ _ _ E1) V1 E2) as V2.
  exact (assign_stride2_valid _ _ _ _ _
           (assign_stride2_wf _ _ _ _ _ E2) V2 H0).
Qed.

Lemma promote_same d : promote d d = d.
Proof. destruct d; reflexivity. Qed.

Lemma uint8_sub_add zg zu :
  (0 <= zg <= 255)%Z ->
  (((zg - zu) mod 256 + zu) mod 256 = zg)%Z.
Proof.
  intros H. rewrite Zplus_mod_idemp_l.
  replace (zg - zu + zu)%Z with zg by lia. apply Z.mod_small. lia.
Qed.

(** Adding in place the upsampled image that was subtracted gives back the
    level, sample for sample: over the reals for a float level, and modulo
    256 for an 8-bit level. *)
Lemma level_round_trip g u lap :
  wf g -> wf u -> shape u = shape g ->
  samples_valid g -> samples_valid u ->
  dt g = float64 \/ dt g = dt u ->
  binop Rminus g u = Ok lap ->
  inplace_binop Rplus lap u = Ok g.
Proof.
  intros Hwg Hwu Hs Hvg Hvu Hd.
  rewrite (binop_same_shape Rminus g u) by congruence.
  intros H; injection H as <-.
  set (dl := promote (dt g) (dt u)).
  assert (Hdl : dl = dt g).
  { unfold dl. destruct Hd as [-> | <-];
      [destruct (dt u); reflexivity | apply promote_same]. }
  unfold inplace_binop. cbn [shape dt build]. rewrite Hs.
  rewrite broadcast_shapes_same.
  destruct (list_eq_dec Nat.eq_dec (shape g) (shape g)); [|congruence].
  replace (is_float (dt u) && negb (is_float dl))%bool with false.
  2:{ rewrite Hdl. destruct Hd as [-> | <-];
        [now rewrite andb_false_r | now destruct (dt g)]. }
  f_equal. symmetry. apply ndarray_ext; try (cbn [shape dt build]; congruence).
  - apply wf_build.
  - intros idx Hi. cbn [shape build].
    rewrite get_build by assumption.
    rewrite get_build by assumption.
    rewrite !bindex_same by assumption.
    destruct dl eqn:Edl; cbn [cast]; try lra.
    assert (Hg8 : dt g = uint8) by congruence.
    assert (Hu8 : dt u = uint8).
    { destruct Hd as [Hd | Hd]; [congruence|]. congruence. }
    destruct (samples_valid_get g idx Hwg Hvg Hg8 Hi) as (zg & -> & Hzg).
    destruct (samples_valid_get u idx Hwu Hvu Hu8) as (zu & -> & Hzu);
      [now rewrite Hs|].
    rewrite <- minus_IZR, Rtrunc_IZR, <- plus_IZR, Rtrunc_IZR.
    now rewrite uint8_sub_add.
Qed.

(** ** The Gaussian pyramid of a three-channel image *)

Lemma correlates_rgb a h w : shape a = [h; w; 3%nat] -> correlates a = true.
Proof. intros H. unfold correlates. now rewrite H. Qed.

Lemma halve_level L H0 i :
  (1 <= i < L)%nat ->
  ((2 ^ (L - 1 - (i - 1)) * H0 + 1) / 2 = 2 ^ (L - 1 - i) * H0)%nat.
Proof.
  intros Hi. replace (L - 1 - (i - 1))%nat with (Datatypes.S (L - 1 - i)) by lia.
  rewrite Nat.pow_succ_r'.
  set (x := (2 ^ (L - 1 - i) * H0)%nat).
  replace (2 * 2 ^ (L - 1 - i) * H0)%nat with (2 * x)%nat by (unfold x; lia).
  pose proof (Nat.div_mod_eq (2 * x + 1) 2).
  pose proof (Nat.mod_upper_bound (2 * x + 1) 2). lia.
Qed.

Lemma gaussian_pyramid_ok img L H0 W0 :
  wf img -> samples_valid img ->
  shape img = level_shape L H0 W0 0 -> (1 <= L)%nat ->
  exists G,
    for_each (range_up L) (fun currLev gau_pyr =>
      prev <- list_get gau_pyr (currLev - 1) ;;
      blurImg <- separable_filter prev blur_1d ;;
      blurImg <- decimate blurImg ;;
      Ok (gau_pyr ++ [blurImg])) [img] = Ok G /\
    gauss_levels img L H0 W0 L G.
Proof.
  intros Hw Hv Hs HL. unfold range_up.
  destruct (for_each_seq_inv (gauss_levels img L H0 W0)
    (fun currLev gau_pyr =>
      prev <- list_get gau_pyr (currLev - 1) ;;
      blurImg <- separable_filter prev blur_1d ;;
      blurImg <- decimate blurImg ;;
      Ok (gau_pyr ++ [blurImg])) (L - 1) 1 [img]) as (G & E & HG).
  - split; [reflexivity|]. split; [reflexivity|].
    intros [|k] g Hk; simpl in Hk; [|destruct k; discriminate].
    injection Hk as <-. repeat split; try assumption. lia.
  - intros i G Hi (Hlen & Hfst & Hall).
    destruct (nth_error G (i - 1)) as [prev|] eqn:Hp;
      [|apply nth_error_None in Hp; lia].
    destruct (Hall _ _ Hp) as (Hwp & Hvp & Hsp & Hdp).
    rewrite (list_get_nth _ _ _ Hp). cbn [bind].
    destruct (separable_filter_ok prev blur_1d 5) as (b & Eb & Hwb & Hdb & Hsb);
      [reflexivity | destruct (dt prev); discriminate
      | eapply correlates_rgb; exact Hsp |].
    rewrite Eb. cbn [bind]. unfold decimate. rewrite Hsb, Hsp.
    unfold level_shape. rewrite !halve_level by lia.
    eexists; split; [reflexivity|].
    split; [rewrite length_app; simpl; lia|].
    split; [rewrite nth_error_app1 by lia; assumption|].
    intros k g Hk.
    destruct (Nat.lt_ge_cases k (length G)) as [Hlt|Hge].
    + rewrite nth_error_app1 in Hk by assumption. now apply Hall.
    + rewrite nth_error_app2 in Hk by assumption.
      destruct (k - length G)%nat as [|k'] eqn:Hk';
        [|destruct k'; discriminate].
      simpl in Hk. injection Hk as <-.
      assert (k = i) by lia. subst k.
      split; [apply wf_build|].
      split; [apply samples_valid_float; cbn [dt build]; rewrite Hdb;
              discriminate|].
      split; [reflexivity|]. intros _. exact Hdb.
  - exists G. split; [exact E|].
    now replace (1 + (L - 1))%nat with L in HG by lia.
Qed.

(** ** The Laplacian pyramid and its accumulation *)

Lemma nth_error_list_set {A} k k' (v : A) l :
  (k < length l)%nat ->
  nth_error (list_set k v l) k' =
  if (k =? k')%nat then Some v else nth_error l k'.
Proof.
  revert k k'; induction l as [|x l IH]; intros [|k] [|k'] H; simpl in *;
    try lia; auto.
  apply IH. lia.
Qed.

Lemma range_down_S j :
  range_down (Datatypes.S (Datatypes.S j)) =
  Datatypes.S j :: range_down (Datatypes.S j).
Proof.
  unfold range_down. simpl Nat.sub. rewrite Nat.sub_0_r.
  rewrite seq_S, rev_app_distr. reflexivity.
Qed.

Lemma double_level L H0 j :
  (Datatypes.S j < L)%nat ->
  (2 ^ (L - 1 - j) * H0 = 2 * (2 ^ (L - 1 - Datatypes.S j) * H0))%nat.
Proof.
  intros Hj. replace (L - 1 - j)%nat with (Datatypes.S (L - 1 - Datatypes.S j)) by lia.
  rewrite Nat.pow_succ_r'. lia.
Qed.

Section ChainOfLevels.

Variables (img : ndarray) (L H0 W0 : nat) (G : list ndarray).
Hypothesis HG : gauss_levels img L H0 W0 L G.

Lemma gauss_levels_pair j :
  (Datatypes.S j < L)%nat ->
  exists g g',
    nth_error G j = Some g /\ nth_error G (Datatypes.S j) = Some g' /\
    wf g /\ samples_valid g /\ ((1 <= j)%nat -> dt g = float64) /\
    (j = 0%nat -> g = img) /\
    (forall d, exists u,
       upsample g' d = Ok u /\ wf u /\ dt u = d /\ shape u = shape g /\
       samples_valid u).
Proof.
  pose proof HG as (Hlen & Hfst & Hall). intros Hj.
  destruct (nth_error G j) as [g|] eqn:Hg;
    [|apply nth_error_None in Hg; lia].
  destruct (nth_error G (Datatypes.S j)) as [g'|] eqn:Hg';
    [|apply nth_error_None in Hg'; lia].
  destruct (Hall _ _ Hg) as (Hwg & Hvg & Hsg & Hdg).
  destruct (Hall _ _ Hg') as (Hwg' & Hvg' & Hsg' & Hdg').
  exists g, g'. repeat split; try assumption.
  - intros ->. congruence.
  - intros d.
    destruct (upsample_ok g' d _ _ Hsg') as (u & Eu & Hwu & Hdu & Hsu).
    exists u. repeat split; try assumption.
    + rewrite Hsu, Hsg. unfold level_shape.
      now rewrite <- !double_level by assumption.
    + eapply upsample_valid; eauto.
Qed.

Lemma laplacian_loop d :
  forall j acc, (1 <= j <= L)%nat ->
    exists ds,
      for_each (range_down j) (fun currLev lap_pyr =>
        currImg <- list_get G currLev ;;
        upImg <- upsample currImg d ;;
        prev <- list_get G (currLev - 1) ;;
        dd <- binop Rminus prev upImg ;;
        Ok (dd :: lap_pyr)) acc = Ok (ds ++ acc) /\
      length ds = (j - 1)%nat /\ lap_levels d G ds j.
Proof.
  induction j as [|j IH]; intros acc Hj; [lia|].
  destruct j as [|j].
  - exists []. split; [reflexivity|]. split; [reflexivity|].
    intros k Hk. lia.
  - rewrite range_down_S. cbn [for_each].
    destruct (gauss_levels_pair j) as
      (g & g' & Hg & Hg' & Hwg & Hvg & Hdg & _ & Hup); [lia|].
    destruct (Hup d) as (u & Eu & Hwu & Hdu & Hsu & Hvu).
    rewrite (list_get_nth _ _ _ Hg'). cbn [bind]. rewrite Eu. cbn [bind].
    simpl Nat.sub. rewrite Nat.sub_0_r.
    rewrite (list_get_nth _ _ _ Hg). cbn [bind].
    rewrite (binop_same_shape Rminus g u) by congruence. cbn [bind].
    set (dd := build _ _ _).
    destruct (IH (dd :: acc)) as (ds & E & Hlen & Hlap); [lia|].
    exists (ds ++ [dd]). split; [now rewrite <- app_assoc|].
    split; [rewrite length_app; simpl in *; lia|].
    intros k Hk. simpl in Hlen. rewrite Nat.sub_0_r in Hlen.
    destruct (Nat.eq_dec k j) as [->|Hne].
    + exists g, g', u, dd. repeat split; try assumption.
      * rewrite nth_error_app2 by lia.
        now replace (j - length ds)%nat with 0%nat by lia.
      * unfold dd. apply binop_same_shape. congruence.
    + destruct (Hlap k) as (a & a' & v & l & Ha & Ha' & Hl & Hv & Hb); [lia|].
      exists a, a', v, l. repeat split; try assumption.
      rewrite nth_error_app1 by lia. assumption.
Qed.

Lemma accumulate_loop :
  forall j C, (1 <= j <= L)%nat ->
    nth_error C (j - 1) = nth_error G (j - 1) ->
    lap_levels (dt img) G C j ->
    (exists c0, nth_error C 0 = Some c0 /\ dt c0 = dt img) ->
    exists C',
      for_each (range_down j) (fun currLev copy_pyr =>
        currImg <- list_get copy_pyr currLev ;;
        first <- list_get copy_pyr 0 ;;
        upImg <- upsample currImg (dt first) ;;
        prev <- list_get copy_pyr (currLev - 1) ;;
        prev <- inplace_binop Rplus prev upImg ;;
        Ok (list_set (currLev - 1) prev copy_pyr)) C = Ok C' /\
      nth_error C' 0 = Some img.
Proof.
  induction j as [|j IH]; intros C Hj Htop Hlap Hfirst; [lia|].
  destruct j as [|j].
  - exists C. split; [reflexivity|].
    change (1 - 1)%nat with 0%nat in Htop.
    pose proof HG as (_ & Hfst & _). congruence.
  - rewrite range_down_S. cbn [for_each].
    simpl Nat.sub in *. rewrite Nat.sub_0_r in *.
    destruct (gauss_levels_pair j) as
      (g & g' & Hg & Hg' & Hwg & Hvg & Hdg & Hg0 & Hup); [lia|].
    destruct (Hup (dt img)) as (u & Eu & Hwu & Hdu & Hsu & Hvu).
    destruct (Hlap j) as (a & a' & v & l & Ha & Ha' & Hl & Hv & Hb); [lia|].
    assert (a = g) by congruence. assert (a' = g') by congruence. subst a a'.
    assert (v = u) by congruence. subst v.
    destruct Hfirst as (c0 & Hc0 & Hdc0).
    rewrite Hg' in Htop.
    rewrite (list_get_nth _ _ _ Htop). cbn [bind].
    rewrite (list_get_nth _ _ _ Hc0). cbn [bind].
    rewrite Hdc0, Eu. cbn [bind].
    rewrite (list_get_nth _ _ _ Hl). cbn [bind].
    rewrite (level_round_trip g u l Hwg Hwu Hsu Hvg Hvu); [|
      destruct j; [right; rewrite Hdu; now rewrite (Hg0 eq_refl)
                  | left; apply Hdg; lia] | assumption].
    cbn [bind].
    assert (Hjl : (j < length C)%nat)
      by (apply nth_error_Some; congruence).
    apply IH; [lia | | |].
    + rewrite nth_error_list_set, Nat.eqb_refl by assumption. congruence.
    + intros k Hk.
      destruct (Hlap k) as (b & b' & w & m & Hb1 & Hb2 & Hm & Hw & Hbm); [lia|].
      exists b, b', w, m. repeat split; try assumption.
      rewrite nth_error_list_set by assumption.
      destruct (Nat.eqb_spec j k); [lia | assumption].
    + rewrite nth_error_list_set by assumption.
      destruct (Nat.eqb_spec j 0) as [->|Hne].
      * exists g. split; [reflexivity|]. now rewrite (Hg0 eq_refl).
      * exists c0. auto.
Qed.

End ChainOfLevels.

Lemma binop_dt f a b c : binop f a b = Ok c -> dt c = promote (dt a) (dt b).
Proof.
  unfold binop. destruct broadcast_shapes; [|discriminate].
  now intros H; injection H as <-.
Qed.

(** ** The round trip on three-channel images *)

(** The part of C1 that the code keeps: for an image of three channels whose
    sides are divisible by [2^(levels-1)], for every positive number of
    levels, the construction returns a pyramid of [levels] levels and the
    reconstruction without weights returns the image, sample for sample (over
    the reals for float samples, exactly for 8-bit samples). *)
Theorem laplacian_round_trip_rgb img levels H W :
  wf img -> samples_valid img -> (1 <= levels)%nat ->
  shape img = [H; W; 3%nat] ->
  (H mod 2 ^ (levels - 1) = 0)%nat -> (W mod 2 ^ (levels - 1) = 0)%nat ->
  exists pyr,
    construct_laplacian img levels = Ok pyr /\
    length pyr = levels /\
    reconstruct_laplacian pyr None = Ok img.
Proof.
  intros Hw Hv HL Hs HH HW.
  set (f := (2 ^ (levels - 1))%nat) in *.
  assert (Hf : f <> 0%nat) by (apply Nat.pow_nonzero; lia).
  assert (Hs' : shape img = level_shape levels (H / f) (W / f) 0).
  { rewrite Hs. unfold level_shape. rewrite Nat.sub_0_r. fold f.
    f_equal; [|f_equal].
    - pose proof (Nat.div_mod_eq H f). lia.
    - pose proof (Nat.div_mod_eq W f). lia. }
  destruct (gaussian_pyramid_ok img levels (H / f) (W / f) Hw Hv Hs' HL)
    as (G & EG & HG).
  pose proof HG as (Hlen & Hfst & Hall).
  destruct (nth_error G (levels - 1)) as [top|] eqn:Htop;
    [|apply nth_error_None in Htop; lia].
  destruct (laplacian_loop img levels _ _ G HG (dt img) levels [top])
    as (ds & Eds & Hlds & Hlap); [lia|].
  exists (ds ++ [top]). split; [|split].
  - unfold construct_laplacian. rewrite Hs. fold f. rewrite HH, HW.
    cbn [Nat.eqb andb]. rewrite EG. cbn [bind].
    rewrite (list_get_nth _ _ _ Htop). cbn [bind]. exact Eds.
  - rewrite length_app. simpl. lia.
  - assert (Hlp : length (ds ++ [top]) = levels)
      by (rewrite length_app; simpl; lia).
    assert (Hlast : nth_error (ds ++ [top]) (levels - 1) = Some top).
    { rewrite nth_error_app2 by lia.
      now replace (levels - 1 - length ds)%nat with 0%nat by lia. }
    unfold reconstruct_laplacian. rewrite Hlp.
    rewrite (list_get_nth _ _ _ Hlast). cbn [bind].
    destruct (Hall _ _ Htop) as (_ & _ & Hst & _). rewrite Hst.
    unfold level_shape. unfold accumulate. rewrite Hlp.
    destruct (accumulate_loop img levels _ _ G HG levels (ds ++ [top]))
      as (C' & EC & HC0).
    + lia.
    + congruence.
    + intros k Hk.
      destruct (Hlap k Hk) as (a & a' & v & l & Ha & Ha' & Hl & Hv' & Hb).
      exists a, a', v, l. repeat split; try assumption.
      rewrite nth_error_app1 by lia. assumption.
    + destruct (Nat.eq_dec levels 1) as [->|Hne].
      * destruct ds; [|simpl in Hlds; lia]. simpl in *.
        exists top. split; [reflexivity|]. congruence.
      * destruct (Hlap 0%nat) as (a & a' & v & l & Ha & Ha' & Hl & Hv' & Hb);
          [lia|].
        exists l. split; [rewrite nth_error_app1 by lia; assumption|].
        rewrite (binop_dt _ _ _ _ Hb).
        destruct (gauss_levels_pair img levels _ _ G HG 0) as
          (g & g' & Hg & Hg' & _ & _ & _ & _ & Hup); [lia|].
        destruct (Hup (dt img)) as (u & Eu & _ & Hdu & _).
        assert (a = img) by congruence. assert (v = u) by congruence.
        subst a v. rewrite Hdu. apply promote_same.
    + rewrite EC. cbn [bind]. now apply list_get_nth.
Qed.

(** ** Unit weights on a pyramid of two levels *)

Lemma reconstruct_laplacian_unit_weights_witness :
  exists pyr,
    construct_laplacian
      (mk_ndarray uint8 [2; 2; 3]%nat [1; 2; 3; 4; 5; 6; 7; 8; 9; 10; 11; 12])
      2 = Ok pyr /\
    reconstruct_laplacian pyr (Some (repeat (PyInt 1) (length pyr))) =
    reconstruct_laplacian pyr None.
Proof.
  assert (Hv : samples_valid
    (mk_ndarray uint8 [2; 2; 3]%nat [1; 2; 3; 4; 5; 6; 7; 8; 9; 10; 11; 12])).
  { intros _. cbn [data].
    repeat (constructor; [eexists; split; [reflexivity | lia]|]).
    constructor. }
  destruct (laplacian_round_trip_rgb
    (mk_ndarray uint8 [2; 2; 3]%nat [1; 2; 3; 4; 5; 6; 7; 8; 9; 10; 11; 12])
    2 2 2) as (pyr & E & _); try reflexivity; try lia; try exact Hv.
  exists pyr. split; [exact E|].
  exact (reconstruct_laplacian_unit_weights _ 2 pyr Hv E).
Defined.

(** ** The store model against the value model *)

Lemma for_each_agrees {X Y} (R : X -> Y -> store -> Prop)
  (b1 : nat -> X -> result X) (b2 : nat -> Y -> M Y) l :
  (forall i x y s, R x y s -> agrees R (b1 i x) (b2 i y s)) ->
  forall x y s, R x y s -> agrees R (for_each l b1 x) (for_each_M l b2 y s).
Proof.
  intros Hb. unfold for_each_M.
  induction l as [|i l IH]; intros x y s HR; simpl.
  - exists y, s. auto.
  - specialize (Hb i x y s HR). unfold agrees in Hb.
    destruct (b1 i x) as [x1|e]; simpl.
    + destruct Hb as (y1 & s1 & -> & HR1). simpl. now apply IH.
    + now rewrite Hb.
Qed.

Lemma read_app_old s a l : (l < length s)%nat -> read (s ++ [a]) l = read s l.
Proof. intros H. unfold read. now rewrite app_nth1. Qed.

Lemma read_app_new s a : read (s ++ [a]) (length s) = a.
Proof.
  unfold read. rewrite app_nth2 by (unfold ge; apply Nat.le_refl).
  now rewrite Nat.sub_diag.
Qed.

Lemma contents_app_old s a ls :
  Forall (fun l => (l < length s)%nat) ls ->
  contents (s ++ [a]) ls = contents s ls.
Proof.
  intros H. unfold contents. apply map_ext_in. intros l Hl.
  rewrite Forall_forall in H. apply read_app_old. auto.
Qed.

Lemma Forall_lt_app s (a : ndarray) ls :
  Forall (fun l => (l < length s)%nat) ls ->
  Forall (fun l => (l < length (s ++ [a]))%nat) ls.
Proof.
  intros H. eapply Forall_impl; [|exact H].
  intros l Hl. cbv beta in *. rewrite length_app. simpl. lia.
Qed.

Lemma list_get_contents s ls i :
  list_get (contents s ls) i =
  match list_get ls i with
  | Ok l => Ok (read s l)
  | Raise e => Raise e
  end.
Proof.
  unfold list_get, contents. rewrite nth_error_map.
  destruct (nth_error ls i); reflexivity.
Qed.

Lemma bindM_alloc {B} a (k : loc -> M B) s :
  bindM (alloc a) k s = k (length s) (s ++ [a]).
Proof. reflexivity. Qed.

Lemma bindM_write {B} l a (k : unit -> M B) s :
  bindM (write l a) k s = k tt (list_set l a s).
Proof. reflexivity. Qed.

Lemma bindM_lift_ok {A B} (a : A) (k : A -> M B) s :
  bindM (lift (Ok a)) k s = k a s.
Proof. reflexivity. Qed.

Lemma bindM_lift_raise {A B} e (k : A -> M B) s :
  bindM (lift (Raise e)) k s = Raise e.
Proof. reflexivity. Qed.

Lemma bindM_load {B} l (k : ndarray -> M B) s :
  bindM (load l) k s = k (read s l) s.
Proof. reflexivity. Qed.

Lemma contents_snoc s ls a :
  Forall (fun l => (l < length s)%nat) ls ->
  contents (s ++ [a]) (ls ++ [length s]) = contents s ls ++ [a].
Proof.
  intros H. unfold contents. rewrite map_app. simpl.
  rewrite read_app_new. f_equal. now apply contents_app_old.
Qed.

Lemma Forall_lt_snoc s (a : ndarray) ls :
  Forall (fun l => (l < length s)%nat) ls ->
  Forall (fun l => (l < length (s ++ [a]))%nat) (ls ++ [length s]).
Proof.
  intros H. apply Forall_app. split; [now apply Forall_lt_app|].
  constructor; [|constructor]. rewrite length_app. simpl. lia.
Qed.

Lemma list_get_lt (s : store) (ls : list loc) i l :
  Forall (fun l => (l < length s)%nat) ls -> list_get ls i = Ok l ->
  (l < length s)%nat.
Proof.
  intros H Hl. rewrite Forall_forall in H. apply H. eapply list_get_in; eauto.
Qed.

Lemma gaussian_loop_agrees levels (img : loc) (s : store) :
  (img < length s)%nat ->
  agrees (fun gv gl st =>
            contents st gl = gv /\ Forall (fun l => (l < length st)%nat) gl)
    (for_each (range_up levels) (fun currLev gau_pyr =>
       prev <- list_get gau_pyr (currLev - 1) ;;
       blurImg <- separable_filter prev blur_1d ;;
       blurImg <- decimate blurImg ;;
       Ok (gau_pyr ++ [blurImg])) [read s img])
    (for_each_M (range_up levels) (fun currLev gau_pyr =>
       p <~ lift (list_get gau_pyr (currLev - 1)) ;;
       prev <~ load p ;;
       blurImg <~ lift (separable_filter prev blur_1d) ;;
       _ <~ alloc blurImg ;;
       blurImg <~ lift (decimate blurImg) ;;
       b <~ alloc blurImg ;;
       ret (gau_pyr ++ [b])) [img] s).
Proof.
  intros Hi. apply for_each_agrees.
  - intros i x y st (<- & Hy). rewrite list_get_contents.
    unfold bindM at 1, lift at 1.
    destruct (list_get y (i - 1)) as [p|e]; [|reflexivity].
    cbn [bind]. unfold bindM at 1, load. unfold bindM at 1, lift at 1.
    fold (read st p).
    destruct (separable_filter (read st p) blur_1d) as [b|e]; [|reflexivity].
    cbn [bind]. unfold bindM at 1, alloc at 1. unfold bindM at 1, lift at 1.
    destruct (decimate b) as [d|e]; [|reflexivity].
    cbn [bind agrees]. unfold bindM, alloc, ret.
    eexists; eexists; split; [reflexivity|].
    split.
    + rewrite contents_snoc by (now apply Forall_lt_app).
      now rewrite contents_app_old.
    + apply Forall_lt_snoc. now apply Forall_lt_app.
  - split; [reflexivity|]. constructor; [assumption | constructor].
Qed.

Lemma laplacian_loop_agrees levels (gl : list loc) d (top : loc) (s1 : store) :
  Forall (fun l => (l < length s1)%nat) gl -> (top < length s1)%nat ->
  agrees (fun lv ll st =>
            contents st ll = lv /\
            Forall (fun l => (l < length st)%nat) ll /\
            contents st gl = contents s1 gl /\
            Forall (fun l => (l < length st)%nat) gl)
    (for_each (range_down levels) (fun currLev lap_pyr =>
       currImg <- list_get (contents s1 gl) currLev ;;
       upImg <- upsample currImg d ;;
       prev <- list_get (contents s1 gl) (currLev - 1) ;;
       dd <- binop Rminus prev upImg ;;
       Ok (dd :: lap_pyr)) [read s1 top])
    (for_each_M (range_down levels) (fun currLev lap_pyr =>
       c <~ lift (list_get gl currLev) ;;
       currImg <~ load c ;;
       upImg <~ lift (upsample currImg d) ;;
       _ <~ alloc upImg ;;
       p <~ lift (list_get gl (currLev - 1)) ;;
       prev <~ load p ;;
       dd <~ lift (binop Rminus prev upImg) ;;
       dl <~ alloc dd ;;
       ret (dl :: lap_pyr)) [top] s1).
Proof.
  intros Hgl Htop. apply for_each_agrees.
  - intros i x y st (<- & Hy & Hg & Hgst). rewrite <- Hg.
    rewrite !list_get_contents.
    unfold bindM at 1, lift at 1.
    destruct (list_get gl i) as [c|e]; [|reflexivity].
    cbn [bind]. unfold bindM at 1, load. unfold bindM at 1, lift at 1.
    fold (read st c).
    destruct (upsample (read st c) d) as [up|e]; [|reflexivity].
    cbn [bind]. unfold bindM at 1, alloc at 1. unfold bindM at 1, lift at 1.
    destruct (list_get gl (i - 1)) as [p|e] eqn:Ep; [|reflexivity].
    cbn [bind]. unfold bindM at 1, load. unfold bindM at 1, lift at 1.
    fold (read (st ++ [up]) p).
    rewrite read_app_old by (eapply list_get_lt; eauto).
    destruct (binop Rminus (read st p) up) as [dd|e]; [|reflexivity].
    cbn [bind agrees]. unfold bindM, alloc, ret.
    eexists; eexists; split; [reflexivity|].
    assert (H1 : forall ls, Forall (fun l => (l < length st)%nat) ls ->
              Forall (fun l => (l < length ((st ++ [up]) ++ [dd]))%nat) ls)
      by (intros; now do 2 apply Forall_lt_app).
    assert (H2 : forall ls, Forall (fun l => (l < length st)%nat) ls ->
              contents ((st ++ [up]) ++ [dd]) ls = contents st ls).
    { intros ls Hls. rewrite contents_app_old by now apply Forall_lt_app.
      now apply contents_app_old. }
    split; [|split; [|split]].
    + unfold contents at 1. cbn [map]. fold (contents ((st ++ [up]) ++ [dd]) y).
      rewrite read_app_new. f_equal. now apply H2.
    + constructor; [|now apply H1]. rewrite !length_app. simpl. lia.
    + rewrite H2 by assumption. reflexivity.
    + now apply H1.
  - split; [reflexivity|]. split; [constructor; [assumption | constructor]|].
    split; [reflexivity | assumption].
Qed.

(** The construction over the store raises what the construction over values
    raises, or returns locations that hold the pyramid it returns. *)
Lemma construct_laplacian_st_agrees (img : loc) levels (s : store) :
  (img < length s)%nat ->
  agrees (fun pyr lap st => contents st lap = pyr)
    (construct_laplacian (read s img) levels)
    (construct_laplacian_st img levels s).
Proof.
  intros Hi. unfold construct_laplacian, construct_laplacian_st.
  rewrite bindM_load.
  destruct (shape (read s img)) as [|h [|w r]]; try reflexivity.
  destruct (_ && _)%bool; [|reflexivity].
  pose proof (gaussian_loop_agrees levels img s Hi) as Hg.
  unfold bindM at 1. unfold agrees in Hg.
  destruct (for_each (range_up levels) _ [read s img]) as [gv|e].
  2:{ cbn [bind agrees]. now rewrite Hg. }
  destruct Hg as (gl & s1 & -> & <- & Hgl). cbn [bind].
  rewrite list_get_contents. unfold bindM at 1, lift at 1.
  destruct (list_get gl (levels - 1)) as [top|e] eqn:Et; [|reflexivity].
  cbn [bind].
  pose proof (laplacian_loop_agrees levels gl (dt (read s img)) top s1 Hgl
                (list_get_lt _ _ _ _ Hgl Et)) as Hl.
  unfold agrees in *.
  destruct (for_each (range_down levels) _ [read s1 top]) as [lv|e].
  - destruct Hl as (ll & s2 & E & Hc & _). exists ll, s2. auto.
  - exact Hl.
Qed.

Lemma memo_find_none l memo :
  ~ In l (map fst memo) -> memo_find l memo = None.
Proof.
  induction memo as [|[k v] memo IH]; simpl; intros H; [reflexivity|].
  destruct (Nat.eqb_spec k l) as [->|Hne]; [exfalso; auto|].
  apply IH. intros Hin. apply H. now right.
Qed.

(** The deep copy of a list of distinct buffers: one new buffer for each, in
    order, after the buffers already live. *)
Lemma deepcopy_distinct (pyr : list loc) :
  forall (memo : list (loc * loc)) (s : store),
    NoDup pyr ->
    (forall l, In l pyr -> ~ In l (map fst memo)) ->
    Forall (fun l => (l < length s)%nat) pyr ->
    deepcopy pyr memo s =
    Ok (seq (length s) (length pyr), s ++ contents s pyr).
Proof.
  induction pyr as [|l pyr IH]; intros memo s Hnd Hm Hlt; simpl.
  - unfold ret. now rewrite app_nil_r.
  - rewrite memo_find_none by (apply Hm; now left).
    inversion Hnd as [|? ? Hnotin Hnd']; subst.
    inversion Hlt as [|? ? Hl Hlt']; subst.
    rewrite bindM_load, bindM_alloc. unfold bindM.
    rewrite IH.
    + unfold ret. rewrite length_app. simpl.
      rewrite Nat.add_1_r. f_equal. f_equal.
      rewrite <- app_assoc. simpl. f_equal. f_equal.
      now apply contents_app_old.
    + assumption.
    + intros l' Hl' [Heq | Hin]; simpl in *.
      * subst. contradiction.
      * apply (Hm l'); [now right | assumption].
    + now apply Forall_lt_app.
Qed.

Lemma contents_fresh (s : store) vs :
  contents (s ++ vs) (seq (length s) (length vs)) = vs.
Proof.
  revert s; induction vs as [|v vs IH]; intros s; [reflexivity|].
  simpl. unfold contents in *. simpl. f_equal.
  - unfold read. rewrite app_nth2, Nat.sub_diag by (unfold ge; lia).
    reflexivity.
  - specialize (IH (s ++ [v])). rewrite length_app in IH. simpl in IH.
    rewrite Nat.add_1_r, <- app_assoc in IH. exact IH.
Qed.

Lemma read_list_set (s : store) l a l' :
  (l < length s)%nat ->
  read (list_set l a s) l' = if (l =? l')%nat then a else read s l'.
Proof. intros H. unfold read. now apply nth_list_set. Qed.

Lemma contents_write_other (s : store) l a ls :
  (l < length s)%nat -> ~ In l ls ->
  contents (list_set l a s) ls = contents s ls.
Proof.
  intros Hl Hn. unfold contents. apply map_ext_in. intros l' Hl'.
  rewrite read_list_set by assumption.
  destruct (Nat.eqb_spec l l'); [subst; contradiction | reflexivity].
Qed.

Lemma contents_write (s : store) ls :
  forall lev l a,
    NoDup ls -> nth_error ls lev = Some l -> (l < length s)%nat ->
    contents (list_set l a s) ls = list_set lev a (contents s ls).
Proof.
  induction ls as [|l0 ls IH]; intros [|lev] l a Hnd Hn Hl; simpl in Hn;
    try discriminate; inversion Hnd as [|? ? Hnotin Hnd']; subst.
  - injection Hn as ->. unfold contents at 1. cbn [map].
    fold (contents (list_set l a s) ls).
    rewrite read_list_set, Nat.eqb_refl by assumption.
    rewrite contents_write_other by assumption. reflexivity.
  - unfold contents at 1. cbn [map]. fold (contents (list_set l a s) ls).
    rewrite read_list_set by assumption.
    destruct (Nat.eqb_spec l l0) as [->|Hne].
    + exfalso. apply Hnotin. eapply nth_error_In; eauto.
    + unfold contents at 2. cbn [map list_set]. fold (contents s ls).
      f_equal. now apply IH.
Qed.

Lemma Forall_lt_list_set (s : store) (k : loc) (a : ndarray) (ls : list loc) :
  Forall (fun l => (l < length s)%nat) ls ->
  Forall (fun l => (l < length (list_set k a s))%nat) ls.
Proof. intros H. now rewrite length_list_set. Qed.

Lemma weights_loop_agrees weights n (y0 : list loc) (s0 : store) :
  NoDup y0 -> Forall (fun l => (l < length s0)%nat) y0 ->
  agrees (fun cv cl st =>
            contents st cl = cv /\ NoDup cl /\
            Forall (fun l => (l < length st)%nat) cl)
    (for_each (range n) (fun lev copy_pyr =>
       a <- list_get copy_pyr lev ;;
       w <- list_get weights lev ;;
       a <- inplace_scalar_op Rmult a w ;;
       Ok (list_set lev a copy_pyr)) (contents s0 y0))
    (for_each_M (range n) (fun lev copy_pyr =>
       l <~ lift (list_get copy_pyr lev) ;;
       a <~ load l ;;
       w <~ lift (list_get weights lev) ;;
       a <~ lift (inplace_scalar_op Rmult a w) ;;
       _ <~ write l a ;;
       ret copy_pyr) y0 s0).
Proof.
  intros Hnd Hlt. apply for_each_agrees; [|auto].
  intros i x y st (<- & Hy & Hyl). rewrite list_get_contents.
  destruct (list_get y i) as [l|e] eqn:El;
    [rewrite bindM_lift_ok | now rewrite bindM_lift_raise].
  cbn [bind]. rewrite bindM_load.
  destruct (list_get weights i) as [w|e];
    [rewrite bindM_lift_ok | now rewrite bindM_lift_raise].
  cbn [bind].
  destruct (inplace_scalar_op Rmult (read st l) w) as [a|e];
    [rewrite bindM_lift_ok | now rewrite bindM_lift_raise].
  cbn [bind agrees]. rewrite bindM_write. unfold ret.
  eexists; eexists; split; [reflexivity|].
  pose proof (list_get_lt _ _ _ _ Hyl El) as Hl.
  split; [|split; [assumption | now apply Forall_lt_list_set]].
  apply contents_write; [assumption | now apply list_get_ok | assumption].
Qed.

Lemma accumulate_agrees (y0 : list loc) (s0 : store) :
  NoDup y0 -> Forall (fun l => (l < length s0)%nat) y0 ->
  agrees (fun cv cl st =>
            contents st cl = cv /\ NoDup cl /\
            Forall (fun l => (l < length st)%nat) cl)
    (accumulate (contents s0 y0)) (accumulate_st y0 s0).
Proof.
  intros Hnd Hlt. unfold accumulate, accumulate_st.
  replace (length (contents s0 y0)) with (length y0)
    by (unfold contents; now rewrite length_map).
  apply for_each_agrees; [|auto].
  intros i x y st (<- & Hy & Hyl). rewrite !list_get_contents.
  destruct (list_get y i) as [c|e] eqn:Ec;
    [rewrite bindM_lift_ok | now rewrite bindM_lift_raise].
  cbn [bind]. rewrite bindM_load.
  destruct (list_get y 0) as [f|e] eqn:Ef;
    [rewrite bindM_lift_ok | now rewrite bindM_lift_raise].
  cbn [bind]. rewrite bindM_load.
  destruct (upsample (read st c) (dt (read st f))) as [up|e];
    [rewrite bindM_lift_ok | now rewrite bindM_lift_raise].
  cbn [bind]. rewrite bindM_alloc.
  destruct (list_get y (i - 1)) as [p|e] eqn:Ep;
    [rewrite bindM_lift_ok | now rewrite bindM_lift_raise].
  cbn [bind]. rewrite bindM_load.
  pose proof (list_get_lt _ _ _ _ Hyl Ep) as Hp.
  rewrite read_app_old by assumption.
  destruct (inplace_binop Rplus (read st p) up) as [a|e];
    [rewrite bindM_lift_ok | now rewrite bindM_lift_raise].
  cbn [bind agrees]. rewrite bindM_write. unfold ret.
  eexists; eexists; split; [reflexivity|].
  split; [|split; [assumption|]].
  - rewrite (contents_write _ _ (i - 1) p);
      [| assumption | now apply list_get_ok
       | rewrite length_app; simpl; lia].
    now rewrite contents_app_old.
  - apply Forall_lt_list_set. now apply Forall_lt_app.
Qed.

(** The reconstruction over the store, on a pyramid of distinct live
    buffers, raises what the reconstruction over values raises, or returns
    the location of the image it returns. *)
Lemma reconstruct_laplacian_st_agrees (pyr : list loc) weights (s : store) :
  NoDup pyr -> Forall (fun l => (l < length s)%nat) pyr ->
  agrees (fun img r st => read st r = img)
    (reconstruct_laplacian (contents s pyr) weights)
    (reconstruct_laplacian_st pyr weights s).
Proof.
  intros Hnd Hlt. unfold reconstruct_laplacian, reconstruct_laplacian_st.
  unfold bindM at 1.
  rewrite (deepcopy_distinct pyr [] s Hnd) by (auto; intros l _ []).
  cbv beta iota.
  set (copy := seq (length s) (length pyr) : list loc).
  set (s1 := s ++ contents s pyr : store).
  assert (Hc : contents s1 copy = contents s pyr).
  { unfold copy, s1.
    replace (length pyr) with (length (contents s pyr))
      by (unfold contents; apply length_map).
    apply contents_fresh. }
  assert (Hcn : NoDup copy) by apply seq_NoDup.
  assert (Hcl : Forall (fun l => (l < length s1)%nat) copy).
  { apply Forall_forall. intros l Hl. apply in_seq in Hl.
    unfold s1. rewrite length_app. unfold contents. rewrite length_map. lia. }
  assert (Hlen : @length loc copy = length (contents s pyr))
    by (unfold copy, contents; now rewrite length_seq, length_map).
  rewrite <- Hlen, <- Hc. clearbody copy s1. clear Hc Hlen.
  rewrite list_get_contents.
  destruct (list_get copy (length copy - 1)) as [l|e];
    [rewrite bindM_lift_ok | now rewrite bindM_lift_raise].
  cbn [bind]. rewrite bindM_load.
  destruct (shape (read s1 l)) as [|fh [|fw r]]; try reflexivity.
  unfold bindM at 1.
  assert (Hfin : forall (y : list loc) (st : store) cv,
            contents st y = cv ->
            agrees (fun img r st' => read st' r = img)
              (list_get cv 0) (lift (list_get y 0) st)).
  { intros y st cv <-. rewrite list_get_contents.
    destruct (list_get y 0) as [r0|e]; simpl; eauto. }
  destruct weights as [weights|].
  - pose proof (weights_loop_agrees weights (length copy) copy s1 Hcn Hcl) as Hw.
    unfold bindM at 1. unfold agrees in Hw.
    destruct (for_each (range (length copy)) _ (contents s1 copy)) as [cv|e].
    + destruct Hw as (y & st & -> & <- & Hyn & Hyl). cbn [bind].
      pose proof (accumulate_agrees y st Hyn Hyl) as Ha. unfold agrees in Ha.
      destruct (accumulate (contents st y)) as [cv'|e].
      * destruct Ha as (y' & st' & -> & Hc' & _). cbn [bind].
        now apply Hfin.
      * rewrite Ha. reflexivity.
    + rewrite Hw. reflexivity.
  - pose proof (accumulate_agrees copy s1 Hcn Hcl) as Ha. unfold agrees in Ha.
    destruct (accumulate (contents s1 copy)) as [cv'|e].
    + destruct Ha as (y' & st' & -> & Hc' & _). cbn [bind].
      now apply Hfin.
    + rewrite Ha. reflexivity.
Qed.

(** ** The buffers of the caller *)




(** * Further properties of the code *)

(** ** What [cross_correlation_2d] returns or raises *)

Lemma cross_correlation_2d_rank2_returns img kernel H W m n :
  shape img = [H; W] -> shape kernel = [m; n] ->
  exists out, cross_correlation_2d img kernel = Ok out.
Proof.
  intros Hs Hk. unfold cross_correlation_2d. rewrite Hs, Hk.
  pose proof (half_bound m) as Hm. pose proof (half_bound n) as Hn.
  set (frame := fun out : ndarray => shape out = [H; W]).
  destruct (for_each_range_inv (fun _ out => frame out)
    (fun h =>
       for_each (range W) (fun w out =>
         p <- binop Rmult kernel
                (window2 (np_pad img [(m / 2, m / 2); (n / 2, n / 2)]%nat)
                   h m w n) ;;
         set_item out [h; w] (np_sum p)))
    H (zeros_like img float64)) as (out & E & _).
  - unfold frame, zeros_like, zeros, build. cbn [shape]. assumption.
  - intros h out0 Hh Hf0.
    apply (for_each_range_inv (fun _ out => frame out)); [assumption|].
    intros w out Hw Hf.
    rewrite (window2_full _ _ _ _ _ _ _ (shape_np_pad2 _ _ _ _ _ Hs))
      by lia.
    rewrite binop_same_shape by (rewrite Hk; reflexivity). cbn [bind].
    unfold frame in Hf.
    rewrite set_item_ok by (rewrite Hf; apply in_range2; assumption).
    eexists; split; [reflexivity|]. exact Hf.
  - exists out. exact E.
Qed.

Lemma cross_correlation_2d_rank3_returns img kernel H W C m n :
  shape img = [H; W; C] -> shape kernel = [m; n] -> (3 <= C)%nat ->
  exists out, cross_correlation_2d img kernel = Ok out.
Proof.
  intros Hs Hk HC. unfold cross_correlation_2d. rewrite Hs, Hk.
  pose proof (half_bound m) as Hm. pose proof (half_bound n) as Hn.
  pose proof (shape_np_pad3 img _ _ _ (m / 2) (n / 2) Hs) as Hp.
  set (pad := np_pad _ _) in *.
  set (frame := fun out : ndarray => shape out = [H; W; C]).
  destruct (for_each_range_inv (fun _ out => frame out)
    (fun h =>
       for_each (range W) (fun w out =>
         x0 <- window3 pad h m w n 0 ;;
         p0 <- binop Rmult kernel x0 ;;
         out <- set_item out [h; w; 0%nat] (np_sum p0) ;;
         x1 <- window3 pad h m w n 1 ;;
         p1 <- binop Rmult kernel x1 ;;
         out <- set_item out [h; w; 1%nat] (np_sum p1) ;;
         x2 <- window3 pad h m w n 2 ;;
         p2 <- binop Rmult kernel x2 ;;
         set_item out [h; w; 2%nat] (np_sum p2)))
    H (zeros_like img float64)) as (out & E & _).
  - unfold frame, zeros_like, zeros, build. cbn [shape]. assumption.
  - intros h out0 Hh Hf0.
    apply (for_each_range_inv (fun _ out => frame out)); [assumption|].
    intros w out Hw Hf. unfold frame in Hf.
    rewrite (window3_full pad _ _ _ h m w n 0 Hp) by lia. cbn [bind].
    rewrite binop_same_shape by (rewrite Hk; reflexivity). cbn [bind].
    rewrite set_item_ok by (rewrite Hf; apply in_range3; lia). cbn [bind].
    rewrite (window3_full pad _ _ _ h m w n 1 Hp) by lia. cbn [bind].
    rewrite binop_same_shape by (rewrite Hk; reflexivity). cbn [bind].
    rewrite set_item_ok by (cbn [shape]; rewrite Hf; apply in_range3; lia).
    cbn [bind].
    rewrite (window3_full pad _ _ _ h m w n 2 Hp) by lia. cbn [bind].
    rewrite binop_same_shape by (rewrite Hk; reflexivity). cbn [bind].
    rewrite set_item_ok by (cbn [shape]; rewrite Hf; apply in_range3; lia).
    eexists; split; [reflexivity|]. exact Hf.
  - exists out. exact E.
Qed.

Lemma cross_correlation_2d_returns img kernel m n :
  shape kernel = [m; n] -> correlates img = true ->
  exists out, cross_correlation_2d img kernel = Ok out.
Proof.
  intros Hk Hc. unfold correlates in Hc.
  destruct (shape img) as [|H [|W [|C [|C' r]]]] eqn:Hs.
  1,2,5: rewrite cross_correlation_2d_no_loop
      by (unfold ndim; rewrite Hs; simpl; lia); eauto.
  - now apply (cross_correlation_2d_rank2_returns img kernel H W m n).
  - destruct (Nat.leb_spec 3 C) as [HC|HC].
    + now apply (cross_correlation_2d_rank3_returns img kernel H W C m n).
    + cbn [orb] in Hc.
      rewrite (cross_correlation_2d_empty3 img kernel H W C m n Hs Hk);
        [eauto|].
      apply orb_true_iff in Hc as [Hc | Hc]; apply Nat.eqb_eq in Hc; auto.
Qed.

Lemma cross_correlation_2d_kernel_rank img kernel :
  ndim img = 2%nat \/ ndim img = 3%nat -> ndim kernel <> 2%nat ->
  cross_correlation_2d img kernel = Raise ValueError.
Proof.
  unfold ndim, cross_correlation_2d. intros Hi Hk.
  destruct (shape img) as [|h [|w [|c [|c' r]]]]; simpl in Hi;
    try (exfalso; lia);
    destruct (shape kernel) as [|m [|n [|n' r']]]; simpl in Hk;
    try reflexivity; exfalso; lia.
Qed.

(** X1: on an image of rank 2 or 3, [cross_correlation_2d] raises
    [ValueError] when the kernel is not of rank 2; with a kernel of rank 2
    it raises [IndexError] when the image has rank 3, fewer than three
    channels and at least one pixel, and otherwise returns a float64 buffer
    of the shape of the image. *)
Theorem cross_correlation_2d_outcome img kernel :
  ndim img = 2%nat \/ ndim img = 3%nat ->
  (ndim kernel <> 2%nat ->
   cross_correlation_2d img kernel = Raise ValueError) /\
  (ndim kernel = 2%nat -> correlates img = false ->
   cross_correlation_2d img kernel = Raise IndexError) /\
  (ndim kernel = 2%nat -> correlates img = true ->
   exists out,
     cross_correlation_2d img kernel = Ok out /\
     dt out = float64 /\ shape out = shape img).
Proof.
  intros Hi. split; [|split].
  - now apply cross_correlation_2d_kernel_rank.
  - unfold ndim. intros Hk Hc.
    destruct (shape kernel) as [|m [|n [|n' r']]] eqn:Hsk; try discriminate.
    now apply (cross_correlation_2d_rejects img kernel m n).
  - unfold ndim. intros Hk Hc.
    destruct (shape kernel) as [|m [|n [|n' r']]] eqn:Hsk; try discriminate.
    destruct (cross_correlation_2d_returns img kernel m n Hsk Hc) as (out & E).
    exists out. split; [exact E|].
    destruct (cross_correlation_2d_shape _ _ _ E) as (_ & Hd & Hs). auto.
Qed.

Lemma cross_correlation_2d_outcome_witness :
  (ndim (mk_ndarray uint8 [1; 3]%nat [1; 10; 100]) <> 2%nat ->
   cross_correlation_2d (mk_ndarray uint8 [1; 2; 2]%nat [1; 2; 3; 4])
     (mk_ndarray uint8 [1; 3]%nat [1; 10; 100]) = Raise ValueError) /\
  (ndim (mk_ndarray uint8 [1; 3]%nat [1; 10; 100]) = 2%nat ->
   correlates (mk_ndarray uint8 [1; 2; 2]%nat [1; 2; 3; 4]) = false ->
   cross_correlation_2d (mk_ndarray uint8 [1; 2; 2]%nat [1; 2; 3; 4])
     (mk_ndarray uint8 [1; 3]%nat [1; 10; 100]) = Raise IndexError) /\
  (ndim (mk_ndarray uint8 [1; 3]%nat [1; 10; 100]) = 2%nat ->
   correlates (mk_ndarray uint8 [1; 2; 2]%nat [1; 2; 3; 4]) = true ->
   exists out,
     cross_correlation_2d (mk_ndarray uint8 [1; 2; 2]%nat [1; 2; 3; 4])
       (mk_ndarray uint8 [1; 3]%nat [1; 10; 100]) = Ok out /\
     dt out = float64 /\
     shape out = shape (mk_ndarray uint8 [1; 2; 2]%nat [1; 2; 3; 4])).
Proof.
  apply (cross_correlation_2d_outcome
           (mk_ndarray uint8 [1; 2; 2]%nat [1; 2; 3; 4])
           (mk_ndarray uint8 [1; 3]%nat [1; 10; 100])).
  right. reflexivity.
Defined.

(** ** The filters keep the shape of the image *)

Lemma high_pass_shape img sigma size out :
  high_pass img sigma size = Ok out ->
  dt out = float64 /\ shape out = shape img.
Proof.
  unfold high_pass. intros H.
  apply bind_ok in H as (k & _ & H). apply bind_ok in H as (c & Ec & H).
  destruct (convolve_2d_shape _ _ _ Ec) as (_ & Hd & Hs).
  rewrite (binop_same_shape Rminus img c) in H by congruence.
  injection H as <-. cbn [dt shape build].
  rewrite Hd, promote_float64. auto.
Qed.

(** X2: whenever one of [convolve_2d], [separable_filter], [low_pass] and
    [high_pass] returns, the result is a float64 buffer of exactly the shape
    of the image, whatever the kernel and the element type of the image. *)
Theorem filters_keep_shape img kernel sigma size :
  (forall out, convolve_2d img kernel = Ok out ->
     dt out = float64 /\ shape out = shape img) /\
  (forall out, separable_filter img kernel = Ok out ->
     dt out = float64 /\ shape out = shape img) /\
  (forall out, low_pass img sigma size = Ok out ->
     dt out = float64 /\ shape out = shape img) /\
  (forall out, high_pass img sigma size = Ok out ->
     dt out = float64 /\ shape out = shape img).
Proof.
  split; [|split; [|split]].
  - intros out H. now destruct (convolve_2d_shape _ _ _ H) as (_ & Hd & Hs).
  - intros out H. unfold separable_filter in H.
    apply bind_ok in H as (r & Er & H).
    destruct (cross_correlation_2d_shape _ _ _ Er) as (_ & _ & Hsr).
    destruct (cross_correlation_2d_shape _ _ _ H) as (_ & Hd & Hs).
    split; congruence.
  - intros out H. unfold low_pass in H. apply bind_ok in H as (k & _ & H).
    now destruct (convolve_2d_shape _ _ _ H) as (_ & Hd & Hs).
  - intros out H. now apply high_pass_shape in H.
Qed.

Lemma filters_keep_shape_witness :
  exists out,
    convolve_2d (mk_ndarray uint8 [1; 2]%nat [3; 4])
                (mk_ndarray float64 [1; 1]%nat [2]) = Ok out /\
    dt out = float64 /\ shape out = [1; 2]%nat.
Proof.
  eexists. split; [cbv -[Rmult Rplus IZR]; reflexivity|].
  apply (proj1 (filters_keep_shape (mk_ndarray uint8 [1; 2]%nat [3; 4])
                  (mk_ndarray float64 [1; 1]%nat [2]) 1 1)).
  cbv -[Rmult Rplus IZR]; reflexivity.
Defined.

(** ** Flipping a kernel twice *)

Lemma get_flip2 k m n k' i j :
  shape k = [m; n] -> flip2 k = Ok k' -> (i < m)%nat -> (j < n)%nat ->
  get k' [i; j] = get k [(m - 1 - i)%nat; (n - 1 - j)%nat].
Proof.
  intros Hs E Hi Hj. unfold flip2 in E. rewrite Hs in E. injection E as <-.
  now rewrite get_build by (apply in_range2; assumption).
Qed.

(** X3: flipping a well-formed rank-2 kernel on both axes twice gives the
    kernel back, so the convolution with the flipped kernel is the
    correlation with the kernel itself, on every image. *)
Theorem convolve_2d_flipped k m n :
  wf k -> shape k = [m; n] ->
  exists k',
    flip2 k = Ok k' /\ flip2 k' = Ok k /\
    forall img, convolve_2d img k' = cross_correlation_2d img k.
Proof.
  intros Hw Hs.
  destruct (flip2_ok k m n Hs) as (k' & E & Hd & Hs').
  destruct (flip2_ok k' m n Hs') as (k'' & E' & Hd' & Hs'').
  assert (Hkk : k'' = k).
  { apply ndarray_ext; try congruence.
    - unfold flip2 in E'. rewrite Hs' in E'. injection E' as <-. apply wf_build.
    - rewrite Hs''. intros [|i [|j [|c idx]]] Hin; simpl in Hin;
        try discriminate; try (rewrite !andb_false_r in Hin; discriminate).
      apply andb_true_iff in Hin as [Hi Hin].
      apply andb_true_iff in Hin as [Hj _].
      apply Nat.ltb_lt in Hi, Hj.
      rewrite (get_flip2 k' m n k'' i j Hs' E' Hi Hj).
      rewrite (get_flip2 k m n k' _ _ Hs E) by lia.
      f_equal. f_equal; [lia | f_equal; lia]. }
  subst k''. exists k'. split; [exact E|]. split; [exact E'|].
  intros img. unfold convolve_2d. rewrite E'. reflexivity.
Qed.

Lemma convolve_2d_flipped_witness :
  exists k',
    flip2 (mk_ndarray float64 [1; 3]%nat [1; 10; 100]) = Ok k' /\
    flip2 k' = Ok (mk_ndarray float64 [1; 3]%nat [1; 10; 100]) /\
    forall img,
      convolve_2d img k' =
      cross_correlation_2d img (mk_ndarray float64 [1; 3]%nat [1; 10; 100]).
Proof.
  apply (convolve_2d_flipped (mk_ndarray float64 [1; 3]%nat [1; 10; 100]) 1 3);
    reflexivity.
Defined.

(** ** What [gaussian_blur_kernel_2d] returns or raises *)

Lemma gaussian_kernel_entries sigma height width :
  sigma <> 0 ->
  exists k,
    gaussian_blur_kernel_2d sigma height width = Ok k /\
    wf k /\ dt k = float64 /\ shape k = [height; width] /\
    forall y x, (y < height)%nat -> (x < width)%nat ->
      get k [y; x] =
      gaussian_entry sigma (height / 2) (width / 2) y x /
      gaussian_total sigma height width.
Proof.
  intros Hs. unfold gaussian_blur_kernel_2d.
  destruct (fill2
    (fun y x => gaussian_entry sigma (height / 2) (width / 2) y x)
    height width
    (fun y x filter =>
       if Req_dec_T sigma 0 then Raise ZeroDivisionError
       else set_item filter [y; x]
              (gaussian_entry sigma (height / 2) (width / 2) y x))
    (zeros float64 [height; width]))
    as (filter & E & Hwf & Hdt & Hsh & Hv).
  { apply wf_zeros. }
  { reflexivity. }
  { intros y x out _ _. destruct (Req_dec_T sigma 0); [contradiction | reflexivity]. }
  rewrite E. cbn [bind].
  assert (Htot : np_sum filter = gaussian_total sigma height width).
  { rewrite (np_sum_rank2 filter height width Hwf Hsh).
    apply sum_over_ext. intros y Hy. apply sum_over_ext. intros x Hx.
    apply in_seq in Hy, Hx. rewrite Hv by lia. reflexivity. }
  unfold scalar_op. rewrite Hdt. cbn [dt zeros build scalar_fits scalar_dtype
    scalar_value cast].
  eexists; split; [reflexivity|]. cbn [dt shape].
  split; [|split; [reflexivity|]; split; [assumption|]].
  - unfold wf in *. cbn [data shape]. now rewrite length_map.
  - intros y x Hy Hx. unfold get at 1. cbn [shape data].
    rewrite nth_map_div. fold (get filter [y; x]).
    rewrite Hv by assumption. rewrite Htot. reflexivity.
Qed.

Lemma gaussian_blur_kernel_2d_no_entry sigma height width :
  height = 0%nat \/ width = 0%nat ->
  exists k,
    gaussian_blur_kernel_2d sigma height width = Ok k /\
    dt k = float64 /\ shape k = [height; width] /\ data k = [].
Proof.
  intros H0. unfold gaussian_blur_kernel_2d.
  assert (E : for_each (range height) (fun y =>
                for_each (range width) (fun x filter =>
                  if Req_dec_T sigma 0 then Raise ZeroDivisionError
                  else set_item filter [y; x]
                         (gaussian_entry sigma (height / 2) (width / 2) y x)))
                (zeros float64 [height; width])
              = Ok (zeros float64 [height; width])).
  { destruct H0 as [-> | ->]; [reflexivity|].
    apply for_each_skip. intros i s'. reflexivity. }
  rewrite E. cbn [bind]. unfold scalar_op.
  cbn [dt zeros build scalar_fits scalar_dtype].
  eexists; split; [reflexivity|]. cbn [dt shape data].
  split; [reflexivity|]. split; [reflexivity|].
  assert (Hn : numel [height; width] = 0%nat).
  { destruct H0 as [-> | ->]; unfold numel; simpl; lia. }
  unfold zeros, build. cbn [data]. rewrite Hn. reflexivity.
Qed.



(** ** The Gaussian kernel of odd size is symmetric *)

Lemma odd_half n : Nat.odd n = true -> n = (2 * (n / 2) + 1)%nat.
Proof.
  intros H. apply Nat.odd_spec in H as (m & ->).
  assert (E : ((2 * m + 1) / 2 = m)%nat).
  { symmetry. apply (Nat.div_unique _ 2 m 1); lia. }
  rewrite E. reflexivity.
Qed.

Lemma mirror_offset n i :
  Nat.odd n = true -> (i < n)%nat ->
  INR (n - 1 - i) - INR (n / 2) = - (INR i - INR (n / 2)).
Proof.
  intros Ho Hi. pose proof (odd_half n Ho) as E.
  assert (E' : (n - 1 - i = 2 * (n / 2) - i)%nat) by lia.
  rewrite E'. rewrite minus_INR by lia. rewrite mult_INR. simpl. lra.
Qed.

Lemma gaussian_entry_mirror sigma height width y x :
  Nat.odd height = true -> Nat.odd width = true ->
  (y < height)%nat -> (x < width)%nat ->
  gaussian_entry sigma (height / 2) (width / 2)
                 (height - 1 - y) (width - 1 - x) =
  gaussian_entry sigma (height / 2) (width / 2) y x.
Proof.
  intros Hh Hw Hy Hx. unfold gaussian_entry.
  rewrite (mirror_offset height y Hh Hy), (mirror_offset width x Hw Hx).
  do 2 f_equal. f_equal. f_equal. ring.
Qed.

Lemma gaussian_kernel_flip sigma height width k :
  Nat.odd height = true -> Nat.odd width = true ->
  gaussian_blur_kernel_2d sigma height width = Ok k ->
  flip2 k = Ok k.
Proof.
  intros Hh Hw E.
  destruct (Req_dec_T sigma 0) as [Hs | Hs].
  { subst sigma.
    pose proof (odd_half height Hh). pose proof (odd_half width Hw).
    destruct height as [|height]; [lia|]. destruct width as [|width]; [lia|].
    rewrite gaussian_blur_kernel_2d_sigma_zero in E. discriminate. }
  destruct (gaussian_kernel_entries sigma height width Hs)
    as (k0 & E0 & Hwf & Hd & Hsh & Hv).
  assert (k0 = k) by congruence. subst k0.
  destruct (flip2_ok k height width Hsh) as (k' & Ef & Hd' & Hsh').
  rewrite Ef. f_equal.
  apply ndarray_ext; try congruence.
  - unfold flip2 in Ef. rewrite Hsh in Ef. injection Ef as <-. apply wf_build.
  - rewrite Hsh'. intros [|i [|j [|c idx]]] Hin; simpl in Hin;
      try discriminate; try (rewrite !andb_false_r in Hin; discriminate).
    apply andb_true_iff in Hin as [Hi Hin].
    apply andb_true_iff in Hin as [Hj _].
    apply Nat.ltb_lt in Hi, Hj.
    rewrite (get_flip2 k height width k' i j Hsh Ef Hi Hj).
    rewrite !Hv by lia.
    now rewrite gaussian_entry_mirror.
Qed.



(** ** Sign of [sigma] and size of the entries *)

Lemma gaussian_entry_opp sigma hh hw y x :
  gaussian_entry (- sigma) hh hw y x = - gaussian_entry sigma hh hw y x.
Proof.
  unfold gaussian_entry.
  replace ((- sigma) ^ 2) with (sigma ^ 2) by ring.
  destruct (Req_dec_T sigma 0) as [-> | Hs].
  - rewrite Ropp_0. replace (2 * PI * 0) with 0 by ring.
    unfold Rdiv at 1 3. rewrite Rinv_0. ring.
  - replace (1 / (2 * PI * - sigma)) with (- (1 / (2 * PI * sigma))).
    + ring.
    + pose proof PI_RGT_0. field. split; lra.
Qed.

Lemma gaussian_total_opp sigma height width :
  gaussian_total (- sigma) height width = - gaussian_total sigma height width.
Proof.
  unfold gaussian_total.
  replace (- sum_over (range height) (fun y =>
             sum_over (range width) (fun x =>
               gaussian_entry sigma (height / 2) (width / 2) y x)))
    with (-1 * sum_over (range height) (fun y =>
             sum_over (range width) (fun x =>
               gaussian_entry sigma (height / 2) (width / 2) y x))) by ring.
  rewrite sum_over_scal. apply sum_over_ext. intros y _.
  rewrite sum_over_scal. apply sum_over_ext. intros x _.
  rewrite gaussian_entry_opp. ring.
Qed.

Lemma gaussian_total_nonzero sigma height width :
  sigma <> 0 -> (0 < height)%nat -> (0 < width)%nat ->
  gaussian_total sigma height width <> 0.
Proof.
  intros Hs Hh Hw.
  destruct (Rlt_le_dec 0 sigma) as [Hp | Hn].
  - pose proof (gaussian_total_pos sigma height width Hp Hh Hw). lra.
  - assert (Hp : 0 < - sigma) by lra.
    pose proof (gaussian_total_pos (- sigma) height width Hp Hh Hw) as H.
    rewrite gaussian_total_opp in H. lra.
Qed.

Lemma gaussian_entry_peak sigma height width y x :
  0 < sigma ->
  gaussian_entry sigma (height / 2) (width / 2) y x <=
  gaussian_entry sigma (height / 2) (width / 2) (height / 2) (width / 2).
Proof.
  intros Hs. unfold gaussian_entry.
  apply Rmult_le_compat_l.
  - pose proof PI_RGT_0. apply Rlt_le. apply Rdiv_lt_0_compat; [lra | nra].
  - set (a := INR x - INR (width / 2)). set (b := INR y - INR (height / 2)).
    replace (INR (width / 2) - INR (width / 2)) with 0 by ring.
    replace (INR (height / 2) - INR (height / 2)) with 0 by ring.
    assert (Hd : 0 < 2 * sigma ^ 2) by nra.
    assert (Hq : - (a ^ 2 + b ^ 2) / (2 * sigma ^ 2) <=
                 - (0 ^ 2 + 0 ^ 2) / (2 * sigma ^ 2)).
    { unfold Rdiv. apply Rmult_le_compat_r.
      - apply Rlt_le. now apply Rinv_0_lt_compat.
      - nra. }
    destruct Hq as [Hq | Hq].
    + apply Rlt_le. now apply exp_increasing.
    + rewrite Hq. apply Rle_refl.
Qed.



(** ** Nearest-neighbour upsampling *)

Lemma upsample_bad_channels cur d h w c :
  shape cur = [h; w; c] -> c <> 1%nat -> c <> 3%nat ->
  upsample cur d = Raise ValueError.
Proof.
  intros Hs H1 H3. unfold upsample. rewrite Hs.
  assert (E : assign_stride2 (zeros d [2 * h; 2 * w; 3]%nat) 0 0 cur
              = Raise ValueError).
  { unfold assign_stride2. cbn [shape zeros build nth].
    rewrite Hs, strip_ones_rank3, !stride_len by lia.
    unfold broadcast_shapes. cbn [rev app broadcast_rev].
    destruct (Nat.eqb_spec 3 c) as [E|_]; [congruence|].
    cbn [Nat.eqb].
    destruct (Nat.eqb_spec c 1) as [E|_]; [congruence|].
    reflexivity. }
  rewrite E. reflexivity.
Qed.

(** X7: the upsampling step of both pyramid functions.  A level of three
    channels is returned doubled in both sides, with the requested element
    type, output pixel [(y, x)] being source pixel [(y // 2, x // 2)] in each
    channel; a level with a channel axis of any length other than 1 and 3
    raises [ValueError], as does a buffer of rank below 2. *)
Theorem upsample_nearest cur d :
  (forall h w, shape cur = [h; w; 3%nat] ->
     exists u,
       upsample cur d = Ok u /\ dt u = d /\
       shape u = [2 * h; 2 * w; 3]%nat /\
       forall y x c, (y < 2 * h)%nat -> (x < 2 * w)%nat -> (c < 3)%nat ->
         get u [y; x; c] = cast d (get cur [(y / 2)%nat; (x / 2)%nat; c])) /\
  (forall h w c, shape cur = [h; w; c] -> c <> 1%nat -> c <> 3%nat ->
     upsample cur d = Raise ValueError) /\
  ((ndim cur < 2)%nat -> upsample cur d = Raise ValueError).
Proof.
  split; [|split].
  - intros h w Hs.
    destruct (upsample_ok cur d h w Hs) as (u & E & _ & Hd & Hsu).
    exists u. repeat split; try assumption.
    intros y x c Hy Hx Hc. now apply (get_upsample cur d h w).
  - intros h w c. apply upsample_bad_channels.
  - unfold ndim, upsample. intros Hn.
    destruct (shape cur) as [|h [|w r]]; simpl in Hn; try reflexivity; lia.
Qed.

Lemma upsample_nearest_witness :
  (exists u,
     upsample (mk_ndarray uint8 [1; 1; 3]%nat [7; 8; 9]) float64 = Ok u /\
     dt u = float64 /\ shape u = [2 * 1; 2 * 1; 3]%nat /\
     forall y x c, (y < 2 * 1)%nat -> (x < 2 * 1)%nat -> (c < 3)%nat ->
       get u [y; x; c] =
       cast float64 (get (mk_ndarray uint8 [1; 1; 3]%nat [7; 8; 9])
                         [(y / 2)%nat; (x / 2)%nat; c])) /\
  upsample (mk_ndarray uint8 [1; 1; 4]%nat [7; 8; 9; 10]) float64 =
  Raise ValueError.
Proof.
  split.
  - apply (proj1 (upsample_nearest
                    (mk_ndarray uint8 [1; 1; 3]%nat [7; 8; 9]) float64) 1%nat 1%nat).
    reflexivity.
  - apply (proj1 (proj2 (upsample_nearest
                    (mk_ndarray uint8 [1; 1; 4]%nat [7; 8; 9; 10]) float64))
             1%nat 1%nat 4%nat); [reflexivity | lia | lia].
Defined.

(** ** The number of levels of a pyramid *)

Lemma for_each_grows {A} l (body : nat -> list A -> result (list A)) :
  (forall i s s', body i s = Ok s' -> length s' = Datatypes.S (length s)) ->
  forall acc r, for_each l body acc = Ok r ->
                length r = (length l + length acc)%nat.
Proof.
  intros Hb. induction l as [|i l IH]; intros acc r H; cbn [for_each] in H.
  - injection H as <-. reflexivity.
  - apply bind_ok in H as (s' & Es & H).
    apply IH in H. apply Hb in Es. simpl. lia.
Qed.

(** X8: whenever [construct_laplacian] returns, the list has exactly [levels]
    elements, and one element (the image itself) when [levels] is 0 or 1,
    where no loop runs and nothing about the channels is checked. *)
Theorem construct_laplacian_length img levels pyr :
  construct_laplacian img levels = Ok pyr ->
  length pyr = Nat.max levels 1 /\
  ((levels <= 1)%nat -> pyr = [img]).
Proof.
  intros H. unfold construct_laplacian in H.
  destruct (shape img) as [|h [|w r]]; try discriminate.
  destruct (_ && _)%bool; [|discriminate].
  apply bind_ok in H as (G & EG & H).
  apply bind_ok in H as (top & Etop & H).
  split.
  - apply for_each_grows in H.
    + rewrite H. unfold range_down. rewrite length_rev, length_seq. simpl. lia.
    + intros i s s' E.
      apply bind_ok in E as (a & _ & E). apply bind_ok in E as (u & _ & E).
      apply bind_ok in E as (p & _ & E). apply bind_ok in E as (dd & _ & E).
      injection E as <-. reflexivity.
  - intros Hl.
    assert (E0 : (levels - 1 = 0)%nat) by lia.
    unfold range_up, range_down in *. rewrite E0 in *.
    cbn [seq rev for_each] in *.
    injection EG as <-. injection H as <-.
    cbv in Etop. congruence.
Qed.

Lemma construct_laplacian_length_witness :
  length [mk_ndarray uint8 [1; 1]%nat [7]] = Nat.max 1 1 /\
  ((1 <= 1)%nat ->
   [mk_ndarray uint8 [1; 1]%nat [7]] = [mk_ndarray uint8 [1; 1]%nat [7]]).
Proof.
  apply (construct_laplacian_length (mk_ndarray uint8 [1; 1]%nat [7]) 1).
  reflexivity.
Defined.

(** ** Images the pyramid does not accept *)

Lemma separable_filter_rejects img k n :
  shape k = [1%nat; n] -> correlates img = false ->
  separable_filter img k = Raise IndexError.
Proof.
  intros Hk Hc. unfold separable_filter.
  now rewrite (cross_correlation_2d_rejects img k 1 n Hk Hc).
Qed.

Lemma blur_1d_filter_ok img :
  correlates img = true ->
  exists out,
    separable_filter img blur_1d = Ok out /\
    wf out /\ dt out = float64 /\ shape out = shape img.
Proof.
  intros Hc. apply (separable_filter_ok img blur_1d 5); try assumption.
  - reflexivity.
  - destruct (dt img); discriminate.
Qed.

Lemma gaussian_loop_channels img levels h w c :
  shape img = [h; w; c] -> (3 <= c)%nat ->
  exists G,
    for_each (range_up levels) (fun currLev gau_pyr =>
      prev <- list_get gau_pyr (currLev - 1) ;;
      blurImg <- separable_filter prev blur_1d ;;
      blurImg <- decimate blurImg ;;
      Ok (gau_pyr ++ [blurImg])) [img] = Ok G /\
    length G = (1 + (levels - 1))%nat /\
    forall g, In g G -> exists h' w', shape g = [h'; w'; c].
Proof.
  intros Hs Hc. unfold range_up.
  apply (for_each_seq_inv
    (fun i (G : list ndarray) =>
       length G = i /\ forall g, In g G -> exists h' w', shape g = [h'; w'; c])).
  - split; [reflexivity|]. intros g [<- | []]. eauto.
  - intros i G Hi (Hlen & Hall).
    destruct (nth_error G (i - 1)) as [prev|] eqn:Hp;
      [|apply nth_error_None in Hp; lia].
    rewrite (list_get_nth _ _ _ Hp). cbn [bind].
    destruct (Hall prev (nth_error_In _ _ Hp)) as (h' & w' & Hsp).
    destruct (blur_1d_filter_ok prev) as (b & Eb & _ & _ & Hsb).
    { unfold correlates. rewrite Hsp.
      destruct (Nat.leb_spec 3 c); [reflexivity | lia]. }
    rewrite Eb. cbn [bind]. unfold decimate. rewrite Hsb, Hsp. cbn [bind].
    eexists. split; [reflexivity|]. split.
    + rewrite length_app. simpl. lia.
    + intros g Hg. apply in_app_iff in Hg as [Hg | [<- | []]]; [auto|].
      cbn [shape build]. eauto.
Qed.

(** X9: with two levels or more and sides that pass the divisibility check,
    [construct_laplacian] builds no pyramid for an image of rank 2 or of
    a channel count other than 3 (with at least one pixel): an image without
    a channel axis raises [IndexError] at the first decimation, fewer than
    three channels raise [IndexError] in the first blur, and more than three
    channels raise [ValueError] at the first upsampling. *)
Theorem construct_laplacian_needs_three_channels img levels h w r :
  shape img = h :: w :: r -> (2 <= levels)%nat ->
  (h mod 2 ^ (levels - 1) = 0)%nat -> (w mod 2 ^ (levels - 1) = 0)%nat ->
  (r = [] -> construct_laplacian img levels = Raise IndexError) /\
  (forall c, r = [c] -> (c < 3)%nat -> (0 < h)%nat -> (0 < w)%nat ->
     construct_laplacian img levels = Raise IndexError) /\
  (forall c, r = [c] -> (3 < c)%nat ->
     construct_laplacian img levels = Raise ValueError).
Proof.
  intros Hs HL Hh Hw.
  destruct levels as [|[|L]]; [lia | lia |].
  assert (Hup : range_up (Datatypes.S (Datatypes.S L)) = 1%nat :: seq 2 L).
  { unfold range_up.
    replace (Datatypes.S (Datatypes.S L) - 1)%nat with (Datatypes.S L) by lia.
    reflexivity. }
  assert (Hget : list_get [img] (1 - 1) = Ok img) by reflexivity.
  split; [|split].
  - intros ->. unfold construct_laplacian. rewrite Hs, Hh, Hw.
    cbn [Nat.eqb andb]. rewrite Hup. cbn [for_each]. rewrite Hget. cbn [bind].
    destruct (blur_1d_filter_ok img) as (b & Eb & _ & _ & Hsb).
    { unfold correlates. now rewrite Hs. }
    rewrite Eb. cbn [bind].
    rewrite (decimate_rank2 b h w) by congruence. reflexivity.
  - intros c -> Hc Hh0 Hw0. unfold construct_laplacian. rewrite Hs, Hh, Hw.
    cbn [Nat.eqb andb]. rewrite Hup. cbn [for_each]. rewrite Hget. cbn [bind].
    rewrite (separable_filter_rejects img blur_1d 5); [reflexivity.. |].
    unfold correlates. rewrite Hs.
    destruct (Nat.leb_spec 3 c); [lia|].
    destruct (Nat.eqb_spec h 0); [lia|].
    destruct (Nat.eqb_spec w 0); [lia|]. reflexivity.
  - intros c -> Hc. unfold construct_laplacian. rewrite Hs, Hh, Hw.
    cbn [Nat.eqb andb].
    destruct (gaussian_loop_channels img (Datatypes.S (Datatypes.S L)) h w c)
      as (G & EG & Hlen & Hall); [assumption | lia |].
    rewrite EG. cbn [bind].
    replace (Datatypes.S (Datatypes.S L) - 1)%nat with (Datatypes.S L) in * by lia.
    destruct (nth_error G (Datatypes.S L)) as [top|] eqn:Htop;
      [|apply nth_error_None in Htop; lia].
    rewrite (list_get_nth _ _ _ Htop). cbn [bind].
    rewrite range_down_S. cbn [for_each].
    rewrite (list_get_nth _ _ _ Htop). cbn [bind].
    destruct (Hall top (nth_error_In _ _ Htop)) as (h' & w' & Hst).
    rewrite (upsample_bad_channels top (dt img) h' w' c) by (assumption || lia).
    reflexivity.
Qed.

Lemma construct_laplacian_needs_three_channels_witness :
  construct_laplacian
    (mk_ndarray uint8 [2; 2; 4]%nat
       [1; 2; 3; 4; 5; 6; 7; 8; 9; 10; 11; 12; 13; 14; 15; 16]) 2
  = Raise ValueError.
Proof.
  apply (proj2 (proj2 (construct_laplacian_needs_three_channels
    (mk_ndarray uint8 [2; 2; 4]%nat
       [1; 2; 3; 4; 5; 6; 7; 8; 9; 10; 11; 12; 13; 14; 15; 16]) 2 2 2 [4%nat]
    eq_refl (le_n 2) eq_refl eq_refl)) 4%nat eq_refl).
  lia.
Defined.

(** ** The levels of the pyramid of a three-channel image *)

Lemma level_side H L k :
  (k <= L - 1)%nat -> (H mod 2 ^ (L - 1) = 0)%nat ->
  (2 ^ (L - 1 - k) * (H / 2 ^ (L - 1)) = H / 2 ^ k)%nat.
Proof.
  intros Hk Hm.
  set (q := (H / 2 ^ (L - 1))%nat).
  assert (HH : (H = 2 ^ (L - 1) * q)%nat).
  { pose proof (Nat.div_mod_eq H (2 ^ (L - 1))). unfold q. lia. }
  assert (Hp : (2 ^ (L - 1) = 2 ^ k * 2 ^ (L - 1 - k))%nat).
  { rewrite <- Nat.pow_add_r. f_equal. lia. }
  assert (Hk0 : (2 ^ k <> 0)%nat) by (apply Nat.pow_nonzero; lia).
  apply Nat.div_unique_exact; [assumption|].
  rewrite Nat.mul_assoc, <- Hp. exact HH.
Qed.

(** X10: for a three-channel image whose sides are divisible by
    [2^(levels-1)], [construct_laplacian] returns a pyramid in which level [k]
    has the sides of the image divided by [2^k] and three channels; level 0
    keeps the element type of the image and every deeper level is float64;
    and [reconstruct_laplacian] without weights returns the image from it. *)
Theorem pyramid_levels_rgb img levels H W :
  wf img -> samples_valid img -> (1 <= levels)%nat ->
  shape img = [H; W; 3%nat] ->
  (H mod 2 ^ (levels - 1) = 0)%nat -> (W mod 2 ^ (levels - 1) = 0)%nat ->
  exists pyr,
    construct_laplacian img levels = Ok pyr /\
    (forall k, (k < levels)%nat ->
       exists l, nth_error pyr k = Some l /\
         shape l = [H / 2 ^ k; W / 2 ^ k; 3]%nat /\
         dt l = if (k =? 0)%nat then dt img else float64) /\
    reconstruct_laplacian pyr None = Ok img.
Proof.
  intros Hw Hv HL Hs HH HW.
  destruct (laplacian_round_trip_rgb img levels H W Hw Hv HL Hs HH HW)
    as (pyr & E & Hlen & Hrt).
  exists pyr. split; [assumption|]. split; [|assumption].
  set (f := (2 ^ (levels - 1))%nat) in *.
  assert (Hs' : shape img = level_shape levels (H / f) (W / f) 0).
  { rewrite Hs. unfold level_shape. rewrite Nat.sub_0_r. fold f.
    f_equal; [|f_equal].
    - pose proof (Nat.div_mod_eq H f). lia.
    - pose proof (Nat.div_mod_eq W f). lia. }
  destruct (gaussian_pyramid_ok img levels (H / f) (W / f) Hw Hv Hs' HL)
    as (G & EG & HG).
  pose proof HG as (HlenG & Hfst & Hall).
  destruct (nth_error G (levels - 1)) as [top|] eqn:Htop;
    [|apply nth_error_None in Htop; lia].
  destruct (laplacian_loop img levels _ _ G HG (dt img) levels [top])
    as (ds & Eds & Hlds & Hlap); [lia|].
  assert (Hpyr : pyr = ds ++ [top]).
  { unfold construct_laplacian in E. rewrite Hs in E. fold f in E.
    rewrite HH, HW in E. cbn [Nat.eqb andb] in E. rewrite EG in E.
    cbn [bind] in E. rewrite (list_get_nth _ _ _ Htop) in E. cbn [bind] in E.
    congruence. }
  assert (Hshape : forall k, (k <= levels - 1)%nat ->
            level_shape levels (H / f) (W / f) k
            = [H / 2 ^ k; W / 2 ^ k; 3]%nat).
  { intros k Hk. unfold level_shape, f.
    now rewrite !level_side by assumption. }
  intros k Hk. subst pyr.
  destruct (Nat.eq_dec k (levels - 1)) as [-> | Hne].
  - exists top. split.
    { rewrite nth_error_app2 by lia.
      now replace (levels - 1 - length ds)%nat with 0%nat by lia. }
    destruct (Hall _ _ Htop) as (_ & _ & Hst & Hdt).
    split; [rewrite Hst; apply Hshape; lia|].
    destruct (Nat.eqb_spec (levels - 1) 0) as [E0 | E0].
    + rewrite E0 in Htop. congruence.
    + apply Hdt. lia.
  - destruct (Hlap k) as (g & g' & u & l & Hg & Hg' & Hl & Eu & Hb); [lia|].
    exists l. split; [rewrite nth_error_app1 by lia; assumption|].
    destruct (gauss_levels_pair img levels _ _ G HG k)
      as (g1 & g1' & Hg1 & Hg1' & _ & _ & Hd1 & Hi1 & Hup); [lia|].
    assert (g1 = g) by congruence. assert (g1' = g') by congruence.
    subst g1 g1'.
    destruct (Hup (dt img)) as (u1 & Eu1 & _ & Hdu & Hsu & _).
    assert (u1 = u) by congruence. subst u1.
    destruct (Hall _ _ Hg) as (_ & _ & Hsg & _).
    rewrite (binop_same_shape Rminus g u) in Hb by congruence.
    injection Hb as <-. cbn [shape dt build]. split.
    + rewrite Hsg. apply Hshape. lia.
    + rewrite Hdu. destruct (Nat.eqb_spec k 0) as [E0 | E0].
      * rewrite (Hi1 E0). apply promote_same.
      * rewrite Hd1 by lia. reflexivity.
Qed.

Lemma pyramid_levels_rgb_witness :
  exists pyr,
    construct_laplacian
      (mk_ndarray uint8 [2; 2; 3]%nat
         [1; 2; 3; 4; 5; 6; 7; 8; 9; 10; 11; 12]) 2 = Ok pyr /\
    (forall k, (k < 2)%nat ->
       exists l, nth_error pyr k = Some l /\
         shape l = [2 / 2 ^ k; 2 / 2 ^ k; 3]%nat /\
         dt l = if (k =? 0)%nat then uint8 else float64) /\
    reconstruct_laplacian pyr None =
    Ok (mk_ndarray uint8 [2; 2; 3]%nat
          [1; 2; 3; 4; 5; 6; 7; 8; 9; 10; 11; 12]).
Proof.
  apply (pyramid_levels_rgb
    (mk_ndarray uint8 [2; 2; 3]%nat
       [1; 2; 3; 4; 5; 6; 7; 8; 9; 10; 11; 12]) 2 2 2);
    try reflexivity; try lia.
  intros _. cbn [data]. repeat constructor;
    match goal with |- exists z, IZR ?n = _ /\ _ => exists n; split; [reflexivity | lia] end.
Defined.

(** ** What [reconstruct_laplacian] raises *)

Lemma for_each_seq_stops {S} (I : S -> Prop) (body : nat -> S -> result S)
  e m :
  (forall i s, (i < m)%nat -> I s -> exists s', body i s = Ok s' /\ I s') ->
  (forall s, I s -> body m s = Raise e) ->
  forall n a s0, (a <= m < a + n)%nat -> I s0 ->
                 for_each (seq a n) body s0 = Raise e.
Proof.
  intros Hok Hbad. induction n as [|n IH]; intros a s0 Ha H0; [lia|].
  cbn [seq for_each].
  destruct (Nat.eq_dec a m) as [-> | Hne].
  - now rewrite Hbad.
  - destruct (Hok a s0) as (s' & E & H'); [lia | assumption |].
    rewrite E. cbn [bind]. apply IH; [lia | assumption].
Qed.

Lemma Forall_list_set {A} (P : A -> Prop) k v l :
  P v -> Forall P l -> Forall P (list_set k v l).
Proof.
  intros Hv Hl. revert k. induction Hl as [|x l Hx Hl IH]; intros k.
  - destruct k; constructor.
  - destruct k as [|k]; cbn [list_set]; constructor; auto.
Qed.

Lemma inplace_scalar_op_float f a s :
  is_float (dt a) = true ->
  inplace_scalar_op f a s =
  Ok (mk_ndarray (dt a) (shape a)
        (map (fun x => f x (scalar_value s)) (data a))).
Proof.
  intros Hf. unfold inplace_scalar_op.
  assert (Hm : map (fun x => cast (dt a) (f x (scalar_value s))) (data a)
               = map (fun x => f x (scalar_value s)) (data a)).
  { apply map_ext. intros x. apply cast_float.
    intros E. rewrite E in Hf. discriminate. }
  destruct (dt a) eqn:Hd; [discriminate | |];
    destruct s; cbn [scalar_fits]; now rewrite Hm.
Qed.



(** ** What the reconstruction computes *)

Lemma sum_over_map (g : nat -> nat) l f :
  sum_over (map g l) f = sum_over l (fun i => f (g i)).
Proof.
  induction l as [|i l IH]; [reflexivity|].
  cbn [map]. unfold sum_over in *. cbn [fold_right]. now rewrite IH.
Qed.

Lemma sum_over_S n f :
  sum_over (seq 0 (Datatypes.S n)) f =
  f 0%nat + sum_over (seq 0 n) (fun k => f (Datatypes.S k)).
Proof.
  cbn [seq]. rewrite <- seq_shift. unfold sum_over at 1. cbn [fold_right].
  fold (sum_over (map Datatypes.S (seq 0 n)) f). now rewrite sum_over_map.
Qed.

Lemma nth_map_scale (w : R) l k :
  nth k (map (fun x => x * w) l) 0 = nth k l 0 * w.
Proof.
  revert k; induction l as [|x l IH]; intros [|k]; simpl; try lra. apply IH.
Qed.

Lemma inplace_binop_same f a b :
  shape b = shape a ->
  (is_float (dt b) && negb (is_float (dt a)))%bool = false ->
  inplace_binop f a b =
  Ok (build (dt a) (shape a) (fun idx =>
        cast (dt a) (f (get a idx) (get b (bindex (shape b) idx))))).
Proof.
  intros Hs Hf. unfold inplace_binop. rewrite Hs, broadcast_shapes_same.
  destruct (list_eq_dec Nat.eq_dec (shape a) (shape a)); [|congruence].
  now rewrite Hf.
Qed.

Section Collapse.

Variables (P : list ndarray) (n h0 w0 : nat).
Hypothesis HP : length P = n.
Hypothesis Hlev : forall k l, nth_error P k = Some l ->
  wf l /\ is_float (dt l) = true /\ shape l = level_shape n h0 w0 k.

Local Abbreviation level_sum m y x c :=
  (sum_over (seq 0 (n - m))
     (fun k => get (nth (m + k) P (zeros float64 []))
                   [(y / 2 ^ k)%nat; (x / 2 ^ k)%nat; c])).

Lemma level_sum_step m p y x c :
  nth_error P m = Some p ->
  level_sum m y x c =
  get p [y; x; c] + level_sum (Datatypes.S m) (y / 2)%nat (x / 2)%nat c.
Proof.
  intros Hp.
  assert (Hm : (m < n)%nat) by (rewrite <- HP; apply nth_error_Some; congruence).
  replace (n - m)%nat with (Datatypes.S (n - Datatypes.S m)) by lia.
  rewrite sum_over_S. f_equal.
  - rewrite Nat.add_0_r, (nth_error_nth _ _ _ Hp).
    now rewrite Nat.pow_0_r, !Nat.div_1_r.
  - apply sum_over_ext. intros k _.
    replace (m + Datatypes.S k)%nat with (Datatypes.S m + k)%nat by lia.
    rewrite !Nat.Div0.div_div, Nat.pow_succ_r'. reflexivity.
Qed.

Lemma collapse_loop :
  forall m C, (m < n)%nat ->
    length C = n ->
    (forall k, (k < m)%nat -> nth_error C k = nth_error P k) ->
    (exists t p, nth_error C m = Some t /\ nth_error P m = Some p /\
       wf t /\ dt t = dt p /\ shape t = shape p /\
       forall y x c, (y < 2 ^ (n - 1 - m) * h0)%nat ->
                     (x < 2 ^ (n - 1 - m) * w0)%nat -> (c < 3)%nat ->
         get t [y; x; c] = level_sum m y x c) ->
    exists C' out p0,
      for_each (range_down (Datatypes.S m)) (fun currLev copy_pyr =>
        currImg <- list_get copy_pyr currLev ;;
        first <- list_get copy_pyr 0 ;;
        upImg <- upsample currImg (dt first) ;;
        prev <- list_get copy_pyr (currLev - 1) ;;
        prev <- inplace_binop Rplus prev upImg ;;
        Ok (list_set (currLev - 1) prev copy_pyr)) C = Ok C' /\
      nth_error C' 0 = Some out /\ nth_error P 0 = Some p0 /\
      dt out = dt p0 /\ shape out = shape p0 /\
      forall y x c, (y < 2 ^ (n - 1) * h0)%nat ->
                    (x < 2 ^ (n - 1) * w0)%nat -> (c < 3)%nat ->
        get out [y; x; c] = level_sum 0 y x c.
Proof.
  induction m as [|m IH]; intros C Hm HC Hlow (t & p & Ht & Hp & Hwt & Hdt & Hst & Hv).
  - exists C, t, p. split; [reflexivity|]. repeat split; try assumption.
    intros y x c Hy Hx Hc. apply Hv; [now rewrite Nat.sub_0_r.. | assumption].
  - rewrite range_down_S. cbn [for_each].
    simpl Nat.sub. rewrite Nat.sub_0_r.
    destruct (Hlev _ _ Hp) as (_ & _ & Hsp).
    destruct (nth_error P 0) as [p0|] eqn:Hp0;
      [|apply nth_error_None in Hp0; lia].
    destruct (nth_error P m) as [q|] eqn:Hq;
      [|apply nth_error_None in Hq; lia].
    destruct (Hlev _ _ Hp0) as (_ & Hfp0 & _).
    destruct (Hlev _ _ Hq) as (Hwq & Hfq & Hsq).
    assert (Hc0 : nth_error C 0 = Some p0) by (rewrite Hlow by lia; assumption).
    assert (Hcm : nth_error C m = Some q) by (rewrite Hlow by lia; assumption).
    rewrite (list_get_nth _ _ _ Ht). cbn [bind].
    rewrite (list_get_nth _ _ _ Hc0). cbn [bind].
    set (h := (2 ^ (n - 1 - Datatypes.S m) * h0)%nat) in *.
    set (w := (2 ^ (n - 1 - Datatypes.S m) * w0)%nat) in *.
    assert (Hst' : shape t = [h; w; 3%nat]) by (rewrite Hst, Hsp; reflexivity).
    destruct (upsample_ok t (dt p0) h w Hst') as (u & Eu & Hwu & Hdu & Hsu).
    rewrite Eu. cbn [bind].
    rewrite (list_get_nth _ _ _ Hcm). cbn [bind].
    assert (Hsq' : shape q = [2 * h; 2 * w; 3]%nat).
    { rewrite Hsq. unfold level_shape, h, w.
      now rewrite <- !double_level by lia. }
    rewrite (inplace_binop_same Rplus q u).
    2:{ congruence. }
    2:{ rewrite Hfq. apply andb_false_r. }
    cbn [bind].
    set (q' := build (dt q) (shape q) _).
    assert (HmC : (m < length C)%nat) by lia.
    apply IH; [lia | now rewrite length_list_set | |].
    + intros k Hk. rewrite nth_error_list_set by assumption.
      destruct (Nat.eqb_spec m k); [lia|]. apply Hlow. lia.
    + exists q', q. rewrite nth_error_list_set, Nat.eqb_refl by assumption.
      split; [reflexivity|]. split; [reflexivity|].
      split; [apply wf_build|]. split; [reflexivity|]. split; [reflexivity|].
      intros y x c Hy Hx Hc.
      assert (Hy' : (y < 2 * h)%nat).
      { unfold h. rewrite <- double_level by lia. assumption. }
      assert (Hx' : (x < 2 * w)%nat).
      { unfold w. rewrite <- double_level by lia. assumption. }
      assert (Hin : in_range (shape q) [y; x; c] = true)
        by (rewrite Hsq'; apply in_range3; assumption).
      unfold q'. rewrite get_build by assumption.
      rewrite cast_float by (intros E; rewrite E in Hfq; discriminate).
      rewrite bindex_same by (rewrite Hsu, <- Hsq'; assumption).
      rewrite (get_upsample t (dt p0) h w u y x c Hst' Eu Hy' Hx' Hc).
      rewrite cast_float by (intros E; rewrite E in Hfp0; discriminate).
      rewrite Hv; [| apply Nat.Div0.div_lt_upper_bound; assumption..
                   | assumption].
      symmetry. now apply level_sum_step.
Qed.

End Collapse.

Lemma accumulate_sum P n h0 w0 :
  length P = n -> (1 <= n)%nat ->
  (forall k l, nth_error P k = Some l ->
     wf l /\ is_float (dt l) = true /\ shape l = level_shape n h0 w0 k) ->
  exists C' out,
    accumulate P = Ok C' /\ list_get C' 0 = Ok out /\
    shape out = level_shape n h0 w0 0 /\
    forall y x c, (y < 2 ^ (n - 1) * h0)%nat ->
                  (x < 2 ^ (n - 1) * w0)%nat -> (c < 3)%nat ->
      get out [y; x; c] =
      sum_over (range n) (fun k =>
        get (nth k P (zeros float64 []))
            [(y / 2 ^ k)%nat; (x / 2 ^ k)%nat; c]).
Proof.
  intros HP Hn Hlev.
  destruct (nth_error P (n - 1)) as [top|] eqn:Htop;
    [|apply nth_error_None in Htop; lia].
  destruct (collapse_loop P n h0 w0 HP Hlev (n - 1) P) as
    (C' & out & p0 & E & Hout & Hp0 & _ & Hso & Hv);
    [lia | assumption | reflexivity | |].
  { exists top, top. repeat split; try assumption.
    - now destruct (Hlev _ _ Htop).
    - intros y x c _ _ _.
      replace (n - (n - 1))%nat with 1%nat by lia.
      change (seq 0 1) with (range 1).
      rewrite (sum_over_range1 (fun k =>
        get (nth (n - 1 + k) P (zeros float64 []))
            [(y / 2 ^ k)%nat; (x / 2 ^ k)%nat; c])).
      rewrite Nat.add_0_r, (nth_error_nth _ _ _ Htop).
      now rewrite Nat.pow_0_r, !Nat.div_1_r. }
  exists C', out. unfold accumulate. rewrite HP.
  replace (Datatypes.S (n - 1)) with n in E by lia.
  split; [exact E|]. split; [now apply list_get_nth|]. split.
  - rewrite Hso. now destruct (Hlev _ _ Hp0) as (_ & _ & ->).
  - intros y x c Hy Hx Hc. rewrite (Hv y x c Hy Hx Hc).
    rewrite Nat.sub_0_r. reflexivity.
Qed.

Lemma weights_loop_scales P ws n :
  length P = n -> (n <= length ws)%nat ->
  (forall k l, nth_error P k = Some l -> is_float (dt l) = true) ->
  exists C,
    for_each (range n) (fun lev copy_pyr =>
      a <- list_get copy_pyr lev ;;
      w <- list_get ws lev ;;
      a <- inplace_scalar_op Rmult a w ;;
      Ok (list_set lev a copy_pyr)) P = Ok C /\
    length C = n /\
    forall k l, nth_error P k = Some l ->
      nth_error C k =
      Some (mk_ndarray (dt l) (shape l)
              (map (fun x => x * scalar_value (nth k ws (PyInt 1))) (data l))).
Proof.
  intros HP Hws Hf.
  destruct (for_each_range_inv
    (fun i (C : list ndarray) =>
       length C = n /\
       forall k l, nth_error P k = Some l ->
         nth_error C k =
         Some (if (k <? i)%nat
               then mk_ndarray (dt l) (shape l)
                      (map (fun x => x * scalar_value (nth k ws (PyInt 1)))
                           (data l))
               else l))
    (fun lev copy_pyr =>
       a <- list_get copy_pyr lev ;;
       w <- list_get ws lev ;;
       a <- inplace_scalar_op Rmult a w ;;
       Ok (list_set lev a copy_pyr)) n P) as (C & E & HlC & HC).
  - split; [assumption|]. intros k l Hl. assumption.
  - intros i C Hi (HlC & HC).
    destruct (nth_error P i) as [l|] eqn:Hl;
      [|apply nth_error_None in Hl; lia].
    pose proof (HC i l Hl) as Hci. rewrite Nat.ltb_irrefl in Hci.
    rewrite (list_get_nth _ _ _ Hci). cbn [bind].
    rewrite (list_get_nth ws i (nth i ws (PyInt 1)))
      by (apply nth_error_nth'; lia).
    cbn [bind].
    rewrite (inplace_scalar_op_float Rmult l _ (Hf _ _ Hl)). cbn [bind].
    eexists. split; [reflexivity|]. split; [now rewrite length_list_set|].
    intros k l' Hl'. rewrite nth_error_list_set by lia.
    destruct (Nat.eqb_spec i k) as [<- | Hne].
    + assert (l' = l) by congruence. subst l'.
      destruct (Nat.ltb_spec i (Datatypes.S i)); [reflexivity | lia].
    + rewrite (HC k l' Hl').
      destruct (Nat.ltb_spec k i), (Nat.ltb_spec k (Datatypes.S i));
        try reflexivity; lia.
  - exists C. split; [assumption|]. split; [assumption|].
    intros k l Hl. rewrite (HC k l Hl).
    assert (Hk : (k < n)%nat)
      by (rewrite <- HP; apply nth_error_Some; congruence).
    destruct (Nat.ltb_spec k n); [reflexivity | lia].
Qed.



(** ** The output of the hybrid composer *)

Lemma nth_map_fix (g : R -> R) l k :
  g 0 = 0 -> nth k (map g l) 0 = g (nth k l 0).
Proof.
  intros Hg. revert k; induction l as [|x l IH]; intros [|k]; simpl; auto.
Qed.

Lemma Rtrunc_byte x :
  0 <= x <= 255 -> (0 <= Rtrunc x <= 255)%Z.
Proof.
  intros [H0 H1]. unfold Rtrunc. destruct (Rle_dec 0 x) as [_|]; [|contradiction].
  destruct (base_Int_part x) as [Hl Hu]. split.
  - assert (H : (-1 < Int_part x)%Z) by (apply lt_IZR; lra). lia.
  - apply le_IZR. lra.
Qed.

Lemma clip_byte x : 0 <= Rmin (Rmax x 0) 255 <= 255.
Proof.
  split.
  - apply Rmin_glb; [apply Rmax_r | lra].
  - apply Rmin_r.
Qed.

Lemma apply_filter_ok mode img sigma size :
  sigma <> 0 -> correlates img = true ->
  exists f,
    apply_filter mode img sigma size = Ok f /\
    dt f = float64 /\ shape f = shape img.
Proof.
  intros Hs Hc.
  destruct (convolve_gaussian_ok img sigma size Hs Hc)
    as (k & c & Ek & Ec & _ & Hdc & Hsc).
  unfold apply_filter, low_pass, high_pass. rewrite Ek. cbn [bind]. rewrite Ec.
  destruct (String.eqb mode "low").
  - exists c. auto.
  - cbn [bind]. rewrite (binop_same_shape Rminus img c) by congruence.
    eexists. split; [reflexivity|]. cbn [dt shape build].
    rewrite Hdc, promote_float64. auto.
Qed.

Lemma normalize_inputs_ok img1 img2 :
  exists n1 n2,
    normalize_inputs img1 img2 = Ok (n1, n2) /\
    shape n1 = shape img1 /\ shape n2 = shape img2.
Proof.
  unfold normalize_inputs. destruct (dtype_eqb (dt img1) uint8).
  - rewrite !scale_to_unit. cbn [bind]. eexists _, _. split; [reflexivity|].
    split; reflexivity.
  - eexists _, _. split; [reflexivity|]. split; reflexivity.
Qed.



(** ** What the hybrid composer raises *)

Lemma apply_filter_sigma_zero mode img size :
  (0 < size)%nat ->
  apply_filter mode img 0 size = Raise ZeroDivisionError.
Proof.
  intros Hs. destruct size as [|size]; [lia|].
  unfold apply_filter, low_pass, high_pass.
  rewrite gaussian_blur_kernel_2d_sigma_zero.
  now destruct (String.eqb mode "low").
Qed.

Lemma apply_filter_rejects mode img sigma size :
  sigma <> 0 -> correlates img = false ->
  apply_filter mode img sigma size = Raise IndexError.
Proof.
  intros Hs Hc.
  destruct (gaussian_blur_kernel_2d_ok sigma size size Hs)
    as (k & Ek & _ & Hsk).
  destruct (flip2_ok k size size Hsk) as (k' & Ef & _ & Hsk').
  unfold apply_filter, low_pass, high_pass, convolve_2d.
  rewrite Ek. cbn [bind]. rewrite Ef. cbn [bind].
  rewrite (cross_correlation_2d_rejects img k' size size Hsk' Hc).
  now destruct (String.eqb mode "low").
Qed.



(** ** Channels beyond the third, and kernels of one entry or none *)

Lemma pass_filters_kernel img sigma size :
  sigma <> 0 ->
  exists k',
    shape k' = [size; size] /\ dt k' = float64 /\
    low_pass img sigma size = cross_correlation_2d img k' /\
    high_pass img sigma size =
      (c <- cross_correlation_2d img k' ;; binop Rminus img c) /\
    forall i j, (i < size)%nat -> (j < size)%nat ->
      get k' [i; j] =
      gaussian_entry sigma (size / 2) (size / 2)
                     (size - 1 - i) (size - 1 - j) /
      gaussian_total sigma size size.
Proof.
  intros Hs.
  destruct (gaussian_kernel_entries sigma size size Hs)
    as (k & Ek & _ & Hdk & Hsk & Hv).
  destruct (flip2_ok k size size Hsk) as (k' & Ef & Hdk' & Hsk').
  exists k'. split; [assumption|]. split; [congruence|].
  unfold low_pass, high_pass, convolve_2d. rewrite Ek. cbn [bind].
  rewrite Ef. cbn [bind]. split; [reflexivity|]. split; [reflexivity|].
  intros i j Hi Hj. rewrite (get_flip2 k size size k' i j Hsk Ef Hi Hj).
  apply Hv; lia.
Qed.

Lemma float_kernel_promote k img :
  dt k = float64 -> promote (dt k) (dt img) <> uint8.
Proof. intros ->. destruct (dt img); discriminate. Qed.



Lemma single_tap sigma k' :
  sigma <> 0 ->
  (forall i j, (i < 1)%nat -> (j < 1)%nat ->
     get k' [i; j] =
     gaussian_entry sigma (1 / 2) (1 / 2) (1 - 1 - i) (1 - 1 - j) /
     gaussian_total sigma 1 1) ->
  get k' [0; 0]%nat = 1.
Proof.
  intros Hs Hv. rewrite Hv by lia.
  pose proof (gaussian_total_nonzero sigma 1 1 Hs) as Hn.
  unfold gaussian_total in *.
  rewrite (sum_over_range1 (fun y => sum_over (range 1) (fun x =>
             gaussian_entry sigma (1 / 2) (1 / 2) y x))) in *.
  rewrite (sum_over_range1 (fun x =>
             gaussian_entry sigma (1 / 2) (1 / 2) 0 x)) in *.
  change (1 - 1 - 0)%nat with 0%nat.
  field. apply Hn; lia.
Qed.

Lemma correlation_spec_single img k' h w chan :
  shape k' = [1; 1]%nat ->
  (h < nth 0 (shape img) 0)%nat -> (w < nth 1 (shape img) 0)%nat ->
  correlation_spec img k' h w chan =
  get k' [0; 0]%nat * get img (h :: w :: chan).
Proof.
  intros Hk Hh Hw. unfold correlation_spec. rewrite Hk. cbn [nth].
  rewrite (sum_over_range1 (fun i => sum_over (range 1) (fun j =>
    get k' [i; j] * padded_sample img (1 / 2) (1 / 2) (h + i) (w + j) chan))).
  rewrite (sum_over_range1 (fun j =>
    get k' [0%nat; j] *
    padded_sample img (1 / 2) (1 / 2) (h + 0) (w + j) chan)).
  f_equal. unfold padded_sample.
  change (1 / 2)%nat with 0%nat. rewrite !Nat.add_0_r, !Nat.sub_0_r.
  cbn [Nat.leb Nat.add].
  destruct (Nat.ltb_spec h (nth 0 (shape img) 0%nat)); [|lia].
  destruct (Nat.ltb_spec w (nth 1 (shape img) 0%nat)); [|lia].
  reflexivity.
Qed.

Lemma correlation_spec_empty img k' h w chan :
  shape k' = [0; 0]%nat -> correlation_spec img k' h w chan = 0.
Proof. intros Hk. unfold correlation_spec. now rewrite Hk. Qed.


